(** * Guild Wars Party Bot (src/src/index.ts): party roster, persistence,
      lock timer and per-party lock, embedded in Rocq.

    The bot keeps one mutable registry, [activeParties], a [Map] from party id
    to [Party]; the handler of every interaction on a party reads the
    registry, checks, mutates the party in place and calls [saveData], all
    without an [await] in between, and only then talks to the chat platform
    ([handleRunSelection], which creates a party, writes before and after
    its awaits).  The embedding follows that shape:

    - JavaScript strings are sequences of UTF-16 code units ([list N]);
    - a [Date] is its time value, milliseconds since the epoch ([Z]);
    - the file at [CONFIG.dataPath] is represented by the JSON document it
      holds; [Date.prototype.toISOString] and the [Date] constructor on
      strings, which [JSON.stringify] and [loadData] go through, are written
      out (module [JSDate], after ECMA-262, section "Date Objects");
    - the registry is a [gmap]; mutating a party object that sits in the
      [Map] is an insert at its key;
    - the synchronous part of every handler is a function from [World] to a
      reply and a new [World]; the awaits that follow it are scheduled by the
      event loop of module [EventLoop], and [handled] is the handler with
      what the edit of the party message, awaited before the reply is sent,
      can do to the reply. *)

From Stdlib Require Import ZArith NArith Lia String Ascii Sorted.
From stdpp Require Import base option list gmap.

Local Open Scope Z_scope.

(** ** JavaScript strings *)

Abbreviation jsstring := (list N).

Module JSString.

(** A string literal of the source, as code units (ASCII only). *)
Definition str (s : string) : jsstring :=
  N_of_ascii <$> list_ascii_of_string s.
#[global] Arguments str : simpl never.

(** [String.prototype.startsWith]. *)
Fixpoint startsWith (s prefix : jsstring) : bool :=
  match prefix, s with
  | [], _ => true
  | c :: prefix', d :: s' => (c =? d)%N && startsWith s' prefix'
  | _ :: _, [] => false
  end.

(** ECMAScript WhiteSpace and LineTerminator code points, the ones
    [String.prototype.trim] strips.  All of them are single code units. *)
Definition isWhiteSpace (c : N) : bool :=
  ((9 <=? c) && (c <=? 13) || (c =? 32) || (c =? 160) || (c =? 5760)
   || (8192 <=? c) && (c <=? 8202) || (c =? 8232) || (c =? 8233)
   || (c =? 8239) || (c =? 8287) || (c =? 12288) || (c =? 65279))%N.

Fixpoint trimStart (s : jsstring) : jsstring :=
  match s with
  | c :: s' => if isWhiteSpace c then trimStart s' else s
  | [] => []
  end.

Definition trimEnd (s : jsstring) : jsstring :=
  reverse (trimStart (reverse s)).

(** [String.prototype.trim]. *)
Definition trim (s : jsstring) : jsstring := trimEnd (trimStart s).

(** Truthiness of a string: [!s] holds of the empty string only. *)
Definition falsy (s : jsstring) : bool :=
  match s with [] => true | _ => false end.

End JSString.

(** ** Dates: time values, [toISOString] and parsing *)

Module JSDate.

Definition msPerDay : Z := 86400000.

(** A [Date] holds a time value of at most 8.64e15 ms in absolute value. *)
Definition maxTime : Z := 8640000000000000.
Definition validTime (t : Z) : Prop := - maxTime <= t <= maxTime.

Definition Day (t : Z) : Z := t / msPerDay.
Definition TimeWithinDay (t : Z) : Z := t mod msPerDay.

Definition DayFromYear (y : Z) : Z :=
  365 * (y - 1970) + (y - 1969) / 4 - (y - 1901) / 100 + (y - 1601) / 400.

Definition InLeapYear (y : Z) : bool :=
  (y mod 4 =? 0) && (negb (y mod 100 =? 0) || (y mod 400 =? 0)).

(** The year of a day number: the largest [y] with [DayFromYear y <= d].
    An estimate from the mean year length is off by at most one. *)
Definition YearFromDay (d : Z) : Z :=
  let y := 1970 + (400 * d) / 146097 in
  if d <? DayFromYear y then y - 1
  else if DayFromYear (y + 1) <=? d then y + 1
  else y.

(** Day within the year on which month [m] (0 to 11) starts. *)
Definition monthStart (leap : bool) (m : Z) : Z :=
  let l := if leap then 1 else 0 in
  match m with
  | 0 => 0 | 1 => 31 | 2 => 59 + l | 3 => 90 + l | 4 => 120 + l
  | 5 => 151 + l | 6 => 181 + l | 7 => 212 + l | 8 => 243 + l
  | 9 => 273 + l | 10 => 304 + l | 11 => 334 + l | _ => 365 + l
  end.

Definition MonthFromDay (leap : bool) (dwy : Z) : Z :=
  if dwy <? monthStart leap 1 then 0
  else if dwy <? monthStart leap 2 then 1
  else if dwy <? monthStart leap 3 then 2
  else if dwy <? monthStart leap 4 then 3
  else if dwy <? monthStart leap 5 then 4
  else if dwy <? monthStart leap 6 then 5
  else if dwy <? monthStart leap 7 then 6
  else if dwy <? monthStart leap 8 then 7
  else if dwy <? monthStart leap 9 then 8
  else if dwy <? monthStart leap 10 then 9
  else if dwy <? monthStart leap 11 then 10
  else 11.

(** [w] decimal digits of [n], most significant first. *)
Fixpoint digits (w : nat) (n : Z) : jsstring :=
  match w with
  | O => []
  | S w' => digits w' (n / 10) ++ [Z.to_N (48 + n mod 10)]
  end.

(** Reads a run of decimal digits; [None] on any other code unit. *)
Fixpoint number (acc : Z) (s : jsstring) : option Z :=
  match s with
  | [] => Some acc
  | c :: s' =>
      if ((48 <=? c) && (c <=? 57))%N
      then number (10 * acc + (Z.of_N c - 48)) s'
      else None
  end.

(** The year of the ISO format: four digits for years 0 to 9999, and a
    sign with six digits otherwise. *)
Definition isoYear (y : Z) : jsstring :=
  if (0 <=? y) && (y <=? 9999) then digits 4 y
  else (if y <? 0 then 45%N else 43%N) :: digits 6 (Z.abs y).

(** [Date.prototype.toISOString]: [YYYY-MM-DDTHH:mm:ss.sssZ]. *)
Definition toISOString (t : Z) : jsstring :=
  let d := Day t in
  let r := TimeWithinDay t in
  let y := YearFromDay d in
  let leap := InLeapYear y in
  let dwy := d - DayFromYear y in
  let m := MonthFromDay leap dwy in
  let dom := dwy - monthStart leap m + 1 in
  isoYear y ++ [45%N] ++ digits 2 (m + 1) ++ [45%N] ++ digits 2 dom
    ++ [84%N] ++ digits 2 (r / 3600000) ++ [58%N]
    ++ digits 2 (r / 60000 mod 60) ++ [58%N]
    ++ digits 2 (r / 1000 mod 60) ++ [46%N] ++ digits 3 (r mod 1000)
    ++ [90%N].

(** The part of an ISO date-time after the year: [-MM-DDTHH:mm:ss.sssZ]. *)
Definition parseAfterYear (y : Z) (s : jsstring) : option Z :=
  match s with
  | [45; m1; m2; 45; d1; d2; 84; h1; h2; 58; i1; i2; 58; s1; s2; 46;
     f1; f2; f3; 90]%N =>
      mo ← number 0 [m1; m2];
      dom ← number 0 [d1; d2];
      h ← number 0 [h1; h2];
      mi ← number 0 [i1; i2];
      sec ← number 0 [s1; s2];
      ms ← number 0 [f1; f2; f3];
      if (1 <=? mo) && (mo <=? 12) && (1 <=? dom) && (dom <=? 31)
         && (h <=? 23) && (mi <=? 59) && (sec <=? 59)
      then
        let day := DayFromYear y + monthStart (InLeapYear y) (mo - 1)
                   + dom - 1 in
        let t := day * msPerDay
                 + (h * 3600000 + mi * 60000 + sec * 1000 + ms) in
        if (- maxTime <=? t) && (t <=? maxTime) then Some t else None
      else None
  | _ => None
  end.

(** [new Date(s).getTime()] for a string in the format [toISOString]
    writes; [None] is the invalid date. *)
Definition parse (s : jsstring) : option Z :=
  match s with
  | c :: s' =>
      if (c =? 43)%N || (c =? 45)%N then
        y ← number 0 (take 6 s');
        parseAfterYear (if (c =? 45)%N then - y else y) (drop 6 s')
      else
        y ← number 0 (take 4 s);
        parseAfterYear y (drop 4 s)
  | [] => None
  end.

End JSDate.

(** ** JSON documents *)

Module JSON.

#[warnings="-register-all"]
Inductive value :=
| Null
| Str (s : jsstring)
| Num (n : Z)
| Arr (items : list value)
| Obj (members : list (jsstring * value)).

(** Property read on a parsed object; of two members with one name
    [JSON.parse] keeps the later. *)
Fixpoint get (k : jsstring) (members : list (jsstring * value))
  : option value :=
  match members with
  | [] => None
  | (k', v) :: rest =>
      match get k rest with
      | Some v' => Some v'
      | None => if bool_decide (k' = k) then Some v else None
      end
  end.

End JSON.

(** ** Configuration (CONFIG, RUN_CONFIGS) *)

Import JSString.

(** [CONFIG.lockTimeout]: 3 hours in milliseconds. *)
Definition lockTimeout : Z := 3 * 60 * 60 * 1000.

Record RunConfig := { size : Z; roles : list jsstring }.

Definition BogSC : RunConfig :=
  {| size := 8; roles := str <$>
       ["Tank"; "AotL MM"; "Paragon"; "VoS"; "VoS"; "VoS"; "VoS"; "VoS"]%string |}.

Definition RUN_CONFIGS_table : list (jsstring * RunConfig) :=
  [ (str "BogSC", BogSC);
    (str "DeepSC", {| size := 12; roles := str <$>
       ["Tank"; "EoE"; "UA"; "DPS"; "DPS"; "DPS"; "DPS"; "DPS"; "DPS"; "DPS";
        "DPS"; "DPS"]%string |});
    (str "DoASC", {| size := 8; roles := str <$>
       ["MT"; "TT"; "Caller"; "TK"; "IAU"; "MLK"; "UA"; "Emo"]%string |});
    (str "FoWSC", {| size := 8; roles := str <$>
       ["T1"; "T2"; "T3"; "T4"; "MT"; "VoS"; "VoS"; "VoS"]%string |});
    (str "SoOSC", {| size := 8; roles := str <$>
       ["MT"; "Gater"; "VoS"; "TaO"; "Glass Arrows"; "Glass Arrows";
        "Glass Arrows"; "Glass Arrows"]%string |});
    (str "UrgozSC", {| size := 12; roles := str <$>
       ["Tank"; "VoS"; "SoS/EoE"; "Deep Freeze"; "Spiker"; "Spiker"; "Spiker";
        "Spiker"; "Spiker"; "Seeder"; "Seeder"; "Bonder"]%string |});
    (str "UWSC", {| size := 8; roles := str <$>
       ["T1"; "T2"; "T3"; "T4"; "LT"; "SoS"; "Spiker"; "Emo"]%string |}) ].

(** [RUN_CONFIGS[type]]; [None] is [undefined]. *)
Definition RUN_CONFIGS (type : jsstring) : option RunConfig :=
  snd <$> find (fun e => bool_decide (fst e = type)) RUN_CONFIGS_table.

(** ** Types (PartySlot, Party) *)

Record PartySlot := { role : jsstring; user : option jsstring }.

Record Party := {
  type : jsstring;
  leader : jsstring;
  maxSize : Z;
  slots : list PartySlot;
  createdAt : Z;                  (* Date, as its time value *)
  messageId : option jsstring     (* messageId?: string *)
}.

(** [slot.user = u] *)
Definition setUser (u : option jsstring) (s : PartySlot) : PartySlot :=
  {| role := role s; user := u |}.

(** [party.slots[i].user = u] for an index that holds a slot. *)
Definition assignSlot (i : nat) (u : option jsstring) (p : Party) : Party :=
  {| type := type p; leader := leader p; maxSize := maxSize p;
     slots := alter (setUser u) i (slots p);
     createdAt := createdAt p; messageId := messageId p |}.

Definition withSlots (l : list PartySlot) (p : Party) : Party :=
  {| type := type p; leader := leader p; maxSize := maxSize p; slots := l;
     createdAt := createdAt p; messageId := messageId p |}.

(** [party.leader = id] *)
Definition withLeader (id : jsstring) (p : Party) : Party :=
  {| type := type p; leader := id; maxSize := maxSize p; slots := slots p;
     createdAt := createdAt p; messageId := messageId p |}.

(** [party.messageId = id] *)
Definition withMessageId (id : jsstring) (p : Party) : Party :=
  {| type := type p; leader := leader p; maxSize := maxSize p;
     slots := slots p; createdAt := createdAt p; messageId := Some id |}.

(** [party.slots[i]] for the number [i] that [parseInt] returned; [None] is
    [undefined], which is also what a negative index and [NaN] give. *)
Definition slotAt (p : Party) (i : Z) : option PartySlot :=
  if bool_decide (0 <= i) then slots p !! Z.to_nat i else None.

(** [s.user === id] *)
Definition heldBy (id : jsstring) (s : PartySlot) : bool :=
  bool_decide (user s = Some id).

(** [s.user === null] *)
Definition vacant (s : PartySlot) : bool :=
  match user s with None => true | Some _ => false end.

(** [s.user !== null && !s.user.startsWith('IGN:')] *)
Definition discordUser (s : PartySlot) : bool :=
  match user s with
  | Some u => negb (startsWith u (str "IGN:"))
  | None => false
  end.

(** [party.slots.map((s, i) => ({ ...s, i })).filter(keep)], by the indices
    [i] it keeps, in ascending order. *)
Definition slotIndices (keep : PartySlot -> bool) (p : Party) : list Z :=
  (fun e => Z.of_nat (fst e)) <$> filter (fun e => keep (snd e) = true)
                                        (imap (fun i s => (i, s)) (slots p)).

(** [party.slots.findIndex(keep)]; [None] is -1. *)
Fixpoint findIndex (keep : PartySlot -> bool) (l : list PartySlot)
  : option nat :=
  match l with
  | [] => None
  | s :: l' => if keep s then Some O else S <$> findIndex keep l'
  end.

(** ** State: the registry, the data file, the armed timers *)

Inductive File :=
| NoFile                        (* [fs.existsSync] is false *)
| Corrupt                       (* a file [JSON.parse] throws on *)
| Doc (j : JSON.value).

Record World := {
  activeParties : gmap jsstring Party;
  disk : File;                  (* the file at CONFIG.dataPath *)
  timers : list (jsstring * Z); (* setTimeout(() => lockParty(id), delay) *)
  clock : Z;                    (* what Date.now() returns *)
  fs_writable : bool            (* whether writing the data file succeeds *)
}.

Definition withParties (m : gmap jsstring Party) (w : World) : World :=
  {| activeParties := m; disk := disk w; timers := timers w;
     clock := clock w; fs_writable := fs_writable w |}.

(** The party object held at [id] was mutated into [p]. *)
Definition mutate (id : jsstring) (p : Party) (w : World) : World :=
  withParties (<[id := p]> (activeParties w)) w.

(** Time passes. *)
Definition tick (dt : Z) (w : World) : World :=
  {| activeParties := activeParties w; disk := disk w; timers := timers w;
     clock := clock w + dt; fs_writable := fs_writable w |}.

(** A process start: memory is fresh, the file and the environment stay. *)
Definition restart (w : World) : World :=
  {| activeParties := ∅; disk := disk w; timers := [];
     clock := clock w; fs_writable := fs_writable w |}.

(** ** Persistence helpers *)

Definition slotToJSON (s : PartySlot) : JSON.value :=
  JSON.Obj [ (str "role", JSON.Str (role s));
             (str "user", match user s with
                          | Some u => JSON.Str u
                          | None => JSON.Null
                          end) ].

(** What [JSON.stringify] makes of a [Party]: the [Date] goes through
    [toJSON], that is [toISOString]; an absent [messageId] is left out. *)
Definition partyToJSON (p : Party) : JSON.value :=
  JSON.Obj ([ (str "type", JSON.Str (type p));
              (str "leader", JSON.Str (leader p));
              (str "maxSize", JSON.Num (maxSize p));
              (str "slots", JSON.Arr (slotToJSON <$> slots p));
              (str "createdAt", JSON.Str (JSDate.toISOString (createdAt p))) ]
            ++ match messageId p with
               | Some m => [ (str "messageId", JSON.Str m) ]
               | None => []
               end).

Definition entryToJSON (e : jsstring * Party) : JSON.value :=
  JSON.Arr [ JSON.Str (fst e); partyToJSON (snd e) ].

(** [saveData]: the whole registry overwrites the file.  A failing write is
    caught and logged (line 135); the file is then taken to be as it was.
    The entries come in the order of [map_to_list], not in the insertion
    order of the [Map]; [loadData] puts them back into a map. *)
Definition saveData (w : World) : World :=
  if fs_writable w then
    {| activeParties := activeParties w;
       disk := Doc (JSON.Arr (entryToJSON <$> map_to_list (activeParties w)));
       timers := timers w; clock := clock w; fs_writable := fs_writable w |}
  else w.

Definition slotFromJSON (v : JSON.value) : option PartySlot :=
  match v with
  | JSON.Obj ms =>
      match JSON.get (str "role") ms, JSON.get (str "user") ms with
      | Some (JSON.Str r), Some (JSON.Str u) => Some {| role := r; user := Some u |}
      | Some (JSON.Str r), Some JSON.Null => Some {| role := r; user := None |}
      | _, _ => None
      end
  | _ => None
  end.

Fixpoint slotsFromJSON (l : list JSON.value) : option (list PartySlot) :=
  match l with
  | [] => Some []
  | v :: l' =>
      s ← slotFromJSON v; r ← slotsFromJSON l'; Some (s :: r)
  end.

(** The value [loadData] stores for a parsed entry, after
    [val.createdAt = new Date(val.createdAt)].  The cast at line 144 is not
    checked: [None] stands for every parsed value that is not a [Party]. *)
Definition partyFromJSON (v : JSON.value) : option Party :=
  match v with
  | JSON.Obj ms =>
      match JSON.get (str "type") ms, JSON.get (str "leader") ms,
            JSON.get (str "maxSize") ms, JSON.get (str "slots") ms,
            JSON.get (str "createdAt") ms with
      | Some (JSON.Str ty), Some (JSON.Str ld), Some (JSON.Num n),
        Some (JSON.Arr sl), Some (JSON.Str iso) =>
          l ← slotsFromJSON sl;
          t ← JSDate.parse iso;
          match JSON.get (str "messageId") ms with
          | None => Some {| type := ty; leader := ld; maxSize := n; slots := l;
                            createdAt := t; messageId := None |}
          | Some (JSON.Str m) =>
              Some {| type := ty; leader := ld; maxSize := n; slots := l;
                      createdAt := t; messageId := Some m |}
          | Some _ => None
          end
      | _, _, _, _, _ => None
      end
  | _ => None
  end.

(** ** Party lock system: the timer *)

(** [setupLockTimer] *)
Definition setupLockTimer (partyId : jsstring) (party : Party) (w : World)
  : World :=
  let elapsed := clock w - createdAt party in
  let remaining := Z.max 0 (lockTimeout - elapsed) in
  {| activeParties := activeParties w; disk := disk w;
     timers := timers w ++ [(partyId, remaining)];
     clock := clock w; fs_writable := fs_writable w |}.

(** The body of [data.forEach] in [loadData], for one entry. *)
Definition loadEntry (w : World) (e : JSON.value) : option World :=
  match e with
  | JSON.Arr [JSON.Str key; v] =>
      val ← partyFromJSON v;
      Some (setupLockTimer key val (mutate key val w))
  | _ => None
  end.

(** [data.forEach]: an entry that is not of the shape [saveData] writes ends
    the loop, as a throw inside it does (caught at line 152); what was loaded
    before it stays. *)
Fixpoint forEachEntry (w : World) (data : list JSON.value) : World :=
  match data with
  | [] => w
  | e :: data' =>
      match loadEntry w e with
      | Some w' => forEachEntry w' data'
      | None => w
      end
  end.

(** [loadData] *)
Definition loadData (w : World) : World :=
  match disk w with
  | Doc (JSON.Arr data) => forEachEntry w data
  | _ => w
  end.

(** ** Party lock system: [lockParty] *)

(** What the platform does during one run of [lockParty]. *)
Inductive LockEnv :=
| ChannelUnavailable   (* getTargetChannel returns null *)
| MessageMissing       (* safeFetchMessage returns null *)
| EditFails            (* msg.edit rejects *)
| EditDone.

(** [activeParties.delete(partyId); saveData()] *)
Definition evict (partyId : jsstring) (w : World) : World :=
  saveData (withParties (delete partyId (activeParties w)) w).

(** The guard of [lockParty] (line 181): does the run go on?  A message id
    that is the empty string is falsy, like an absent one. *)
Definition lockable (partyId : jsstring) (w : World) : bool :=
  match activeParties w !! partyId with
  | Some party =>
      match messageId party with
      | Some sent => negb (falsy sent)
      | None => false
      end
  | None => false
  end.

(** The rest of [lockParty] once the guard has passed: every way out of the
    [try] goes through [finally]. *)
Definition lockParty_finish (partyId : jsstring) (env : LockEnv) (w : World)
  : World :=
  match env with
  | MessageMissing => evict partyId (evict partyId w)
  | ChannelUnavailable | EditFails | EditDone => evict partyId w
  end.

(** [lockParty], run without another handler in between its awaits. *)
Definition lockParty (partyId : jsstring) (env : LockEnv) (w : World)
  : World :=
  if lockable partyId w then lockParty_finish partyId env w else w.

(** ** Replies *)

(** What a handler answers.  One constructor per message of the source. *)
Inductive Reply :=
| NoSuchParty             (* 'This party no longer exists.' and
                             'This party is locked or no longer exists.' *)
| AlreadyHaveRole         (* 'You already have a role.' *)
| PartyIsFull             (* 'Party is full!' *)
| ChooseRole (options : list Z)        (* menu pick_ *)
| SlotJustTaken           (* 'That slot was just taken.' *)
| RoleConfirmed           (* 'Role confirmed.' *)
| NoRoleToSwitch          (* "You don't have a role to switch (from)." *)
| ChooseNewRole (options : list Z)     (* menu switchpick_ *)
| RoleSwitched            (* 'Role switched!' *)
| RosterShown             (* leave: the embed is shown again *)
| OnlyLeader              (* 'Only the party leader can ...' *)
| Disbanded               (* 'Party disbanded.' *)
| NoOneToPing             (* 'No Discord users to ping.' *)
| PartyPing (mentions : list jsstring)
| NoSlotToReserve         (* 'No available slots to reserve.' *)
| ChooseReserved (options : list Z)    (* menu externalrole_ *)
| AskIgn (roleIdx : Z)    (* modal externalign_ *)
| IgnEmpty                (* 'IGN cannot be empty.' *)
| Reserved (ign : jsstring)            (* 'Reserved slot for ...' *)
| NoOneToKick             (* 'There are no players to kick.' *)
| ChooseKicked (options : list Z)      (* menu kickpick_ *)
| SlotAlreadyEmpty        (* 'That slot is already empty.' *)
| Removed (who : jsstring)             (* 'Removed ... from the party.' *)
| NoOneToPromote          (* 'No eligible players to promote.' *)
| ChooseLeader (options : list jsstring) (* menu promotepick_ *)
| CannotPromoteExternal   (* 'You cannot promote an external ... player.' *)
| Promoted (who : jsstring)            (* 'Promoted ... to Party Leader.' *)
| PartyPosted             (* 'Party posted in ...' *)
| ChannelFailed           (* 'Failed to access the party channel.' *)
| Thrown.                 (* an exception reached the catch at line 887:
                             'An error occurred while processing your
                             request.' *)

(** The failures a lifecycle operation reports: one for each precondition
    that a handler checks, and [Unexpected] for the two notices that name
    none ('Failed to access the party channel.' and 'An error occurred
    while processing your request.'). *)
Inductive LifecycleError :=
| NotFound | NotLeader | AlreadyAssigned | NoCurrentRole | SlotTaken
| EmptySlot | Full | InvalidTarget | EmptyName | Unexpected.

(** The replies that tell the user that the request was not carried out, by
    the failure they stand for. *)
Definition failure (r : Reply) : option LifecycleError :=
  match r with
  | NoSuchParty => Some NotFound
  | AlreadyHaveRole => Some AlreadyAssigned
  | PartyIsFull | NoSlotToReserve => Some Full
  | SlotJustTaken => Some SlotTaken
  | NoRoleToSwitch => Some NoCurrentRole
  | OnlyLeader => Some NotLeader
  | SlotAlreadyEmpty | NoOneToKick => Some EmptySlot
  | CannotPromoteExternal | NoOneToPromote => Some InvalidTarget
  | IgnEmpty => Some EmptyName
  | ChannelFailed | Thrown => Some Unexpected
  | _ => None
  end.

(** ** Select menu handler: run selection *)

(** What the platform does during one run of [handleRunSelection]. *)
Inductive PostEnv :=
| ChannelDown                                  (* getTargetChannel: null *)
| SendFails                                    (* channel.send rejects *)
| Posted (sentId : jsstring) (latency : Z).    (* the message was sent *)

Definition newParty (type_ userId : jsstring) (config : RunConfig) (now : Z)
  : Party :=
  {| type := type_; leader := userId; maxSize := size config;
     slots := (fun r => {| role := r; user := None |}) <$> roles config;
     createdAt := now; messageId := None |}.

(** [handleRunSelection], run without another handler in between its
    awaits; [uuid] is what [crypto.randomUUID()] returned. *)
Definition handleRunSelection (type_ userId uuid : jsstring) (env : PostEnv)
  (w : World) : Reply * World :=
  match RUN_CONFIGS type_ with
  | None => (Thrown, w)                        (* config.size of undefined *)
  | Some config =>
      let partyId := str "party_" ++ uuid in
      let party := newParty type_ userId config (clock w) in
      let w1 := mutate partyId party w in
      match env with
      | ChannelDown => (ChannelFailed, w1)
      | SendFails => (Thrown, w1)
      | Posted sentId latency =>
          let w2 := tick latency w1 in
          let w3 := saveData (mutate partyId (withMessageId sentId party) w2) in
          (PartyPosted, setupLockTimer partyId party w3)
      end
  end.

(** ** Button action handlers *)

(** [handleLeaveAction] *)
Definition handleLeaveAction (userId partyId : jsstring) (party : Party)
  (w : World) : Reply * World :=
  let cleared :=
    (fun slot => if heldBy userId slot then setUser None slot else slot)
      <$> slots party in
  (RosterShown, saveData (mutate partyId (withSlots cleared party) w)).

(** [handleJoinAction] *)
Definition handleJoinAction (userId : jsstring) (party : Party) (w : World)
  : Reply * World :=
  if existsb (heldBy userId) (slots party) then (AlreadyHaveRole, w)
  else
    let available := slotIndices vacant party in
    match available with
    | [] => (PartyIsFull, w)
    | _ => (ChooseRole available, w)
    end.

(** [handleDisbandAction], up to its first await.  'Party disbanded.' is
    sent after the edit of the party message (line 477); [handled] has the
    case in which that edit rejects. *)
Definition handleDisbandAction (userId partyId : jsstring) (party : Party)
  (w : World) : Reply * World :=
  if negb (bool_decide (userId = leader party)) then (OnlyLeader, w)
  else (Disbanded, evict partyId w).

(** [handleSwitchAction] *)
Definition handleSwitchAction (userId : jsstring) (party : Party) (w : World)
  : Reply * World :=
  match find (heldBy userId) (slots party) with
  | None => (NoRoleToSwitch, w)
  | Some _ =>
      (ChooseNewRole
         (slotIndices (fun s => vacant s || heldBy userId s) party), w)
  end.

(** [handlePingAction] *)
Definition handlePingAction (userId : jsstring) (party : Party) (w : World)
  : Reply * World :=
  if negb (bool_decide (userId = leader party)) then (OnlyLeader, w)
  else
    match omap user (filter (fun s => discordUser s = true) (slots party)) with
    | [] => (NoOneToPing, w)
    | mentions => (PartyPing mentions, w)
    end.

(** [handleExternalAction] *)
Definition handleExternalAction (userId : jsstring) (party : Party)
  (w : World) : Reply * World :=
  if negb (bool_decide (userId = leader party)) then (OnlyLeader, w)
  else
    match slotIndices vacant party with
    | [] => (NoSlotToReserve, w)
    | available => (ChooseReserved available, w)
    end.

(** [handleKickAction] *)
Definition handleKickAction (userId : jsstring) (party : Party) (w : World)
  : Reply * World :=
  if negb (bool_decide (userId = leader party)) then (OnlyLeader, w)
  else
    match slotIndices (fun s => negb (vacant s)) party with
    | [] => (NoOneToKick, w)
    | filled => (ChooseKicked filled, w)
    end.

(** [handlePromoteAction] *)
Definition handlePromoteAction (userId : jsstring) (party : Party)
  (w : World) : Reply * World :=
  if negb (bool_decide (userId = leader party)) then (OnlyLeader, w)
  else
    match omap user (filter (fun s => discordUser s = true) (slots party)) with
    | [] => (NoOneToPromote, w)
    | eligible => (ChooseLeader eligible, w)
    end.

(** ** Event handler: interactions *)

Inductive ButtonAction :=
| join | leave | switch | ping | external | kick | promote | disband.

(** An inbound interaction on a party, after the router has taken the party
    id out of [customId] and [parseInt] has read the slot value. *)
Inductive Interaction :=
| Button (action : ButtonAction) (partyId userId : jsstring)
| Pick (partyId userId : jsstring) (value : Z)          (* pick_ *)
| SwitchPick (partyId userId : jsstring) (value : Z)    (* switchpick_ *)
| ExternalRole (partyId userId : jsstring) (value : Z)  (* externalrole_ *)
| KickPick (partyId userId : jsstring) (value : Z)      (* kickpick_ *)
| PromotePick (partyId userId value : jsstring)         (* promotepick_ *)
| ExternalIgn (partyId : jsstring) (roleIdx : Z) (userId input : jsstring).
                                                        (* externalign_ *)

Definition partyOf (i : Interaction) : jsstring :=
  match i with
  | Button _ partyId _ | Pick partyId _ _ | SwitchPick partyId _ _
  | ExternalRole partyId _ _ | KickPick partyId _ _
  | PromotePick partyId _ _ | ExternalIgn partyId _ _ _ => partyId
  end.

(** Button branch (lines 659 to 682). *)
Definition button_ (action : ButtonAction) (partyId userId : jsstring)
  (w : World) : Reply * World :=
  match activeParties w !! partyId with
  | None => (NoSuchParty, w)
  | Some party =>
      match action with
      | leave => handleLeaveAction userId partyId party w
      | join => handleJoinAction userId party w
      | disband => handleDisbandAction userId partyId party w
      | switch => handleSwitchAction userId party w
      | ping => handlePingAction userId party w
      | external => handleExternalAction userId party w
      | kick => handleKickAction userId party w
      | promote => handlePromoteAction userId party w
      end
  end.

(** Role pick, join (lines 692 to 707). *)
Definition pick_ (partyId userId : jsstring) (slotIdx : Z) (w : World)
  : Reply * World :=
  match activeParties w !! partyId with
  | None => (NoSuchParty, w)
  | Some party =>
      match slotAt party slotIdx with
      | None => (Thrown, w)                      (* .user of undefined *)
      | Some slot =>
          if negb (vacant slot) then (SlotJustTaken, w)
          else
            (RoleConfirmed,
             saveData (mutate partyId
                         (assignSlot (Z.to_nat slotIdx) (Some userId) party) w))
      end
  end.

(** Role switch pick (lines 717 to 735). *)
Definition switchpick_ (partyId userId : jsstring) (newIdx : Z) (w : World)
  : Reply * World :=
  match activeParties w !! partyId with
  | None => (NoSuchParty, w)
  | Some party =>
      match findIndex (heldBy userId) (slots party) with
      | None => (NoRoleToSwitch, w)
      | Some oldIdx =>
          let party1 := assignSlot oldIdx None party in
          match slotAt party1 newIdx with
          | None => (Thrown, mutate partyId party1 w)
                                                 (* .user of undefined *)
          | Some _ =>
              (RoleSwitched,
               saveData (mutate partyId
                           (assignSlot (Z.to_nat newIdx) (Some userId) party1)
                           w))
          end
      end
  end.

(** External player role selection (lines 743 to 779). *)
Definition externalrole_ (partyId userId : jsstring) (roleIdx : Z)
  (w : World) : Reply * World :=
  match activeParties w !! partyId with
  | None => (NoSuchParty, w)
  | Some party =>
      if negb (bool_decide (userId = leader party)) then (OnlyLeader, w)
      else
        match slotAt party roleIdx with
        | None => (Thrown, w)
        | Some slot =>
            if negb (vacant slot) then (SlotJustTaken, w)
            else (AskIgn roleIdx, w)
        end
  end.

(** Kick player pick (lines 788 to 815). *)
Definition kickpick_ (partyId userId : jsstring) (slotIdx : Z) (w : World)
  : Reply * World :=
  match activeParties w !! partyId with
  | None => (NoSuchParty, w)
  | Some party =>
      if negb (bool_decide (userId = leader party)) then (OnlyLeader, w)
      else
        match slotAt party slotIdx with
        | None => (Thrown, w)
        | Some slot =>
            match user slot with
            | None | Some [] => (SlotAlreadyEmpty, w)   (* !kickedUser *)
            | Some kickedUser =>
                (Removed kickedUser,
                 saveData (mutate partyId
                             (assignSlot (Z.to_nat slotIdx) None party) w))
            end
        end
  end.

(** Promote leader pick (lines 825 to 845). *)
Definition promotepick_ (partyId userId newLeaderId : jsstring) (w : World)
  : Reply * World :=
  match activeParties w !! partyId with
  | None => (NoSuchParty, w)
  | Some party =>
      if negb (bool_decide (userId = leader party)) then (OnlyLeader, w)
      else if startsWith newLeaderId (str "IGN:")
      then (CannotPromoteExternal, w)
      else
        (Promoted newLeaderId,
         saveData (mutate partyId (withLeader newLeaderId party) w))
  end.

(** Modal submit, external player IGN (lines 857 to 883). *)
Definition externalign_ (partyId : jsstring) (roleIdx : Z)
  (userId input : jsstring) (w : World) : Reply * World :=
  match activeParties w !! partyId with
  | None => (NoSuchParty, w)
  | Some party =>
      if negb (bool_decide (userId = leader party)) then (OnlyLeader, w)
      else
        match slotAt party roleIdx with
        | None => (Thrown, w)
        | Some slot =>
            if negb (vacant slot) then (SlotJustTaken, w)
            else
              let ign := trim input in
              if falsy ign then (IgnEmpty, w)
              else
                (Reserved ign,
                 saveData (mutate partyId
                             (assignSlot (Z.to_nat roleIdx)
                                (Some (str "IGN:" ++ ign)) party) w))
        end
  end.

(** The synchronous part of [interactionCreate] for an interaction on a
    party: from the registry lookup to the last [saveData], up to the first
    [await].  The reply is the one the handler goes on to send when the
    platform calls it awaits before sending it do not reject; [handled],
    below, is the handler with those calls. *)
Definition interactionCreate (i : Interaction) (w : World) : Reply * World :=
  match i with
  | Button action partyId userId => button_ action partyId userId w
  | Pick partyId userId value => pick_ partyId userId value w
  | SwitchPick partyId userId value => switchpick_ partyId userId value w
  | ExternalRole partyId userId value => externalrole_ partyId userId value w
  | KickPick partyId userId value => kickpick_ partyId userId value w
  | PromotePick partyId userId value => promotepick_ partyId userId value w
  | ExternalIgn partyId roleIdx userId input =>
      externalign_ partyId roleIdx userId input w
  end.

(** A run of interactions handled one after the other, with their replies. *)
Fixpoint interactions (l : list Interaction) (w : World)
  : list Reply * World :=
  match l with
  | [] => ([], w)
  | i :: l' =>
      let '(r, w1) := interactionCreate i w in
      let '(rs, w2) := interactions l' w1 in
      (r :: rs, w2)
  end.

(** ** The handlers to their end: the edit of the party message

    After its last write a handler brings the party message up to date
    ([updatePartyMessage], lines 618 to 628; the edit at lines 470 to 478 in
    [handleDisbandAction]) and then answers.  [getTargetChannel] and
    [safeFetchMessage] catch what they await and return null; [msg.edit] is
    awaited outside any [try] of the handler, so that when it rejects the
    answer is not sent: the exception reaches the [catch] at line 887, which
    answers 'An error occurred while processing your request.'  The writes
    and [saveData] have happened by then. *)

(** The replies that are sent after the edit of the party message has been
    awaited (lines 706-707, 734-735, 809-815, 844-845, 881-882 and
    470-482). *)
Definition sentAfterEdit (r : Reply) : bool :=
  match r with
  | RoleConfirmed | RoleSwitched | Removed _ | Promoted _ | Reserved _
  | Disbanded => true
  | _ => false
  end.

(** [msg.edit] is reached and rejects: the party has a message id (line 619,
    line 471), the channel and the message are there, and the edit fails.
    What the platform does is a [LockEnv], as for [lockParty], which makes
    the same three calls. *)
Definition editRejects (env : LockEnv) (party : Party) : bool :=
  match env, messageId party with
  | EditFails, Some sent => negb (falsy sent)
  | _, _ => false
  end.

(** A handler from the arrival of its interaction to its answer, run without
    another handler in between its awaits. *)
Definition handled (env : LockEnv) (i : Interaction) (w : World)
  : Reply * World :=
  let '(r, w') := interactionCreate i w in
  match activeParties w !! partyOf i with
  | Some party =>
      if sentAfterEdit r && editRejects env party then (Thrown, w')
      else (r, w')
  | None => (r, w')
  end.

(** What the listener is asked to do to the state: the selection of a run
    type (line 649) or an interaction on a party (lines 654 to 886), each
    with what the platform does during it. *)
Inductive Request :=
| SelectRun (type_ userId uuid : jsstring) (env : PostEnv)
| OnParty (i : Interaction) (env : LockEnv).

Definition onInteraction (q : Request) (w : World) : Reply * World :=
  match q with
  | SelectRun type_ userId uuid env =>
      handleRunSelection type_ userId uuid env w
  | OnParty i env => handled env i w
  end.

(** ** Reading the state *)

(** The users of the slots of the party at [partyId], in slot order. *)
Definition rosterOf (partyId : jsstring) (w : World)
  : option (list (option jsstring)) :=
  (fun p => user <$> slots p) <$> activeParties w !! partyId.

(** [id] holds a slot of [p] as a Discord member. *)
Definition memberOccupant (id : jsstring) (p : Party) : Prop :=
  ∃ slot, slot ∈ slots p ∧ user slot = Some id
          ∧ startsWith id (str "IGN:") = false.

(** At most one slot of [p] holds a given member id (an id without the
    IGN: prefix). *)
Definition uniqueMembers (p : Party) : Prop :=
  ∀ id i j s t,
    startsWith id (str "IGN:") = false →
    slots p !! i = Some s → slots p !! j = Some t →
    user s = Some id → user t = Some id → i = j.

(** [id] holds a slot of [p]. *)
Definition holdsSlot (id : jsstring) (p : Party) : Prop :=
  ∃ s, s ∈ slots p ∧ user s = Some id.

(** That holds of every party of the registry. *)
Definition worldUnique (w : World) : Prop :=
  ∀ partyId p, activeParties w !! partyId = Some p → uniqueMembers p.

(** A display name with something in it and no whitespace at either end. *)
Definition trimmedName (n : jsstring) : Prop :=
  n ≠ [] ∧ (∀ c, head n = Some c → isWhiteSpace c = false)
  ∧ (∀ c, last n = Some c → isWhiteSpace c = false).

(** Every external occupant of [p] has such a name. *)
Definition externalsTrimmed (p : Party) : Prop :=
  ∀ s n, s ∈ slots p → user s = Some (str "IGN:" ++ n) → trimmedName n.

(** That holds of every party of the registry. *)
Definition worldTrimmed (w : World) : Prop :=
  ∀ partyId p, activeParties w !! partyId = Some p → externalsTrimmed p.

(** The user an interaction comes from. *)
Definition userOf (i : Interaction) : jsstring :=
  match i with
  | Button _ _ userId | Pick _ userId _ | SwitchPick _ userId _
  | ExternalRole _ userId _ | KickPick _ userId _ | PromotePick _ userId _
  | ExternalIgn _ _ userId _ => userId
  end.

(** Every [createdAt] in the registry is a time value a [Date] can hold. *)
Definition datesValid (w : World) : bool :=
  forallb (fun e => (- JSDate.maxTime <=? createdAt (snd e))
                    && (createdAt (snd e) <=? JSDate.maxTime))
          (map_to_list (activeParties w)).

(** What [loadData] does with one entry that [saveData] wrote. *)
Definition loaded (w : World) (e : jsstring * Party) : World :=
  setupLockTimer (fst e) (snd e) (mutate (fst e) (snd e) w).

(** The delay [setupLockTimer] computes at time [now]. *)
Definition remainingAt (now : Z) (party : Party) : Z :=
  Z.max 0 (lockTimeout - (now - createdAt party)).

(** ** The event loop: [withPartyLock] and the awaits of the handlers

    Node runs one piece of synchronous code at a time.  A handler runs from
    the arrival of its interaction to its first [await] on a platform call
    in one piece; that piece is [interactionCreate] above.  When an awaited
    call settles, the handler runs on to its next such [await], or to its
    end.  Other interactions arrive, and timers fire, in between. *)

Module EventLoop.

(** The promises [withPartyLock] makes; [===] on them is identity. *)
Inductive promise :=
| Settled                                   (* Promise.resolve() *)
| Current (n : nat)                         (* the n-th new Promise *)
| Chained (previous current : promise).     (* previous.then(() => current) *)

#[global] Instance promise_eq_dec : EqDecision promise.
Proof. solve_decision. Defined.

Inductive Body :=
| Handling (i : Interaction) (answer : Reply) (current : option promise)
| Locking (partyId : jsstring).             (* lockParty past its guard *)

(** A suspended async function: [calls] platform calls are still to be
    awaited, the first of them pending. *)
Record Task := { tid : nat; body : Body; calls : nat }.

Inductive Event :=
| Began (n : nat)                 (* the body of the n-th arrival starts *)
| Ended (n : nat) (answer : option Reply).  (* it has returned *)

Record Sys := {
  world : World;
  partyLocks : gmap jsstring promise;
  promises : nat;                 (* how many [new Promise] so far *)
  released : list promise;        (* the promises [release()] resolved *)
  tasks : list Task;
  arrivals : nat;
  log : list Event
}.

Definition boot (w : World) : Sys :=
  {| world := w; partyLocks := ∅; promises := O; released := [];
     tasks := []; arrivals := O; log := [] |}.

(** The platform calls a handler awaits after its synchronous part, when
    the party has a message and every call succeeds: the reply alone, or
    the channel, the message, its edit, and the reply. *)
Definition platformCalls (answer : Reply) : nat :=
  match answer with
  | RoleConfirmed | RoleSwitched | Removed _ | Promoted _ | Reserved _
  | Disbanded => 4%nat
  | _ => 1%nat
  end.

(** The branches of [interactionCreate] that go through [withPartyLock];
    externalrole_ (line 741) does not. *)
Definition locked (i : Interaction) : bool :=
  match i with ExternalRole _ _ _ => false | _ => true end.

(** [withPartyLock], lines 217 to 224: up to the call of [fn].  Nothing
    here awaits [previous]. *)
Definition withPartyLock_enter (partyId : jsstring) (s : Sys)
  : promise * Sys :=
  let previous := default Settled (partyLocks s !! partyId) in
  let current := Current (promises s) in
  (current,
   {| world := world s;
      partyLocks := <[partyId := Chained previous current]> (partyLocks s);
      promises := S (promises s); released := released s;
      tasks := tasks s; arrivals := arrivals s; log := log s |}).

(** [withPartyLock], lines 228 to 233: the [finally] block. *)
Definition withPartyLock_exit (partyId : jsstring) (current : promise)
  (s : Sys) : Sys :=
  {| world := world s;
     partyLocks :=
       if bool_decide (partyLocks s !! partyId = Some current)
       then delete partyId (partyLocks s) else partyLocks s;
     promises := promises s; released := current :: released s;
     tasks := tasks s; arrivals := arrivals s; log := log s |}.

(** An interaction arrives: the lock is entered where there is one, and
    the handler runs up to its first platform call. *)
Definition arrive (i : Interaction) (s : Sys) : Sys :=
  let '(current, s1) :=
    if locked i
    then let '(c, s') := withPartyLock_enter (partyOf i) s in (Some c, s')
    else (None, s) in
  let '(answer, w) := interactionCreate i (world s1) in
  {| world := w; partyLocks := partyLocks s1; promises := promises s1;
     released := released s1;
     tasks := tasks s1 ++ [ {| tid := arrivals s1;
                               body := Handling i answer current;
                               calls := platformCalls answer |} ];
     arrivals := S (arrivals s1);
     log := log s1 ++ [Began (arrivals s1)] |}.

(** [setTimeout] timers are one-shot: the first timer armed for
    [partyId] is taken off the list. *)
Fixpoint disarm (partyId : jsstring) (l : list (jsstring * Z))
  : option (list (jsstring * Z)) :=
  match l with
  | [] => None
  | e :: l' =>
      if bool_decide (fst e = partyId) then Some l'
      else cons e <$> disarm partyId l'
  end.

(** A timer armed for [partyId] runs out: [lockParty] runs up to its first
    platform call.  (When no such timer is armed, nothing happens.) *)
Definition fire (partyId : jsstring) (s : Sys) : Sys :=
  match disarm partyId (timers (world s)) with
  | None => s
  | Some rest =>
      let w := {| activeParties := activeParties (world s);
                  disk := disk (world s); timers := rest;
                  clock := clock (world s);
                  fs_writable := fs_writable (world s) |} in
      if lockable partyId w then
        {| world := w; partyLocks := partyLocks s;
           promises := promises s; released := released s;
           tasks := tasks s ++ [ {| tid := arrivals s;
                                    body := Locking partyId;
                                    calls := 3%nat |} ];
           arrivals := S (arrivals s);
           log := log s ++ [Began (arrivals s)] |}
      else
        {| world := w; partyLocks := partyLocks s;
           promises := promises s; released := released s;
           tasks := tasks s; arrivals := S (arrivals s);
           log := log s ++ [Began (arrivals s); Ended (arrivals s) None] |}
  end.

(** The function returns: a handler leaves the lock, [lockParty] runs its
    [finally]. *)
Definition finish (t : Task) (s : Sys) : Sys :=
  let s1 :=
    match body t with
    | Handling i _ (Some current) => withPartyLock_exit (partyOf i) current s
    | Handling _ _ None => s
    | Locking partyId =>
        {| world := lockParty_finish partyId EditDone (world s);
           partyLocks := partyLocks s; promises := promises s;
           released := released s; tasks := tasks s;
           arrivals := arrivals s; log := log s |}
    end in
  {| world := world s1; partyLocks := partyLocks s1;
     promises := promises s1; released := released s1;
     tasks := filter (fun t' => tid t' ≠ tid t) (tasks s1);
     arrivals := arrivals s1;
     log := log s1 ++ [Ended (tid t)
                         match body t with
                         | Handling _ answer _ => Some answer
                         | Locking _ => None
                         end] |}.

(** The platform call that task [n] awaits settles. *)
Definition settle (n : nat) (s : Sys) : Sys :=
  match find (fun t => bool_decide (tid t = n)) (tasks s) with
  | None => s
  | Some t =>
      match calls t with
      | S (S k) =>
          {| world := world s; partyLocks := partyLocks s;
             promises := promises s; released := released s;
             tasks := (fun t' => if bool_decide (tid t' = n)
                                 then {| tid := n; body := body t;
                                         calls := S k |}
                                 else t') <$> tasks s;
             arrivals := arrivals s; log := log s |}
      | _ => finish t s
      end
  end.

(** What the environment does next. *)
Inductive Action :=
| Arrive (i : Interaction)
| Fire (partyId : jsstring)
| Settle (n : nat).

Definition step (a : Action) (s : Sys) : Sys :=
  match a with
  | Arrive i => arrive i s
  | Fire partyId => fire partyId s
  | Settle n => settle n s
  end.

Definition run (l : list Action) (s : Sys) : Sys :=
  foldl (fun s a => step a s) s l.

(** Task [n] has begun and has not ended. *)
Definition inFlight (n : nat) (s : Sys) : bool :=
  bool_decide (n ∈ tid <$> tasks s).

(** The suspended tasks of [s] are handlers, none a run of [lockParty]. *)
Definition handlersOnly (s : Sys) : Prop :=
  Forall (fun t => ∃ i r c, body t = Handling i r c) (tasks s).

(** The interactions that arrive in a schedule, in order. *)
Definition arrived (l : list Action) : list Interaction :=
  omap (fun a => match a with Arrive i => Some i | _ => None end) l.

(** No timer fires in the schedule. *)
Definition noFire (l : list Action) : Prop :=
  Forall (fun a => ∀ partyId, a ≠ Fire partyId) l.

End EventLoop.

(** ** Numbers as strings: [Number.prototype.toString] and [parseInt] *)

Module JSNumber.

(** The decimal digits of [n], for [0 <= n < 2 ^ fuel]. *)
Fixpoint decimal (fuel : nat) (n : Z) : jsstring :=
  match fuel with
  | O => []
  | S fuel' =>
      if n <? 10 then [Z.to_N (48 + n)]
      else decimal fuel' (n / 10) ++ [Z.to_N (48 + n mod 10)]
  end.

(** [n.toString()] for an integer [n]. *)
Definition toString (n : Z) : jsstring :=
  if n <? 0 then 45%N :: decimal (S (Z.to_nat (Z.log2 (- n)))) (- n)
  else decimal (S (Z.to_nat (Z.log2 n))) n.

(** The value of a digit or letter as a digit of some radix. *)
Definition digitValue (c : N) : option Z :=
  if ((48 <=? c) && (c <=? 57))%N then Some (Z.of_N c - 48)
  else if ((97 <=? c) && (c <=? 122))%N then Some (Z.of_N c - 87)
  else if ((65 <=? c) && (c <=? 90))%N then Some (Z.of_N c - 55)
  else None.

(** The number that the longest prefix of digits of [radix] denotes;
    [acc] is [None] as long as no digit was read. *)
Fixpoint digitsPrefix (radix : Z) (acc : option Z) (s : jsstring)
  : option Z :=
  match s with
  | [] => acc
  | c :: s' =>
      match digitValue c with
      | Some d =>
          if d <? radix
          then digitsPrefix radix (Some (radix * default 0 acc + d)) s'
          else acc
      | None => acc
      end
  end.

(** [parseInt(s)] without a radix: leading whitespace, a sign, a [0x]
    prefix for radix 16, then the longest prefix of digits; [None] is [NaN].
    (Exact up to 2^53, which slot numbers do not reach.) *)
Definition parseInt (s : jsstring) : option Z :=
  let s1 := trimStart s in
  let '(sign, s2) :=
    match s1 with
    | 45%N :: r => (-1, r)
    | 43%N :: r => (1, r)
    | _ => (1, s1)
    end in
  let '(radix, s3) :=
    match s2 with
    | 48%N :: 120%N :: r | 48%N :: 88%N :: r => (16, r)
    | _ => (10, s2)
    end in
  (fun v => sign * v) <$> digitsPrefix radix None s3.

End JSNumber.

(** ** More string functions: [split], [join], [replace] *)

Module JSText.

(** [s.split(sep)] for a separator of one code unit. *)
Fixpoint split (sep : N) (s : jsstring) : list jsstring :=
  match s with
  | [] => [[]]
  | c :: s' =>
      if (c =? sep)%N then [] :: split sep s'
      else
        match split sep s' with
        | piece :: pieces => (c :: piece) :: pieces
        | [] => [[c]]
        end
  end.

(** [pieces.join(sep)] for a separator of one code unit. *)
Fixpoint join (sep : N) (pieces : list jsstring) : jsstring :=
  match pieces with
  | [] => []
  | [piece] => piece
  | piece :: pieces' => piece ++ sep :: join sep pieces'
  end.

(** [s.replace(pattern, '')] for a string pattern: the first occurrence of
    [pattern] is taken out. *)
Fixpoint replaceFirst (pattern s : jsstring) : jsstring :=
  if startsWith s pattern then drop (length pattern) s
  else
    match s with
    | [] => []
    | c :: s' => c :: replaceFirst pattern s'
    end.

(** [parts.slice(1, -1)] *)
Definition sliceInner (parts : list jsstring) : list jsstring :=
  drop 1 (take (length parts - 1) parts).

End JSText.

Import JSNumber.

(** ** Embed and UI helpers *)

(** [formatUser] *)
Definition formatUser (userId : option jsstring) : jsstring :=
  match userId with
  | None | Some [] => str "_Vacant_"                    (* !userId *)
  | Some u =>
      if startsWith u (str "IGN:")
      then str "**" ++ JSText.replaceFirst (str "IGN:") u ++ str "** (External)"
      else str "<@" ++ u ++ str ">"
  end.

(** [COLORS] *)
Definition COLORS_success : Z := 0x57f287.
Definition COLORS_danger : Z := 0xed4245.

(** The parts of [createPartyEmbed] that are made from the roster.  (The
    title and the footer, which are made from [party.type] and from the
    locale's rendering of [createdAt], are left out.) *)
Definition filledCount (party : Party) : Z :=
  Z.of_nat (length (filter (fun s => vacant s = false) (slots party))).

Definition slotLines (party : Party) : list jsstring :=
  imap (fun index slot =>
          str "`" ++ toString (Z.of_nat index + 1) ++ str "` **"
            ++ role slot ++ str "**: " ++ formatUser (user slot))
       (slots party).

Definition isFull (party : Party) : bool :=
  bool_decide (filledCount party = maxSize party).

Record Embed := {
  description : jsstring;
  color : Z;
  rosterStatus : jsstring          (* the field 'Roster Status' *)
}.

(** [createPartyEmbed] *)
Definition createPartyEmbed (party : Party) : Embed :=
  {| description :=
       str "**Leader:** " ++ formatUser (Some (leader party))
         ++ [10%N; 10%N] ++ JSText.join 10 (slotLines party);
     color := if isFull party then COLORS_danger else COLORS_success;
     rosterStatus :=
       toString (filledCount party) ++ str " / "
         ++ toString (maxSize party) |}.

(** The name of a button action, as it stands in a customId. *)
Definition actionName (a : ButtonAction) : jsstring :=
  match a with
  | join => str "join" | leave => str "leave" | switch => str "switch"
  | ping => str "ping" | external => str "external" | kick => str "kick"
  | promote => str "promote" | disband => str "disband"
  end.

(** [createPartyButtons], by the customIds of the buttons: the first row,
    then the second. *)
Definition createPartyButtons (partyId : jsstring) : list jsstring :=
  (fun a => actionName a ++ str "_" ++ partyId)
    <$> [join; leave; switch; ping; external; kick; promote; disband].

(** The customId a handler gives to the menu or modal it answers with
    (lines 450, 497, 543, 570, 603 and 765). *)
Definition componentId (r : Reply) (partyId : jsstring) : option jsstring :=
  match r with
  | ChooseRole _ => Some (str "pick_" ++ partyId)
  | ChooseNewRole _ => Some (str "switchpick_" ++ partyId)
  | ChooseReserved _ => Some (str "externalrole_" ++ partyId)
  | ChooseKicked _ => Some (str "kickpick_" ++ partyId)
  | ChooseLeader _ => Some (str "promotepick_" ++ partyId)
  | AskIgn roleIdx =>
      Some (str "externalign_" ++ partyId ++ str "_" ++ toString roleIdx)
  | _ => None
  end.

(** The values of the options of a menu: [s.i.toString()], and [s.user]
    in the promote menu. *)
Definition optionValues (r : Reply) : list jsstring :=
  match r with
  | ChooseRole options | ChooseNewRole options | ChooseReserved options
  | ChooseKicked options => toString <$> options
  | ChooseLeader options => options
  | _ => []
  end.

(** ** Slash command: /formparty *)

(** [handleFormParty], by the values of the options of its menu:
    [Object.keys(RUN_CONFIGS)]. *)
Definition handleFormParty : list jsstring := fst <$> RUN_CONFIGS_table.

(** ** Event handler: from the raw interaction to its branch *)

Inductive Component := ButtonComponent | StringSelectMenu | ModalSubmit.

(** An interaction as the platform delivers it.  A select menu of the bot
    takes one value, [values[0]]; a modal carries the text of [ign_input]. *)
Record Incoming := {
  component : Component;
  customId : jsstring;
  value0 : jsstring;
  user_id : jsstring;
  ign_input : jsstring
}.

(** [action as ButtonAction], for the strings the [switch] at line 665
    knows. *)
Definition buttonAction (s : jsstring) : option ButtonAction :=
  find (fun a => bool_decide (actionName a = s))
       [join; leave; switch; ping; external; kick; promote; disband].

(** [parseInt] of a slot value.  [NaN] indexes no slot, and neither does
    -1, which stands for it here. *)
Definition slotValue (s : jsstring) : Z := default (-1) (parseInt s).

Inductive Routed :=
| ToRunSelection (type_ userId : jsstring)      (* handleRunSelection *)
| ToParty (i : Interaction)
| StrayButton (partyId : jsstring)   (* a button no case of the switch takes *)
| Unhandled.

(** The tests of [interactionCreate] on the kind and the customId of an
    interaction (lines 649 to 854), and what they take out of the customId. *)
Definition route (x : Incoming) : Routed :=
  match component x with
  | ButtonComponent =>
      match JSText.split 95 (customId x) with
      | action :: rest =>
          let partyId := JSText.join 95 rest in
          match buttonAction action with
          | Some a => ToParty (Button a partyId (user_id x))
          | None => StrayButton partyId
          end
      | [] => Unhandled
      end
  | StringSelectMenu =>
      if bool_decide (customId x = str "select_run")
      then ToRunSelection (value0 x) (user_id x)
      else if startsWith (customId x) (str "pick_")
      then ToParty (Pick (JSText.replaceFirst (str "pick_") (customId x))
                      (user_id x) (slotValue (value0 x)))
      else if startsWith (customId x) (str "switchpick_")
      then ToParty (SwitchPick (JSText.replaceFirst (str "switchpick_") (customId x))
                      (user_id x) (slotValue (value0 x)))
      else if startsWith (customId x) (str "externalrole_")
      then ToParty (ExternalRole
                      (JSText.replaceFirst (str "externalrole_") (customId x))
                      (user_id x) (slotValue (value0 x)))
      else if startsWith (customId x) (str "kickpick_")
      then ToParty (KickPick (JSText.replaceFirst (str "kickpick_") (customId x))
                      (user_id x) (slotValue (value0 x)))
      else if startsWith (customId x) (str "promotepick_")
      then ToParty (PromotePick
                      (JSText.replaceFirst (str "promotepick_") (customId x))
                      (user_id x) (value0 x))
      else Unhandled
  | ModalSubmit =>
      if startsWith (customId x) (str "externalign_")
      then
        let parts := JSText.split 95 (customId x) in
        ToParty (ExternalIgn (JSText.join 95 (JSText.sliceInner parts))
                   (slotValue (default [] (last parts)))
                   (user_id x) (ign_input x))
      else Unhandled
  end.

(** ** More ways to read the state *)

(** The interactions only the leader may make. *)
Definition privileged (i : Interaction) : bool :=
  match i with
  | Button a _ _ =>
      match a with
      | join | leave | switch => false
      | ping | external | kick | promote | disband => true
      end
  | Pick _ _ _ | SwitchPick _ _ _ => false
  | ExternalRole _ _ _ | KickPick _ _ _ | PromotePick _ _ _
  | ExternalIgn _ _ _ _ => true
  end.

(** The interactions that only show a menu, a modal or a ping. *)
Definition showsOnly (i : Interaction) : bool :=
  match i with
  | Button a _ _ =>
      match a with leave | disband => false | _ => true end
  | ExternalRole _ _ _ => true
  | _ => false
  end.

(** What [saveData] writes for the registry [m]. *)
Definition snapshot (m : gmap jsstring Party) : File :=
  Doc (JSON.Arr (entryToJSON <$> map_to_list m)).

(** The file holds what the registry holds. *)
Definition inStep (w : World) : Prop := disk w = snapshot (activeParties w).

(** The same state with a data file that cannot be written. *)
Definition readOnlyDisk (w : World) : World :=
  {| activeParties := activeParties w; disk := disk w; timers := timers w;
     clock := clock w; fs_writable := false |}.

(** [party.maxSize] is the number of slots. *)
Definition sized (p : Party) : Prop := maxSize p = Z.of_nat (length (slots p)).

(** The entries of [partyLocks] are chains, and the promise a suspended
    handler will release is the one it made. *)
Definition chainsOnly (s : EventLoop.Sys) : Prop :=
  (∀ k p, EventLoop.partyLocks s !! k = Some p →
          ∃ a b, p = EventLoop.Chained a b)
  ∧ Forall (fun t => ∀ i r c,
              EventLoop.body t = EventLoop.Handling i r (Some c) →
              ∃ n, c = EventLoop.Current n)
           (EventLoop.tasks s).

(** ** Words for the statements below *)

(** [q] is [p] with other users in its slots, or another leader. *)
Definition reshaped (p q : Party) : Prop :=
  role <$> slots q = role <$> slots p
  ∧ type q = type p ∧ maxSize q = maxSize p
  ∧ createdAt q = createdAt p ∧ messageId q = messageId p.

(** A decimal digit, as a code unit. *)
Definition isDigit (c : N) : Prop := (48 <= c <= 57)%N.

(** [p] and [q] differ at a position that both have. *)
Fixpoint clash (p q : jsstring) : bool :=
  match p, q with
  | c :: p', d :: q' => negb (c =? d)%N || clash p' q'
  | _, _ => false
  end.

(** ** A party to run the handlers on *)

Module Sample.

Definition w0 : World :=
  {| activeParties := ∅; disk := NoFile; timers := [];
     clock := 1793653200123; fs_writable := true |}.

Definition lead : jsstring := str "1001".
Definition m1 : jsstring := str "2001".
Definition m2 : jsstring := str "2002".

(** The id of the party that [lead] creates below. *)
Definition P : jsstring := str "party_6f1c".

(** [lead] has picked BogSC and the party message was posted. *)
Definition w1 : World :=
  snd (handleRunSelection (str "BogSC") lead (str "6f1c")
         (Posted (str "9001") 250) w0).

(** The same selection when the party channel cannot be fetched. *)
Definition wz : World :=
  snd (handleRunSelection (str "BogSC") lead (str "6f1c") ChannelDown w0).

(** The party that [w1] holds at [P]. *)
Definition party1 : Party :=
  withMessageId (str "9001")
    (newParty (str "BogSC") lead BogSC 1793653200123).

(** [m2] has joined [w1] and holds slot 2. *)
Definition w2 : World := snd (pick_ P m2 2 w1).

(** The party that [w2] holds at [P]. *)
Definition party2 : Party := assignSlot 2 (Some m2) party1.

End Sample.

(** * Properties *)

(** ** Strings *)

Lemma trimStart_suffix s :
  ∃ k, s = k ++ trimStart s ∧ forallb isWhiteSpace k = true.
Proof.
  induction s as [|c s [k [IH1 IH2]]]; simpl.
  - by exists [].
  - destruct (isWhiteSpace c) eqn:Hc.
    + exists (c :: k). simpl. rewrite Hc, IH2. split; [by f_equal|done].
    + by exists [].
Qed.

Lemma trimStart_head s c :
  head (trimStart s) = Some c → isWhiteSpace c = false.
Proof.
  induction s as [|d s IH]; simpl; [done|].
  destruct (isWhiteSpace d) eqn:Hd; [done|]. simpl. by intros [= <-].
Qed.

Lemma trimStart_whitespace s :
  forallb isWhiteSpace s = true → trimStart s = [].
Proof.
  induction s as [|d s IH]; simpl; [done|].
  intros [-> ?]%andb_prop. auto.
Qed.

Lemma trimEnd_prefix s : ∃ k, s = trimEnd s ++ k.
Proof.
  unfold trimEnd. destruct (trimStart_suffix (reverse s)) as [k [Hk _]].
  exists (reverse k).
  rewrite <- reverse_app, <- Hk. by rewrite reverse_involutive.
Qed.

Lemma forallb_reverse (f : N → bool) (l : jsstring) :
  forallb f l = true → forallb f (reverse l) = true.
Proof.
  rewrite !forallb_forall. intros H x Hx. apply H.
  by apply list_elem_of_In, elem_of_reverse, list_elem_of_In.
Qed.

Lemma trimEnd_suffix s :
  ∃ k, s = trimEnd s ++ k ∧ forallb isWhiteSpace k = true.
Proof.
  unfold trimEnd. destruct (trimStart_suffix (reverse s)) as [k [Hk Hw]].
  exists (reverse k). split; [|by apply forallb_reverse].
  rewrite <- reverse_app, <- Hk. by rewrite reverse_involutive.
Qed.

(** [trim] takes whitespace off both ends and nothing else. *)
Lemma trim_decomposition s :
  ∃ pre post, s = pre ++ trim s ++ post
              ∧ forallb isWhiteSpace pre = true
              ∧ forallb isWhiteSpace post = true.
Proof.
  destruct (trimStart_suffix s) as (pre & Hpre & Hw1).
  destruct (trimEnd_suffix (trimStart s)) as (post & Hpost & Hw2).
  exists pre, post. unfold trim. by rewrite <- Hpost, <- Hpre.
Qed.

(** A string with a code unit that is not whitespace is not trimmed away. *)
Lemma trim_visible s c : c ∈ s → isWhiteSpace c = false → trim s ≠ [].
Proof.
  intros Hc Hv Ht.
  destruct (trim_decomposition s) as (pre & post & Hs & Hw1 & Hw2).
  rewrite Ht in Hs. simpl in Hs. rewrite Hs in Hc.
  rewrite forallb_forall in Hw1, Hw2.
  apply elem_of_app in Hc as [Hc | Hc]; apply list_elem_of_In in Hc.
  - rewrite (Hw1 c Hc) in Hv. discriminate.
  - rewrite (Hw2 c Hc) in Hv. discriminate.
Qed.

Lemma trim_head s c : head (trim s) = Some c → isWhiteSpace c = false.
Proof.
  unfold trim. destruct (trimEnd_prefix (trimStart s)) as [k Hk].
  intros Hh. apply (trimStart_head s). rewrite Hk.
  by destruct (trimEnd (trimStart s)).
Qed.

Lemma trim_last s c : last (trim s) = Some c → isWhiteSpace c = false.
Proof. unfold trim, trimEnd. rewrite last_reverse. apply trimStart_head. Qed.

Lemma trim_whitespace s : forallb isWhiteSpace s = true → trim s = [].
Proof. intros H. unfold trim. by rewrite (trimStart_whitespace s H). Qed.

Lemma startsWith_prefix p s : startsWith (p ++ s) p = true.
Proof.
  induction p as [|c p IH]; simpl; [by destruct s|]. by rewrite N.eqb_refl.
Qed.

Example trim_keeps_inner_space :
  trim (str "  Bob  the Tank ") = str "Bob  the Tank".
Proof. reflexivity. Qed.

(** ** The roster *)

Lemma slotAt_lookup p i s :
  slotAt p i = Some s → 0 <= i ∧ slots p !! Z.to_nat i = Some s.
Proof. unfold slotAt. case_bool_decide; [done|discriminate]. Qed.

Lemma saveData_parties w : activeParties (saveData w) = activeParties w.
Proof. unfold saveData. by destruct (fs_writable w). Qed.

Lemma saveData_timers w : timers (saveData w) = timers w.
Proof. unfold saveData. by destruct (fs_writable w). Qed.

Lemma saveData_clock w : clock (saveData w) = clock w.
Proof. unfold saveData. by destruct (fs_writable w). Qed.

Lemma saveData_fs w : fs_writable (saveData w) = fs_writable w.
Proof. unfold saveData. by destruct (fs_writable w) eqn:E. Qed.

Lemma saveData_disk w :
  fs_writable w = true →
  disk (saveData w)
  = Doc (JSON.Arr (entryToJSON <$> map_to_list (activeParties w))).
Proof. intros H. unfold saveData. by rewrite H. Qed.

Lemma w1_party : activeParties Sample.w1 !! Sample.P = Some Sample.party1.
Proof. vm_compute. reflexivity. Qed.

Ltac handler_cases := repeat (case_match; simplify_eq/=; try done).

(** C9. Leaving clears every slot the member holds, not the first one only;
    the other slots, the leader and the rest of the party stay; the handler
    answers by showing the roster, with no failure, whether or not the member
    held a slot. *)
Theorem leave_clears_every_slot (w : World) (partyId userId : jsstring)
  (party : Party) :
  activeParties w !! partyId = Some party →
  ∃ party' w',
    button_ leave partyId userId w = (RosterShown, w')
    ∧ failure RosterShown = None
    ∧ activeParties w' = <[partyId := party']> (activeParties w)
    ∧ leader party' = leader party
    ∧ length (slots party') = length (slots party)
    ∧ (∀ i slot, slots party !! i = Some slot →
         slots party' !! i
         = Some (if bool_decide (user slot = Some userId)
                 then {| role := role slot; user := None |} else slot))
    ∧ (∀ slot, slot ∈ slots party' → user slot ≠ Some userId).
Proof.
  intros Hp. unfold button_, handleLeaveAction. rewrite Hp.
  eexists _, _. split; [reflexivity|]. split; [done|].
  rewrite saveData_parties. simpl. split; [reflexivity|]. split; [done|].
  split; [simpl; by rewrite length_fmap|]. simpl. split.
  - intros i slot Hi. rewrite list_lookup_fmap, Hi. simpl. unfold heldBy.
    by case_bool_decide.
  - intros slot [s [-> Hs]]%list_elem_of_fmap. unfold heldBy.
    case_bool_decide; simpl; congruence.
Qed.

Lemma leave_clears_every_slot_witness :
  ∃ party' w',
    button_ leave Sample.P Sample.m1 Sample.w1 = (RosterShown, w')
    ∧ failure RosterShown = None
    ∧ activeParties w' = <[Sample.P := party']> (activeParties Sample.w1)
    ∧ leader party' = leader Sample.party1
    ∧ length (slots party') = length (slots Sample.party1)
    ∧ (∀ i slot, slots Sample.party1 !! i = Some slot →
         slots party' !! i
         = Some (if bool_decide (user slot = Some Sample.m1)
                 then {| role := role slot; user := None |} else slot))
    ∧ (∀ slot, slot ∈ slots party' → user slot ≠ Some Sample.m1).
Proof.
  apply (leave_clears_every_slot Sample.w1 Sample.P Sample.m1 Sample.party1).
  vm_compute. reflexivity.
Defined.

(** A member who holds slots 0 and 1 leaves: both are cleared, and the slot
    of the other member stays. *)
Example leave_clears_both :
  let l := [ Pick Sample.P Sample.m1 0; Pick Sample.P Sample.m1 1;
             Pick Sample.P Sample.m2 2 ] in
  rosterOf Sample.P (snd (interactions l Sample.w1))
  = Some [ Some Sample.m1; Some Sample.m1; Some Sample.m2; None; None; None;
           None; None ]
  ∧ rosterOf Sample.P
      (snd (button_ leave Sample.P Sample.m1 (snd (interactions l Sample.w1))))
    = Some [ None; None; Some Sample.m2; None; None; None; None; None ].
Proof. split; vm_compute; reflexivity. Qed.

(** C10. The modal handler trims the submitted name before it checks that it
    is not empty: a name of whitespace only is refused as empty, and the name
    stored behind the IGN: prefix has no whitespace at either end.  The
    stored name is the submitted one without the whitespace before and
    after it, and a name with a code unit that is not whitespace is
    accepted. *)
Theorem external_name_is_trimmed (w : World) (partyId : jsstring)
  (roleIdx : Z) (userId input : jsstring) (party : Party) (slot : PartySlot) :
  activeParties w !! partyId = Some party →
  userId = leader party →
  slotAt party roleIdx = Some slot →
  user slot = None →
  let ign := trim input in
  (forallb isWhiteSpace input = true → ign = [])
  ∧ (ign = [] →
       externalign_ partyId roleIdx userId input w = (IgnEmpty, w))
  ∧ (ign ≠ [] →
       ∃ party' w',
         externalign_ partyId roleIdx userId input w = (Reserved ign, w')
         ∧ activeParties w' = <[partyId := party']> (activeParties w)
         ∧ slotAt party' roleIdx
           = Some {| role := role slot; user := Some (str "IGN:" ++ ign) |})
  ∧ (∀ c, head ign = Some c → isWhiteSpace c = false)
  ∧ (∀ c, last ign = Some c → isWhiteSpace c = false)
  ∧ (∃ pre post, input = pre ++ ign ++ post
                 ∧ forallb isWhiteSpace pre = true
                 ∧ forallb isWhiteSpace post = true)
  ∧ (∀ c, c ∈ input → isWhiteSpace c = false → ign ≠ []).
Proof.
  intros Hp Hl Hs Hu ign.
  split; [apply trim_whitespace|].
  assert (Hv : vacant slot = true) by (unfold vacant; by rewrite Hu).
  assert (Hld : bool_decide (userId = leader party) = true)
    by (by apply bool_decide_eq_true).
  unfold externalign_. rewrite Hp, Hld, Hs, Hv. simpl. fold ign.
  split; [by intros ->|]. split.
  - intros Hne. destruct ign as [|c ign'] eqn:Hign; [done|]. simpl.
    eexists _, _. split; [reflexivity|]. rewrite saveData_parties. simpl.
    split; [reflexivity|].
    destruct (slotAt_lookup _ _ _ Hs) as [H0 Hlk].
    unfold slotAt. rewrite bool_decide_eq_true_2 by done. simpl.
    by rewrite list_lookup_alter_eq, Hlk.
  - split; [apply trim_head|]. split; [apply trim_last|].
    split; [apply trim_decomposition | apply trim_visible].
Qed.

Lemma external_name_is_trimmed_witness :
  let ign := trim (str "  Bob ") in
  (forallb isWhiteSpace (str "  Bob ") = true → ign = [])
  ∧ (ign = [] →
       externalign_ Sample.P 3 Sample.lead (str "  Bob ") Sample.w1
       = (IgnEmpty, Sample.w1))
  ∧ (ign ≠ [] →
       ∃ party' w',
         externalign_ Sample.P 3 Sample.lead (str "  Bob ") Sample.w1
         = (Reserved ign, w')
         ∧ activeParties w' = <[Sample.P := party']> (activeParties Sample.w1)
         ∧ slotAt party' 3
           = Some {| role := role {| role := str "VoS"; user := None |};
                     user := Some (str "IGN:" ++ ign) |})
  ∧ (∀ c, head ign = Some c → isWhiteSpace c = false)
  ∧ (∀ c, last ign = Some c → isWhiteSpace c = false)
  ∧ (∃ pre post, str "  Bob " = pre ++ ign ++ post
                 ∧ forallb isWhiteSpace pre = true
                 ∧ forallb isWhiteSpace post = true)
  ∧ (∀ c, c ∈ str "  Bob " → isWhiteSpace c = false → ign ≠ []).
Proof.
  apply (external_name_is_trimmed Sample.w1 Sample.P 3 Sample.lead
           (str "  Bob ") Sample.party1 {| role := str "VoS"; user := None |});
    vm_compute; reflexivity.
Defined.

Example whitespace_name_refused :
  fst (externalign_ Sample.P 3 Sample.lead (str "   ") Sample.w1) = IgnEmpty.
Proof. vm_compute. reflexivity. Qed.

Lemma trim_trimmedName input : falsy (trim input) = false → trimmedName (trim input).
Proof.
  intros Hf. split; [by destruct (trim input)|].
  split; [apply trim_head | apply trim_last].
Qed.

Lemma externalsTrimmed_kept (p p' : Party) (u : option jsstring) :
  (∀ s', s' ∈ slots p' →
     user s' = u ∨ ∃ s, s ∈ slots p ∧ user s' = user s) →
  (∀ n, u = Some (str "IGN:" ++ n) → trimmedName n) →
  externalsTrimmed p → externalsTrimmed p'.
Proof.
  intros Hk Hu Hp s' n Hin Hs'.
  destruct (Hk s' Hin) as [E|(s & Hs & E)].
  - apply Hu. congruence.
  - apply (Hp s n Hs). congruence.
Qed.

Lemma assignSlot_elem i u p s' :
  s' ∈ slots (assignSlot i u p) →
  user s' = u ∨ ∃ s, s ∈ slots p ∧ user s' = user s.
Proof.
  intros [j Hj]%list_elem_of_lookup. simpl in Hj.
  rewrite list_lookup_alter in Hj. case_decide.
  - destruct (slots p !! i) as [s|]; simpl in Hj; [|done].
    injection Hj as <-. left. reflexivity.
  - right. exists s'. split; [|done]. apply list_elem_of_lookup. eauto.
Qed.

Lemma externalsTrimmed_assigned i u p :
  (∀ n, u = Some (str "IGN:" ++ n) → trimmedName n) →
  externalsTrimmed p → externalsTrimmed (assignSlot i u p).
Proof.
  intros Hu. apply (externalsTrimmed_kept p _ u); [|done].
  intros s'. apply assignSlot_elem.
Qed.

Lemma member_not_external u n :
  startsWith u (str "IGN:") = false → Some u = Some (str "IGN:" ++ n) →
  trimmedName n.
Proof.
  intros H E. assert (u = str "IGN:" ++ n) as -> by congruence.
  by rewrite startsWith_prefix in H.
Qed.

Lemma worldTrimmed_mutate w partyId p :
  worldTrimmed w → externalsTrimmed p →
  worldTrimmed (saveData (mutate partyId p w)).
Proof.
  intros Hw Hp pid q. rewrite saveData_parties. simpl.
  rewrite lookup_insert. case_decide; [by intros [= <-]|]. apply Hw.
Qed.

Lemma worldTrimmed_evict w partyId :
  worldTrimmed w → worldTrimmed (evict partyId w).
Proof.
  intros Hw pid q. unfold evict. rewrite saveData_parties. simpl.
  rewrite lookup_delete. case_decide; [done|]. apply Hw.
Qed.

(** X1. Every interaction of a Discord user (an id without the IGN: prefix) keeps
    the names of the external occupants trimmed and not empty. *)
Lemma externals_stay_trimmed (i : Interaction) (w : World) :
  worldTrimmed w →
  startsWith (userOf i) (str "IGN:") = false →
  worldTrimmed (snd (interactionCreate i w)).
Proof.
  intros Hw Hm.
  destruct i as [a pid uid | pid uid v | pid uid v | pid uid v | pid uid v
                | pid uid v | pid idx uid input]; simpl in *.
  - unfold button_. destruct (activeParties w !! pid) as [p|] eqn:Hp; [|done].
    destruct a; simpl;
      unfold handleJoinAction, handleSwitchAction, handlePingAction,
        handleExternalAction, handleKickAction, handlePromoteAction,
        handleDisbandAction;
      repeat case_match; simpl; try done.
    + apply worldTrimmed_mutate; [done|].
      apply (externalsTrimmed_kept p _ None); [|done|by apply (Hw pid)].
      simpl. intros s' [s [-> Hs]]%list_elem_of_fmap.
      case_match; simpl; eauto.
    + by apply worldTrimmed_evict.
  - unfold pick_. destruct (activeParties w !! pid) as [p|] eqn:Hp; [|done].
    repeat case_match; simpl; try done.
    apply worldTrimmed_mutate; [done|].
    apply externalsTrimmed_assigned; [|by apply (Hw pid)].
    intros n. by apply member_not_external.
  - unfold switchpick_.
    destruct (activeParties w !! pid) as [p|] eqn:Hp; [|done].
    destruct (findIndex (heldBy uid) (slots p)) as [old|] eqn:Ho; [|done].
    assert (H1 : externalsTrimmed (assignSlot old None p)).
    { apply externalsTrimmed_assigned; [done|by apply (Hw pid)]. }
    destruct (slotAt (assignSlot old None p) v); simpl.
    + apply worldTrimmed_mutate; [done|].
      apply externalsTrimmed_assigned; [|done].
      intros n. by apply member_not_external.
    + intros pid' q. simpl. rewrite lookup_insert.
      case_decide; [by intros [= <-]|]. apply Hw.
  - unfold externalrole_. repeat case_match; done.
  - unfold kickpick_. destruct (activeParties w !! pid) as [p|] eqn:Hp; [|done].
    repeat case_match; simpl; try done.
    apply worldTrimmed_mutate; [done|].
    apply externalsTrimmed_assigned; [done|by apply (Hw pid)].
  - unfold promotepick_.
    destruct (activeParties w !! pid) as [p|] eqn:Hp; [|done].
    repeat case_match; simpl; try done.
    apply worldTrimmed_mutate; [done|]. exact (Hw pid p Hp).
  - unfold externalign_.
    destruct (activeParties w !! pid) as [p|] eqn:Hp; [|done].
    destruct (negb (bool_decide (uid = leader p))); [done|].
    destruct (slotAt p idx) as [s|]; [|done].
    destruct (negb (vacant s)); [done|].
    destruct (falsy (trim input)) eqn:Hf; [done|]. cbn [snd].
    apply worldTrimmed_mutate; [done|].
    apply externalsTrimmed_assigned; [|by apply (Hw pid)].
    intros n E. assert (trim input = n) as <-.
    { apply (app_inv_head (str "IGN:")). congruence. }
    by apply trim_trimmedName.
Qed.

(** The join button refuses a member who holds a slot. *)
Lemma join_refuses_holder (w : World) (partyId userId : jsstring)
  (party : Party) (slot : PartySlot) :
  activeParties w !! partyId = Some party →
  slot ∈ slots party → user slot = Some userId →
  button_ join partyId userId w = (AlreadyHaveRole, w).
Proof.
  intros Hp Hin Hu. unfold button_, handleJoinAction. rewrite Hp.
  assert (existsb (heldBy userId) (slots party) = true) as ->; [|done].
  apply existsb_exists. exists slot. split; [by apply list_elem_of_In|].
  unfold heldBy. by apply bool_decide_eq_true.
Qed.

(** Clearing slots keeps the members unique. *)
Lemma uniqueMembers_cleared (p p' : Party) :
  (∀ i s', slots p' !! i = Some s' →
     ∃ s, slots p !! i = Some s ∧ (user s' = user s ∨ user s' = None)) →
  uniqueMembers p → uniqueMembers p'.
Proof.
  intros Hc Hu id i j s' t' Hid Hi Hj Hs Ht.
  destruct (Hc _ _ Hi) as (s & Hi' & [Es|Es]); [|congruence].
  destruct (Hc _ _ Hj) as (t & Hj' & [Et|Et]); [|congruence].
  apply (Hu id i j s t); congruence.
Qed.

Lemma assignSlot_lookup i u p j :
  slots (assignSlot i u p) !! j
  = if decide (i = j) then setUser u <$> slots p !! j else slots p !! j.
Proof. simpl. rewrite list_lookup_alter. by case_decide; subst. Qed.

(** So does giving a slot to a member who holds no other. *)
Lemma uniqueMembers_assigned (p : Party) (idx : nat) (u : jsstring) :
  uniqueMembers p →
  (startsWith u (str "IGN:") = false →
   ∀ j t, j ≠ idx → slots p !! j = Some t → user t ≠ Some u) →
  uniqueMembers (assignSlot idx (Some u) p).
Proof.
  intros Hu Hfree id i j s t Hid Hi Hj Hs Ht.
  rewrite assignSlot_lookup in Hi, Hj.
  destruct (decide (idx = i)) as [Ei|Hni], (decide (idx = j)) as [Ej|Hnj].
  - congruence.
  - rewrite <- Ei in Hi.
    destruct (slots p !! idx) as [s0|] eqn:E; [|done]. simpl in Hi.
    injection Hi as <-. simpl in Hs. injection Hs as <-.
    exfalso. apply (Hfree Hid j t); [congruence|done..].
  - rewrite <- Ej in Hj.
    destruct (slots p !! idx) as [t0|] eqn:E; [|done]. simpl in Hj.
    injection Hj as <-. simpl in Ht. injection Ht as <-.
    exfalso. apply (Hfree Hid i s); [congruence|done..].
  - by apply (Hu id i j s t).
Qed.

Lemma uniqueMembers_vacated (p : Party) (idx : nat) :
  uniqueMembers p → uniqueMembers (assignSlot idx None p).
Proof.
  apply uniqueMembers_cleared. intros i s'. rewrite assignSlot_lookup.
  case_decide; [|eauto].
  destruct (slots p !! i) as [s|]; [|done]. simpl. intros [= <-]. eauto.
Qed.

Lemma findIndex_Some keep l i :
  findIndex keep l = Some i → ∃ s, l !! i = Some s ∧ keep s = true.
Proof.
  revert i. induction l as [|s l IH]; intros i; simpl; [done|].
  destruct (keep s) eqn:Hk.
  - intros [= <-]. eauto.
  - destruct (findIndex keep l) as [k|]; [|done]. simpl. intros [= <-].
    apply (IH k eq_refl).
Qed.

Lemma worldUnique_mutate w partyId p :
  worldUnique w → uniqueMembers p → worldUnique (saveData (mutate partyId p w)).
Proof.
  intros Hw Hp pid q. rewrite saveData_parties. simpl.
  rewrite lookup_insert. case_decide; [by intros [= <-]|]. apply Hw.
Qed.

Lemma worldUnique_evict w partyId :
  worldUnique w → worldUnique (evict partyId w).
Proof.
  intros Hw pid q. unfold evict. rewrite saveData_parties. simpl.
  rewrite lookup_delete. case_decide; [done|]. apply Hw.
Qed.

(** X2. Every interaction keeps the members of every party in at most one slot
    each, but for a pick by a member who holds a slot already. *)
Lemma uniqueness_preserved (i : Interaction) (w : World) :
  worldUnique w →
  (∀ partyId u v p,
     i = Pick partyId u v → activeParties w !! partyId = Some p →
     ¬ holdsSlot u p) →
  worldUnique (snd (interactionCreate i w)).
Proof.
  intros Hw Hpick.
  destruct i as [a pid uid | pid uid v | pid uid v | pid uid v | pid uid v
                | pid uid v | pid idx uid input]; simpl.
  - unfold button_. destruct (activeParties w !! pid) as [p|] eqn:Hp; [|done].
    destruct a; simpl;
      unfold handleJoinAction, handleSwitchAction, handlePingAction,
        handleExternalAction, handleKickAction, handlePromoteAction,
        handleDisbandAction;
      repeat case_match; simpl; try done.
    + apply worldUnique_mutate; [done|].
      apply (uniqueMembers_cleared p); [|by apply (Hw pid)].
      simpl. intros i s'. rewrite list_lookup_fmap.
      destruct (slots p !! i) as [s|]; [|done]. simpl. intros [= <-].
      exists s. split; [done|]. case_match; simpl; auto.
    + by apply worldUnique_evict.
  - unfold pick_. destruct (activeParties w !! pid) as [p|] eqn:Hp; [|done].
    destruct (slotAt p v) as [s|] eqn:Hs; [|done].
    destruct (vacant s) eqn:Hv; simpl; [|done].
    apply worldUnique_mutate; [done|].
    apply uniqueMembers_assigned; [by apply (Hw pid)|].
    intros _ j t _ Hj Ht. apply (Hpick pid uid v p eq_refl Hp).
    exists t. split; [|done]. apply list_elem_of_lookup. eauto.
  - unfold switchpick_.
    destruct (activeParties w !! pid) as [p|] eqn:Hp; [|done].
    destruct (findIndex (heldBy uid) (slots p)) as [old|] eqn:Ho; [|done].
    pose proof (uniqueMembers_vacated p old (Hw pid p Hp)) as Hu1.
    assert (Hu2 : uniqueMembers
                    (assignSlot (Z.to_nat v) (Some uid)
                       (assignSlot old None p))).
    { apply uniqueMembers_assigned; [done|].
      intros Hid j t _ Hj Ht. rewrite assignSlot_lookup in Hj.
      destruct (findIndex_Some _ _ _ Ho) as (s0 & Hs0 & Hh).
      apply bool_decide_eq_true in Hh.
      destruct (decide (old = j)) as [->|Hne].
      - rewrite Hs0 in Hj. simpl in Hj. injection Hj as <-. done.
      - apply Hne. by apply (Hw pid p Hp uid old j s0 t). }
    destruct (slotAt (assignSlot old None p) v); simpl.
    + by apply worldUnique_mutate.
    + intros pid' q. simpl. rewrite lookup_insert.
      case_decide; [by intros [= <-]|]. apply Hw.
  - unfold externalrole_. repeat case_match; done.
  - unfold kickpick_. destruct (activeParties w !! pid) as [p|] eqn:Hp; [|done].
    repeat case_match; simpl; try done.
    apply worldUnique_mutate; [done|].
    by apply uniqueMembers_vacated, (Hw pid).
  - unfold promotepick_.
    destruct (activeParties w !! pid) as [p|] eqn:Hp; [|done].
    repeat case_match; simpl; try done.
    apply worldUnique_mutate; [done|]. exact (Hw pid p Hp).
  - unfold externalign_.
    destruct (activeParties w !! pid) as [p|] eqn:Hp; [|done].
    destruct (negb (bool_decide (uid = leader p))); [done|].
    destruct (slotAt p idx) as [s|]; [|done].
    destruct (negb (vacant s)); [done|].
    destruct (falsy (trim input)); [done|]. cbn [snd].
    apply worldUnique_mutate; [done|].
    apply uniqueMembers_assigned; [by apply (Hw pid)|].
    intros Hid. by rewrite startsWith_prefix in Hid.
Qed.

(** C2. The member 2001 presses the join button twice before choosing, which
    shows the role menu twice, and then chooses slot 0 in the first menu and
    slot 1 in the second: pick_ checks that the slot is free and not that
    the member has no slot (handleJoinAction does), so both choices are
    confirmed and the member holds two slots. *)
Theorem pick_assigns_second_slot :
  let l := [ Button join Sample.P Sample.m1; Button join Sample.P Sample.m1;
             Pick Sample.P Sample.m1 0; Pick Sample.P Sample.m1 1 ] in
  fst (interactions l Sample.w1)
  = [ ChooseRole [0; 1; 2; 3; 4; 5; 6; 7]; ChooseRole [0; 1; 2; 3; 4; 5; 6; 7];
      RoleConfirmed; RoleConfirmed ]
  ∧ rosterOf Sample.P (snd (interactions l Sample.w1))
    = Some [ Some Sample.m1; Some Sample.m1; None; None; None; None; None;
             None ].
Proof. split; vm_compute; reflexivity. Qed.

(** C3. The member 2001 holds slot 0 and opens the switch menu while slot 1
    is free; the member 2002 then claims slot 1; 2001 chooses slot 1 in the
    menu shown before.  switchpick_ does not look at the target slot (pick_
    does): the switch is confirmed, 2002 is overwritten and holds no slot. *)
Theorem switch_overwrites_taken_slot :
  let l := [ Button join Sample.P Sample.m1; Pick Sample.P Sample.m1 0;
             Button switch Sample.P Sample.m1;
             Button join Sample.P Sample.m2; Pick Sample.P Sample.m2 1 ] in
  fst (interactions l Sample.w1)
  = [ ChooseRole [0; 1; 2; 3; 4; 5; 6; 7]; RoleConfirmed;
      ChooseNewRole [0; 1; 2; 3; 4; 5; 6; 7];
      ChooseRole [1; 2; 3; 4; 5; 6; 7]; RoleConfirmed ]
  ∧ rosterOf Sample.P (snd (interactions l Sample.w1))
    = Some [ Some Sample.m1; Some Sample.m2; None; None; None; None; None;
             None ]
  ∧ fst (switchpick_ Sample.P Sample.m1 1 (snd (interactions l Sample.w1)))
    = RoleSwitched
  ∧ rosterOf Sample.P
      (snd (switchpick_ Sample.P Sample.m1 1 (snd (interactions l Sample.w1))))
    = Some [ None; Some Sample.m1; None; None; None; None; None; None ].
Proof. repeat split; vm_compute; reflexivity. Qed.

(** What a switch does when it goes through: the old slot is cleared and the
    target is given to the member, and the registry is saved. *)
Lemma switchpick_swaps (w : World) (partyId userId : jsstring) (newIdx : Z)
  (party : Party) (oldIdx : nat) (target : PartySlot) :
  activeParties w !! partyId = Some party →
  findIndex (heldBy userId) (slots party) = Some oldIdx →
  slotAt party newIdx = Some target →
  switchpick_ partyId userId newIdx w
  = (RoleSwitched,
     saveData (mutate partyId
                 (assignSlot (Z.to_nat newIdx) (Some userId)
                    (assignSlot oldIdx None party)) w)).
Proof.
  intros Hp Ho Ht. unfold switchpick_. rewrite Hp, Ho.
  destruct (slotAt_lookup _ _ _ Ht) as [H0 Hlk].
  assert (is_Some (slotAt (assignSlot oldIdx None party) newIdx)) as [s ->];
    [|done].
  unfold slotAt. rewrite bool_decide_eq_true_2 by done. simpl.
  apply lookup_lt_is_Some. rewrite length_alter.
  by apply lookup_lt_is_Some.
Qed.

(** A target index that holds no slot (no menu of the bot offers one): the
    old slot is cleared in memory before the read of the missing slot
    throws, and nothing is saved. *)
Example switch_to_missing_slot :
  let w := snd (pick_ Sample.P Sample.m1 0 Sample.w1) in
  fst (switchpick_ Sample.P Sample.m1 8 w) = Thrown
  ∧ rosterOf Sample.P (snd (switchpick_ Sample.P Sample.m1 8 w))
    = Some [ None; None; None; None; None; None; None; None ]
  ∧ disk (snd (switchpick_ Sample.P Sample.m1 8 w)) = disk w.
Proof. repeat split; vm_compute; reflexivity. Qed.

(** The promotepick_ branch on a party in which nobody holds a slot: the
    leader's choice of the member 2002 is accepted all the same. *)
Lemma promote_accepts_absent_member :
  activeParties Sample.w1 !! Sample.P = Some Sample.party1
  ∧ leader Sample.party1 = Sample.lead
  ∧ ¬ memberOccupant Sample.m2 Sample.party1
  ∧ fst (promotepick_ Sample.P Sample.lead Sample.m2 Sample.w1)
    = Promoted Sample.m2
  ∧ failure (fst (promotepick_ Sample.P Sample.lead Sample.m2 Sample.w1))
    ≠ Some InvalidTarget
  ∧ leader <$> activeParties
                 (snd (promotepick_ Sample.P Sample.lead Sample.m2 Sample.w1))
               !! Sample.P
    = Some Sample.m2.
Proof.
  split; [vm_compute; reflexivity|]. split; [reflexivity|]. split.
  - intros [slot [Hin [Hu _]]]. revert Hin Hu. cbn.
    rewrite !elem_of_cons, elem_of_nil. intros H Hu. 
    repeat destruct H as [-> | H]; try discriminate Hu. done.
  - repeat split; vm_compute; (reflexivity || discriminate).
Qed.

(** C8. Member 2002 holds a slot when the leader opens the promote menu,
    which offers 2002 and nobody else; 2002 leaves; the leader then chooses
    2002 in the menu.  At that point nobody holds a slot of the party, so
    that 2002 is not a Member-variant occupant of it, and the claim has the
    promotion fail with InvalidTarget.  The promotepick_ branch looks at the
    IGN: prefix only: it answers 'Promoted ...', no failure, and 2002 leads
    a party in which 2002 holds no slot.  [handlePromoteAction] does look
    at who holds a slot when it builds the menu. *)
Theorem promote_after_leave :
  let shown := [ Button join Sample.P Sample.m2; Pick Sample.P Sample.m2 2;
                 Button promote Sample.P Sample.lead;
                 Button leave Sample.P Sample.m2 ] in
  let w := snd (interactions shown Sample.w1) in
  fst (interactions shown Sample.w1)
  = [ ChooseRole [0; 1; 2; 3; 4; 5; 6; 7]; RoleConfirmed;
      ChooseLeader [Sample.m2]; RosterShown ]
  ∧ rosterOf Sample.P w
    = Some [ None; None; None; None; None; None; None; None ]
  ∧ leader <$> activeParties w !! Sample.P = Some Sample.lead
  ∧ fst (promotepick_ Sample.P Sample.lead Sample.m2 w) = Promoted Sample.m2
  ∧ failure (fst (promotepick_ Sample.P Sample.lead Sample.m2 w)) = None
  ∧ leader <$> activeParties
                 (snd (promotepick_ Sample.P Sample.lead Sample.m2 w))
               !! Sample.P
    = Some Sample.m2
  ∧ rosterOf Sample.P (snd (promotepick_ Sample.P Sample.lead Sample.m2 w))
    = Some [ None; None; None; None; None; None; None; None ]
  ∧ fst (button_ promote Sample.P Sample.lead w) = NoOneToPromote.
Proof. repeat split; vm_compute; reflexivity. Qed.

(** What promotepick_ does for the leader: it looks at the prefix of the
    chosen id and at nothing else. *)
Lemma promotepick_by_leader (w : World) (partyId newLeaderId : jsstring)
  (party : Party) :
  activeParties w !! partyId = Some party →
  promotepick_ partyId (leader party) newLeaderId w
  = if startsWith newLeaderId (str "IGN:") then (CannotPromoteExternal, w)
    else (Promoted newLeaderId,
          saveData (mutate partyId (withLeader newLeaderId party) w)).
Proof.
  intros Hp. unfold promotepick_. rewrite Hp.
  by rewrite bool_decide_eq_true_2 by done.
Qed.

(** What promotepick_ checks.  A promotion asked by someone other than the
    leader is refused
    (NotLeader); asked by the leader for an external occupant, or for any id
    with the IGN: prefix under which external occupants are stored, it is
    refused (InvalidTarget); asked by the leader for a member who holds a
    slot, it makes that member the leader and leaves the slots as they are,
    so that the new leader need not keep a slot afterwards. *)
Theorem promote_checks (w : World) (partyId userId newLeaderId : jsstring)
  (party : Party) :
  activeParties w !! partyId = Some party →
  (userId ≠ leader party →
     promotepick_ partyId userId newLeaderId w = (OnlyLeader, w)
     ∧ failure OnlyLeader = Some NotLeader)
  ∧ (userId = leader party →
     ∀ slot, slot ∈ slots party → user slot = Some newLeaderId →
     discordUser slot = false →
     promotepick_ partyId userId newLeaderId w = (CannotPromoteExternal, w)
     ∧ failure CannotPromoteExternal = Some InvalidTarget)
  ∧ (userId = leader party →
     startsWith newLeaderId (str "IGN:") = true →
     promotepick_ partyId userId newLeaderId w = (CannotPromoteExternal, w))
  ∧ (userId = leader party →
     memberOccupant newLeaderId party →
     ∃ party' w',
       promotepick_ partyId userId newLeaderId w = (Promoted newLeaderId, w')
       ∧ failure (Promoted newLeaderId) = None
       ∧ activeParties w' = <[partyId := party']> (activeParties w)
       ∧ leader party' = newLeaderId
       ∧ slots party' = slots party).
Proof.
  intros Hp. split; [|split; [|split]].
  - intros Hne. unfold promotepick_. rewrite Hp.
    by rewrite bool_decide_eq_false_2.
  - intros -> slot _ Hu Hd. rewrite promotepick_by_leader by done.
    unfold discordUser in Hd. rewrite Hu in Hd.
    apply negb_false_iff in Hd. by rewrite Hd.
  - intros -> Hs. rewrite promotepick_by_leader by done. by rewrite Hs.
  - intros -> (slot & _ & _ & Hs). rewrite promotepick_by_leader by done.
    rewrite Hs. eexists _, _. split; [reflexivity|].
    rewrite saveData_parties. by repeat split.
Qed.

Lemma promote_checks_witness :
  memberOccupant Sample.m2 Sample.party2
  ∧ ∃ party' w',
      promotepick_ Sample.P Sample.lead Sample.m2 Sample.w2
      = (Promoted Sample.m2, w')
      ∧ failure (Promoted Sample.m2) = None
      ∧ activeParties w' = <[Sample.P := party']> (activeParties Sample.w2)
      ∧ leader party' = Sample.m2
      ∧ slots party' = slots Sample.party2.
Proof.
  assert (Hm : memberOccupant Sample.m2 Sample.party2).
  { exists {| role := str "Paragon"; user := Some Sample.m2 |}.
    split; [|split; vm_compute; reflexivity].
    apply list_elem_of_lookup. exists 2%nat. vm_compute. reflexivity. }
  split; [exact Hm|].
  destruct (promote_checks Sample.w2 Sample.P Sample.lead Sample.m2
              Sample.party2) as (_ & _ & _ & H).
  - vm_compute. reflexivity.
  - apply H; [reflexivity | exact Hm].
Defined.

(** The leader reserves slot 3 for Bob and then tries to promote that
    occupant. *)
Example promote_external_refused :
  let l := [ Button external Sample.P Sample.lead;
             ExternalRole Sample.P Sample.lead 3;
             ExternalIgn Sample.P 3 Sample.lead (str "Bob");
             PromotePick Sample.P Sample.lead (str "IGN:Bob") ] in
  fst (interactions l Sample.w1)
  = [ ChooseReserved [0; 1; 2; 3; 4; 5; 6; 7]; AskIgn 3; Reserved (str "Bob");
      CannotPromoteExternal ]
  ∧ rosterOf Sample.P (snd (interactions l Sample.w1))
    = Some [ None; None; None; Some (str "IGN:Bob"); None; None; None; None ].
Proof. split; vm_compute; reflexivity. Qed.

(** X3. A handler that throws has not touched the state either, but for the
    switch to an index that holds no slot. *)
Lemma thrown_leaves_state (i : Interaction) (w : World) :
  fst (interactionCreate i w) = Thrown →
  (∀ partyId userId value, i ≠ SwitchPick partyId userId value) →
  snd (interactionCreate i w) = w.
Proof.
  destruct i as [a pid uid | | | | | |]; simpl;
    [ unfold button_, handleLeaveAction, handleJoinAction,
        handleDisbandAction, handleSwitchAction, handlePingAction,
        handleExternalAction, handleKickAction, handlePromoteAction
    | unfold pick_ | intros _ H; by destruct (H partyId userId value)
    | unfold externalrole_ | unfold kickpick_ | unfold promotepick_
    | unfold externalign_ ];
    intros H1 H2; revert H1; handler_cases.
Qed.

(** The checks that the handlers do make come before their first write: a
    handler that refuses for a precondition it has checked has not touched
    the state; the registry (every roster and leader in it), the data file
    and the timers are what they were.  Creation throws before it touches
    the registry when the run type is not known; [lockParty] on an id that
    is not in the registry does nothing. *)
Lemma checked_failure_leaves_state (w : World) :
  (∀ i e,
     failure (fst (interactionCreate i w)) = Some e →
     e ≠ Unexpected →
     snd (interactionCreate i w) = w)
  ∧ (∀ type_ userId uuid env,
       RUN_CONFIGS type_ = None →
       handleRunSelection type_ userId uuid env w = (Thrown, w))
  ∧ (∀ partyId env,
       activeParties w !! partyId = None → lockParty partyId env w = w).
Proof.
  split; [|split].
  - intros i e.
    destruct i as [a pid uid | | | | | |]; simpl;
      [ unfold button_, handleLeaveAction, handleJoinAction,
          handleDisbandAction, handleSwitchAction, handlePingAction,
          handleExternalAction, handleKickAction, handlePromoteAction
      | unfold pick_ | unfold switchpick_ | unfold externalrole_
      | unfold kickpick_ | unfold promotepick_ | unfold externalign_ ];
      intros H1 H2; revert H1 H2; handler_cases;
      intros [= <-] Hne; by destruct Hne.
  - intros type_ userId uuid env Hc. unfold handleRunSelection.
    by rewrite Hc.
  - intros partyId env Hp. unfold lockParty, lockable. by rewrite Hp.
Qed.

Example kick_by_member_refused :
  failure (fst (interactionCreate (KickPick Sample.P Sample.m1 0) Sample.w1))
  = Some NotLeader
  ∧ snd (interactionCreate (KickPick Sample.P Sample.m1 0) Sample.w1)
    = Sample.w1.
Proof.
  assert (H : failure (fst (interactionCreate
                              (KickPick Sample.P Sample.m1 0) Sample.w1))
              = Some NotLeader) by (vm_compute; reflexivity).
  split; [exact H|].
  apply (proj1 (checked_failure_leaves_state Sample.w1) _ _ H). discriminate.
Qed.

(** C4. Requests whose precondition does not hold and that are carried out
    all the same, and requests that are refused after the registry was
    written.

    Member 2001 holds slot 0 and picks slot 1 from a second role menu:
    the precondition of a claim (the member holds no slot) does not hold,
    the answer is no failure and the roster has changed.  Member 2002 has
    taken slot 1 and member 2001 switches to it from a menu shown before:
    the precondition of a switch (the target is not held by another) does
    not hold, the answer is no failure and 2002 has lost the slot.  The
    join button and pick_ do make these checks.

    A run is selected while the party channel cannot be fetched: the
    answer is the failure notice, and the registry holds a party it did
    not hold before, which is not in the file.  A switch to an index that
    holds no slot answers with the error notice after it has cleared the
    slot the member held. *)
Theorem unmet_precondition_changes_state :
  let wa := snd (pick_ Sample.P Sample.m1 0 Sample.w1) in
  let wb := snd (pick_ Sample.P Sample.m2 1 wa) in
  (rosterOf Sample.P wa
   = Some [ Some Sample.m1; None; None; None; None; None; None; None ]
   ∧ failure (fst (pick_ Sample.P Sample.m1 1 wa)) = None
   ∧ rosterOf Sample.P (snd (pick_ Sample.P Sample.m1 1 wa))
     = Some [ Some Sample.m1; Some Sample.m1; None; None; None; None; None;
              None ]
   ∧ failure (fst (button_ join Sample.P Sample.m1 wa))
     = Some AlreadyAssigned)
  ∧ (rosterOf Sample.P wb
     = Some [ Some Sample.m1; Some Sample.m2; None; None; None; None; None;
              None ]
     ∧ failure (fst (switchpick_ Sample.P Sample.m1 1 wb)) = None
     ∧ rosterOf Sample.P (snd (switchpick_ Sample.P Sample.m1 1 wb))
       = Some [ None; Some Sample.m1; None; None; None; None; None; None ]
     ∧ failure (fst (pick_ Sample.P Sample.m1 1 wb)) = Some SlotTaken)
  ∧ (failure (fst (handleRunSelection (str "BogSC") Sample.lead (str "6f1c")
                     ChannelDown Sample.w0))
     = Some Unexpected
     ∧ activeParties Sample.w0 !! Sample.P = None
     ∧ rosterOf Sample.P Sample.wz
       = Some [ None; None; None; None; None; None; None; None ]
     ∧ disk Sample.wz = disk Sample.w0
     ∧ timers Sample.wz = timers Sample.w0)
  ∧ (failure (fst (switchpick_ Sample.P Sample.m1 8 wa)) = Some Unexpected
     ∧ rosterOf Sample.P (snd (switchpick_ Sample.P Sample.m1 8 wa))
       = Some [ None; None; None; None; None; None; None; None ]
     ∧ disk (snd (switchpick_ Sample.P Sample.m1 8 wa)) = disk wa).
Proof. repeat split; vm_compute; reflexivity. Qed.

(** ** Dates: what [toISOString] writes, the [Date] constructor reads back *)

Section DateRoundTrip.
Import JSDate.

Ltac bools :=
  repeat match goal with
    | H : (_ <? _) = true |- _ => apply Z.ltb_lt in H
    | H : (_ <? _) = false |- _ => apply Z.ltb_ge in H
    | H : (_ <=? _) = true |- _ => apply Z.leb_le in H
    | H : (_ <=? _) = false |- _ => apply Z.leb_gt in H
    | H : (_ =? _) = true |- _ => apply Z.eqb_eq in H
    | H : (_ =? _) = false |- _ => apply Z.eqb_neq in H
    | H : _ && _ = true |- _ => apply andb_prop in H; destruct H
    | H : _ && _ = false |- _ => apply andb_false_iff in H; destruct H
    | H : _ || _ = true |- _ => apply orb_prop in H; destruct H
    | H : _ || _ = false |- _ => apply orb_false_iff in H; destruct H
    | H : negb _ = true |- _ => apply negb_true_iff in H
    | H : negb _ = false |- _ => apply negb_false_iff in H
    end.

Ltac divlia := Z.to_euclidean_division_equations; lia.

Lemma YearFromDay_bounds d :
  DayFromYear (YearFromDay d) <= d < DayFromYear (YearFromDay d + 1).
Proof.
  unfold YearFromDay, DayFromYear. repeat case_match; bools; divlia.
Qed.

Lemma YearFromDay_range d : - 100000000 <= d <= 100000000 → - 999999 <= YearFromDay d <= 999999.
Proof.
  unfold YearFromDay. intros. repeat case_match; divlia.
Qed.

Lemma DaysInYear y :
  DayFromYear (y + 1) - DayFromYear y = 365 + (if InLeapYear y then 1 else 0).
Proof.
  unfold DayFromYear, InLeapYear.
  destruct (y mod 4 =? 0) eqn:H4; destruct (y mod 100 =? 0) eqn:H100;
    destruct (y mod 400 =? 0) eqn:H400; simpl; bools; divlia.
Qed.

Lemma Month_range (leap : bool) (dwy : Z) :
  0 <= dwy < 365 + (if leap then 1 else 0) →
  let m := MonthFromDay leap dwy in
  0 <= m <= 11 ∧ 1 <= dwy - monthStart leap m + 1 <= 31.
Proof.
  intros H. unfold MonthFromDay. destruct leap; simpl in *;
  repeat case_match; bools; simpl; lia.
Qed.

Lemma digits_length w n : length (digits w n) = w.
Proof.
  revert n. induction w as [|w IH]; intros n; simpl; [done|].
  rewrite length_app, IH. simpl. lia.
Qed.

Lemma number_app l1 l2 acc :
  number acc (l1 ++ l2) = number acc l1 ≫= λ a, number a l2.
Proof.
  revert acc. induction l1 as [|c l1 IH]; intros acc; simpl; [done|].
  case_match; [apply IH|done].
Qed.

Lemma number_digits w n acc :
  0 <= n < 10 ^ Z.of_nat w → number acc (digits w n) = Some (acc * 10 ^ Z.of_nat w + n).
Proof.
  revert n acc. induction w as [|w IH]; intros n acc Hn.
  - simpl in *. f_equal. lia.
  - rewrite Nat2Z.inj_succ, Z.pow_succ_r in * by lia. simpl.
    rewrite number_app, IH by divlia. simpl.
    assert (Hd : ((48 <=? Z.to_N (48 + n mod 10)) && (Z.to_N (48 + n mod 10) <=? 57))%N = true).
    { apply andb_true_intro. split; apply N.leb_le; divlia. }
    rewrite Hd. f_equal. rewrite Z2N.id by divlia. divlia.
Qed.

Lemma parseAfterYear_fields y mo dom h mi sec ms t :
  1 <= mo <= 12 → 1 <= dom <= 31 → 0 <= h <= 23 → 0 <= mi <= 59 →
  0 <= sec <= 59 → 0 <= ms <= 999 →
  t = (DayFromYear y + monthStart (InLeapYear y) (mo - 1) + dom - 1)
        * msPerDay + (h * 3600000 + mi * 60000 + sec * 1000 + ms) →
  validTime t →
  parseAfterYear y
    ([45%N] ++ digits 2 mo ++ [45%N] ++ digits 2 dom ++ [84%N] ++ digits 2 h
       ++ [58%N] ++ digits 2 mi ++ [58%N] ++ digits 2 sec ++ [46%N]
       ++ digits 3 ms ++ [90%N])
  = Some t.
Proof.
  intros Hmo Hdom Hh Hmi Hsec Hms Et Ht.
  pose proof (number_digits 2 mo 0 ltac:(simpl; lia)) as E1.
  pose proof (number_digits 2 dom 0 ltac:(simpl; lia)) as E2.
  pose proof (number_digits 2 h 0 ltac:(simpl; lia)) as E3.
  pose proof (number_digits 2 mi 0 ltac:(simpl; lia)) as E4.
  pose proof (number_digits 2 sec 0 ltac:(simpl; lia)) as E5.
  pose proof (number_digits 3 ms 0 ltac:(simpl; lia)) as E6.
  cbn [digits app] in *. unfold parseAfterYear.
  rewrite E1, E2, E3, E4, E5, E6. cbn [mbind option_bind].
  rewrite !Z.mul_0_l, !Z.add_0_l.
  assert ((1 <=? mo) && (mo <=? 12) && (1 <=? dom) && (dom <=? 31)
          && (h <=? 23) && (mi <=? 59) && (sec <=? 59) = true) as ->.
  { repeat (apply andb_true_intro; split); apply Z.leb_le; lia. }
  rewrite <- Et. destruct Ht as [Ht1 Ht2].
  apply Z.leb_le in Ht1, Ht2. by rewrite Ht1, Ht2.
Qed.

Lemma parse_isoYear y rest :
  - 999999 <= y <= 999999 →
  parse (isoYear y ++ rest) = parseAfterYear y rest.
Proof.
  intros Hy. unfold isoYear.
  destruct ((0 <=? y) && (y <=? 9999)) eqn:Hs; bools.
  - pose proof (number_digits 4 y 0 ltac:(simpl; lia)) as E.
    cbn [digits app] in *. unfold parse.
    assert (∀ c, (Z.to_N (48 + c mod 10) =? 43)%N
                 || (Z.to_N (48 + c mod 10) =? 45)%N = false) as ->.
    { intros c. apply orb_false_iff. split; apply N.eqb_neq; divlia. }
    cbn [firstn skipn]. rewrite firstn_O, skipn_O, E. cbn [mbind option_bind].
    by rewrite Z.mul_0_l, Z.add_0_l.
  - pose proof (number_digits 6 (Z.abs y) 0 ltac:(simpl; lia)) as E.
    cbn [digits app] in *. unfold parse.
    destruct (y <? 0) eqn:Hn; bools; cbn [N.eqb Pos.eqb orb firstn skipn];
      rewrite firstn_O, skipn_O, E; cbn [mbind option_bind]; rewrite Z.mul_0_l, Z.add_0_l;
      f_equal; lia.
  - pose proof (number_digits 6 (Z.abs y) 0 ltac:(simpl; lia)) as E.
    cbn [digits app] in *. unfold parse.
    destruct (y <? 0) eqn:Hn; bools; cbn [N.eqb Pos.eqb orb firstn skipn];
      rewrite firstn_O, skipn_O, E; cbn [mbind option_bind]; rewrite Z.mul_0_l, Z.add_0_l;
      f_equal; lia.
Qed.

Lemma parse_toISOString t : validTime t → parse (toISOString t) = Some t.
Proof.
  intros Ht. unfold toISOString.
  set (d := Day t). set (r := TimeWithinDay t). set (y := YearFromDay d).
  set (leap := InLeapYear y). set (dwy := d - DayFromYear y).
  set (m := MonthFromDay leap dwy).
  assert (Hd : - 100000000 <= d <= 100000000).
  { unfold d, Day, msPerDay. unfold validTime, maxTime in Ht. divlia. }
  assert (Hr : 0 <= r < 86400000).
  { unfold r, TimeWithinDay, msPerDay. divlia. }
  assert (Hdr : t = d * 86400000 + r).
  { unfold d, r, Day, TimeWithinDay, msPerDay. divlia. }
  pose proof (YearFromDay_bounds d) as Hb. fold y in Hb.
  pose proof (YearFromDay_range d Hd) as Hy. fold y in Hy.
  pose proof (DaysInYear y) as Hl. fold leap in Hl.
  assert (Hdwy : 0 <= dwy < 365 + (if leap then 1 else 0)) by (unfold dwy; lia).
  destruct (Month_range leap dwy Hdwy) as [Hm Hdom]. fold m in Hm, Hdom.
  rewrite parse_isoYear by done.
  apply parseAfterYear_fields; try done; try lia; try divlia.
  replace (m + 1 - 1) with m by lia. fold leap. unfold msPerDay.
  unfold dwy in *. divlia.
Qed.

End DateRoundTrip.

Example toISOString_epoch :
  JSDate.toISOString 0 = JSString.str "1970-01-01T00:00:00.000Z".
Proof. vm_compute. reflexivity. Qed.

Example toISOString_2026 :
  JSDate.toISOString 1793653200123 = JSString.str "2026-11-02T21:00:00.123Z".
Proof. vm_compute. reflexivity. Qed.

Example toISOString_bc :
  JSDate.toISOString (-62167219200001) = JSString.str "-000001-12-31T23:59:59.999Z".
Proof. vm_compute. reflexivity. Qed.

Example parse_2026 :
  JSDate.parse (JSString.str "2026-11-02T21:00:00.123Z") = Some 1793653200123.
Proof. vm_compute. reflexivity. Qed.

(** ** Persistence: what [saveData] writes, [loadData] reads back *)

Lemma slotFromJSON_toJSON s : slotFromJSON (slotToJSON s) = Some s.
Proof. destruct s as [r [u|]]; reflexivity. Qed.

Lemma slotsFromJSON_toJSON l : slotsFromJSON (slotToJSON <$> l) = Some l.
Proof.
  induction l as [|s l IH]; [done|].
  cbn [fmap list_fmap slotsFromJSON]. rewrite slotFromJSON_toJSON.
  cbn [mbind option_bind]. 
  change (list_fmap PartySlot JSON.value slotToJSON l) with (slotToJSON <$> l).
  by rewrite IH.
Qed.

Lemma party_members_read (a b c d e f : JSON.value) :
  let ms := [ (str "type", a); (str "leader", b); (str "maxSize", c);
              (str "slots", d); (str "createdAt", e) ] in
  (JSON.get (str "type") ms = Some a
   ∧ JSON.get (str "leader") ms = Some b
   ∧ JSON.get (str "maxSize") ms = Some c
   ∧ JSON.get (str "slots") ms = Some d
   ∧ JSON.get (str "createdAt") ms = Some e
   ∧ JSON.get (str "messageId") ms = None)
  ∧ (JSON.get (str "type") (ms ++ [(str "messageId", f)]) = Some a
     ∧ JSON.get (str "leader") (ms ++ [(str "messageId", f)]) = Some b
     ∧ JSON.get (str "maxSize") (ms ++ [(str "messageId", f)]) = Some c
     ∧ JSON.get (str "slots") (ms ++ [(str "messageId", f)]) = Some d
     ∧ JSON.get (str "createdAt") (ms ++ [(str "messageId", f)]) = Some e
     ∧ JSON.get (str "messageId") (ms ++ [(str "messageId", f)]) = Some f).
Proof. repeat split; vm_compute; reflexivity. Qed.

Lemma partyFromJSON_toJSON p :
  JSDate.validTime (createdAt p) → partyFromJSON (partyToJSON p) = Some p.
Proof.
  intros Ht. destruct p as [ty ld n sl t mid]. simpl in Ht.
  unfold partyFromJSON, partyToJSON.
  cbn [type leader maxSize slots createdAt messageId].
  destruct mid as [m|].
  - destruct (party_members_read (JSON.Str ty) (JSON.Str ld) (JSON.Num n)
                (JSON.Arr (slotToJSON <$> sl))
                (JSON.Str (JSDate.toISOString t)) (JSON.Str m))
      as [_ (F1 & F2 & F3 & F4 & F5 & F6)].
    rewrite F1, F2, F3, F4, F5, F6, slotsFromJSON_toJSON.
    cbn [mbind option_bind]. by rewrite parse_toISOString.
  - destruct (party_members_read (JSON.Str ty) (JSON.Str ld) (JSON.Num n)
                (JSON.Arr (slotToJSON <$> sl))
                (JSON.Str (JSDate.toISOString t)) JSON.Null)
      as [(E1 & E2 & E3 & E4 & E5 & E6) _].
    rewrite app_nil_r, E1, E2, E3, E4, E5, E6, slotsFromJSON_toJSON.
    cbn [mbind option_bind]. by rewrite parse_toISOString.
Qed.

Lemma loadEntry_saved w e :
  JSDate.validTime (createdAt (snd e)) →
  loadEntry w (entryToJSON e) = Some (loaded w e).
Proof.
  intros Ht. unfold loadEntry, entryToJSON.
  by rewrite partyFromJSON_toJSON.
Qed.

Lemma forEachEntry_saved l : ∀ w,
  Forall (λ e, JSDate.validTime (createdAt (snd e))) l →
  forEachEntry w (entryToJSON <$> l) = foldl loaded w l.
Proof.
  induction l as [|e l IH]; intros w Hl; [done|].
  apply Forall_cons in Hl as [He Hl].
  cbn [fmap list_fmap forEachEntry foldl]. rewrite loadEntry_saved by done.
  by apply IH.
Qed.

Lemma foldl_loaded_clock l : ∀ w, clock (foldl loaded w l) = clock w.
Proof. induction l as [|e l IH]; intros w; [done|]. simpl. by rewrite IH. Qed.

Lemma foldl_loaded_parties l : ∀ w,
  activeParties (foldl loaded w l)
  = foldl (λ m e, <[fst e := snd e]> m) (activeParties w) l.
Proof. induction l as [|e l IH]; intros w; [done|]. simpl. by rewrite IH. Qed.

Lemma foldl_loaded_timers l : ∀ w,
  timers (foldl loaded w l)
  = timers w ++ ((λ e, (fst e, remainingAt (clock w) (snd e))) <$> l).
Proof.
  induction l as [|e l IH]; intros w; simpl; [by rewrite app_nil_r|].
  rewrite IH. simpl. by rewrite <- app_assoc.
Qed.

Lemma foldl_insert_union (l : list (jsstring * Party)) : ∀ m0 : gmap jsstring Party,
  NoDup (l.*1) →
  foldl (λ m e, <[fst e := snd e]> m) m0 l = list_to_map l ∪ m0.
Proof.
  induction l as [|[k v] l IH]; intros m0 Hnd; simpl.
  - by rewrite (left_id_L ∅ (∪)).
  - apply NoDup_cons in Hnd as [Hk Hnd]. rewrite IH by done.
    rewrite <- insert_union_l. symmetry. apply insert_union_r.
    by apply not_elem_of_list_to_map_1.
Qed.

Lemma foldl_insert_map_to_list (m : gmap jsstring Party) :
  foldl (λ m e, <[fst e := snd e]> m) ∅ (map_to_list m) = m.
Proof.
  rewrite foldl_insert_union by apply NoDup_fst_map_to_list.
  by rewrite (right_id_L ∅ (∪)), list_to_map_to_list.
Qed.

Lemma datesValid_Forall w :
  datesValid w = true →
  Forall (λ e, JSDate.validTime (createdAt (snd e)))
         (map_to_list (activeParties w)).
Proof.
  unfold datesValid. rewrite forallb_forall, Forall_forall.
  intros H e He. apply list_elem_of_In, H in He.
  apply andb_prop in He as [H1 H2]. split; by apply Z.leb_le.
Qed.

Lemma loadData_saved (w : World) (downtime : Z) :
  fs_writable w = true →
  datesValid w = true →
  loadData (restart (tick downtime (saveData w)))
  = foldl loaded (restart (tick downtime (saveData w)))
          (map_to_list (activeParties w)).
Proof.
  intros Hfs Hv. unfold loadData, saveData. rewrite Hfs. simpl.
  apply forEachEntry_saved. by apply datesValid_Forall.
Qed.

(** C5. Saving and then loading in a fresh process gives back the registry:
    the same party ids, each with a record equal to the one saved, the
    [user] of every slot (a member id, an IGN: name or none) and [createdAt]
    to the millisecond included. *)
Theorem save_then_load (w : World) (downtime : Z) :
  fs_writable w = true →
  datesValid w = true →
  activeParties (loadData (restart (tick downtime (saveData w))))
  = activeParties w.
Proof.
  intros Hfs Hv. rewrite loadData_saved by done.
  rewrite foldl_loaded_parties. simpl. apply foldl_insert_map_to_list.
Qed.

Lemma save_then_load_witness :
  activeParties (loadData (restart (tick 60000 (saveData Sample.w1))))
  = activeParties Sample.w1.
Proof.
  apply (save_then_load Sample.w1 60000); vm_compute; reflexivity.
Defined.

(** C6. The timer that [setupLockTimer] arms runs for
    max(0, lockTimeout - (now - createdAt)): it ends at createdAt +
    lockTimeout, or at once when that moment has passed.  At creation the
    delay is the timeout less the time the posting took; after a restart
    [loadData] arms one timer per party of the file, from the [createdAt]
    that was saved and the time of the reload. *)
Theorem lock_timer_delay (partyId : jsstring) (party : Party) (w : World) :
  let delay := Z.max 0 (lockTimeout - (clock w - createdAt party)) in
  timers (setupLockTimer partyId party w) = timers w ++ [(partyId, delay)]
  ∧ lockTimeout = 10800000
  ∧ clock w + delay = Z.max (clock w) (createdAt party + lockTimeout)
  ∧ (createdAt party + lockTimeout <= clock w → delay = 0)
  ∧ (clock w <= createdAt party + lockTimeout →
     clock w + delay = createdAt party + lockTimeout)
  ∧ (∀ type_ userId uuid sentId latency config,
       RUN_CONFIGS type_ = Some config →
       timers (snd (handleRunSelection type_ userId uuid
                      (Posted sentId latency) w))
       = timers w ++ [(str "party_" ++ uuid,
                       Z.max 0 (lockTimeout - latency))])
  ∧ (∀ downtime,
       fs_writable w = true → datesValid w = true →
       timers (loadData (restart (tick downtime (saveData w))))
       = (λ e, (fst e,
                Z.max 0 (lockTimeout
                         - (clock w + downtime - createdAt (snd e)))))
           <$> map_to_list (activeParties w)).
Proof.
  intros delay. split; [done|]. split; [done|]. split; [subst delay; lia|].
  split; [subst delay; lia|]. split; [subst delay; lia|]. split.
  - intros type_ userId uuid sentId latency config Hc.
    unfold handleRunSelection. rewrite Hc. cbv zeta. cbn [snd].
    unfold setupLockTimer. cbn [timers clock]. 
    rewrite saveData_timers, saveData_clock.
    unfold mutate, withParties, tick, newParty. cbn [timers clock createdAt].
    do 3 f_equal. lia.
  - intros downtime Hfs Hv. rewrite loadData_saved by done.
    rewrite foldl_loaded_timers. simpl. unfold saveData. rewrite Hfs. done.
Qed.

Lemma lock_timer_delay_witness :
  timers (loadData (restart (tick 14400000 (saveData Sample.w1))))
  = [(Sample.P, 0)].
Proof.
  destruct (lock_timer_delay Sample.P Sample.party1 Sample.w1)
    as (_ & _ & _ & _ & _ & _ & H).
  rewrite (H 14400000); vm_compute; reflexivity.
Defined.

(** A party posted 250 ms after its creation is locked 3 hours after its
    creation. *)
Example timer_at_creation :
  timers Sample.w1 = [(Sample.P, 10800000 - 250)].
Proof. vm_compute. reflexivity. Qed.

(** ** The lock timer and [lockParty] *)

Lemma evict_parties partyId w :
  activeParties (evict partyId w) = delete partyId (activeParties w).
Proof. unfold evict. by rewrite saveData_parties. Qed.

Lemma lockParty_finish_parties partyId env w :
  activeParties (lockParty_finish partyId env w)
  = delete partyId (activeParties w).
Proof.
  destruct env; simpl; rewrite !evict_parties; try done.
  apply delete_id, lookup_delete_eq.
Qed.

Lemma lockParty_finish_disk partyId env w :
  fs_writable w = true →
  disk (lockParty_finish partyId env w)
  = Doc (JSON.Arr (entryToJSON
                     <$> map_to_list (delete partyId (activeParties w)))).
Proof.
  intros Hfs. destruct env; simpl; unfold evict at 1;
    rewrite saveData_disk; simpl; try done.
  - unfold evict. rewrite saveData_parties. simpl.
    by rewrite delete_id by apply lookup_delete_eq.
  - unfold evict. by rewrite saveData_fs.
Qed.

Lemma lockable_true partyId w :
  lockable partyId w = true ↔
  ∃ party sent, activeParties w !! partyId = Some party
                ∧ messageId party = Some sent ∧ sent ≠ [].
Proof.
  unfold lockable. split.
  - destruct (activeParties w !! partyId) as [party|]; [|done].
    destruct (messageId party) as [[|c sent]|] eqn:Hm; try done.
    intros _. by exists party, (c :: sent).
  - intros (party & sent & -> & -> & Hne). by destruct sent.
Qed.

(** The guard of [lockParty] stops the run for a party without a message
    id. *)
Lemma lockParty_without_message (w : World) (partyId : jsstring)
  (env : LockEnv) (party : Party) :
  activeParties w !! partyId = Some party →
  messageId party = None →
  lockParty partyId env w = w.
Proof. intros Hp Hs. unfold lockParty, lockable. by rewrite Hp, Hs. Qed.

(** [lockParty] on a party of the registry whose message id is set
    removes the party and saves the registry without it, whatever the
    platform calls do and whatever other handlers did to the registry while
    it awaited them; on an id that is not in the registry it does nothing;
    a second run on the same id does nothing. *)
Theorem lockParty_evicts (w : World) (partyId : jsstring) (env : LockEnv) :
  (∀ party sent,
     activeParties w !! partyId = Some party →
     messageId party = Some sent → sent ≠ [] →
     activeParties (lockParty partyId env w)
     = delete partyId (activeParties w)
     ∧ (fs_writable w = true →
        disk (lockParty partyId env w)
        = Doc (JSON.Arr (entryToJSON
                <$> map_to_list (delete partyId (activeParties w))))))
  ∧ (activeParties w !! partyId = None → lockParty partyId env w = w)
  ∧ (∀ env',
       lockParty partyId env' (lockParty partyId env w)
       = lockParty partyId env w)
  ∧ (∀ w', activeParties (lockParty_finish partyId env w') !! partyId = None).
Proof.
  split; [|split; [|split]].
  - intros party sent Hp Hs Hne.
    assert (lockable partyId w = true) as Hl
      by (apply lockable_true; eauto).
    unfold lockParty. rewrite Hl. split.
    + apply lockParty_finish_parties.
    + apply lockParty_finish_disk.
  - intros Hp. unfold lockParty, lockable. by rewrite Hp.
  - intros env'. unfold lockParty at 2 3.
    destruct (lockable partyId w) eqn:Hl.
    + unfold lockParty, lockable.
      by rewrite lockParty_finish_parties, lookup_delete_eq.
    + unfold lockParty. by rewrite Hl.
  - intros w'. by rewrite lockParty_finish_parties, lookup_delete_eq.
Qed.

Lemma lockParty_evicts_witness :
  activeParties (lockParty Sample.P MessageMissing Sample.w1)
  = delete Sample.P (activeParties Sample.w1)
  ∧ (fs_writable Sample.w1 = true →
     disk (lockParty Sample.P MessageMissing Sample.w1)
     = Doc (JSON.Arr (entryToJSON
             <$> map_to_list (delete Sample.P (activeParties Sample.w1))))).
Proof.
  destruct (lockParty_evicts Sample.w1 Sample.P MessageMissing) as [H _].
  apply (H Sample.party1 (str "9001")); [vm_compute; reflexivity..|].
  vm_compute. discriminate.
Defined.

(** C7. A party whose creation stopped at the channel fetch is in the
    registry without a message id.  [lockParty] on it returns at its guard
    (line 181), whatever the platform calls would do: the party stays in
    the registry and nothing is saved, where the claim has the party
    removed and the removal persisted.  Past the guard every way out of
    [lockParty] removes the party, and the disband button removes this
    very party. *)
Theorem lockParty_keeps_party_without_message :
  Sample.wz
  = snd (handleRunSelection (str "BogSC") Sample.lead (str "6f1c")
           ChannelDown Sample.w0)
  ∧ is_Some (activeParties Sample.wz !! Sample.P)
  ∧ (∀ env, lockParty Sample.P env Sample.wz = Sample.wz)
  ∧ (∀ env, is_Some (activeParties (lockParty Sample.P env Sample.wz)
                     !! Sample.P))
  ∧ fst (button_ disband Sample.P Sample.lead Sample.wz) = Disbanded
  ∧ activeParties (snd (button_ disband Sample.P Sample.lead Sample.wz))
    !! Sample.P = None.
Proof.
  assert (H : is_Some (activeParties Sample.wz !! Sample.P)).
  { vm_compute. eauto. }
  assert (Hl : ∀ env, lockParty Sample.P env Sample.wz = Sample.wz).
  { intros env. unfold lockParty.
    assert (lockable Sample.P Sample.wz = false) as ->; [|done].
    vm_compute. reflexivity. }
  split; [reflexivity|]. split; [exact H|]. split; [exact Hl|].
  split; [intros env; by rewrite Hl|].
  split; vm_compute; reflexivity.
Qed.

(** How such a party comes to a timer: the next party that is posted saves
    the whole registry; after a restart, four hours later, [loadData] arms
    a timer for both; both timers fire, and the party without a message id
    stays in the registry. *)
Example party_without_message_outlives_restart :
  let Q := str "party_77aa" in
  let w := snd (handleRunSelection (str "UWSC") Sample.m1 (str "77aa")
                  (Posted (str "9002") 300) Sample.wz) in
  let w' := loadData (restart (tick 14400000 w)) in
  let s := EventLoop.run
             [ EventLoop.Fire Sample.P; EventLoop.Fire Q;
               EventLoop.Settle 1; EventLoop.Settle 1; EventLoop.Settle 1 ]
             (EventLoop.boot w') in
  (timers w' = [(Sample.P, 0); (Q, 0)] ∨ timers w' = [(Q, 0); (Sample.P, 0)])
  ∧ EventLoop.log s
    = [ EventLoop.Began 0; EventLoop.Ended 0 None; EventLoop.Began 1;
        EventLoop.Ended 1 None ]
  ∧ rosterOf Sample.P (EventLoop.world s)
    = Some [ None; None; None; None; None; None; None; None ]
  ∧ rosterOf Q (EventLoop.world s) = None.
Proof.
  split; [vm_compute; auto|]. repeat split; vm_compute; reflexivity.
Qed.

(** ** The event loop *)

Section EventLoopFacts.
Import EventLoop.

Lemma platformCalls_pos r : ∃ k, platformCalls r = S k.
Proof. destruct r; simpl; eauto. Qed.

(** An arriving interaction runs its handler at once, up to the first
    platform call, whatever [partyLocks] holds and whichever tasks are
    suspended: [withPartyLock] stores a chain and does not await it. *)
Lemma arrive_runs_at_once (i : Interaction) (s : Sys) :
  world (arrive i s) = snd (interactionCreate i (world s))
  ∧ log (arrive i s) = log s ++ [Began (arrivals s)]
  ∧ inFlight (arrivals s) (arrive i s) = true.
Proof.
  unfold arrive, inFlight.
  destruct (locked i); cbn [withPartyLock_enter world arrivals log tasks];
    destruct (interactionCreate i (world s)) as [r w'];
    cbn [world arrivals log tasks snd];
    (split; [done|]; split; [done|]);
    apply bool_decide_eq_true; rewrite fmap_app; simpl; set_solver.
Qed.

(** The awaits of a handler come after its last write. *)
Lemma settle_handlers n s :
  handlersOnly s → world (settle n s) = world s ∧ handlersOnly (settle n s).
Proof.
  intros H. unfold settle.
  destruct (find _ (tasks s)) as [t|] eqn:Hf; [|done].
  assert (Ht : ∃ i r c, body t = Handling i r c).
  { apply find_some in Hf as [Hin _]. unfold handlersOnly in H.
    rewrite Forall_forall in H. apply H. by apply list_elem_of_In. }
  destruct Ht as (i & r & c & Hb).
  destruct (calls t) as [|[|k]]; simpl.
  1,2: unfold finish; rewrite Hb; destruct c; simpl;
       (split; [done|]); unfold handlersOnly in *; simpl;
       rewrite Forall_forall in *; intros x [_ Hx]%list_elem_of_filter;
       by apply H.
  split; [done|]. unfold handlersOnly in *. simpl.
  apply Forall_fmap. eapply Forall_impl; [exact H|].
  intros t' Ht'. simpl. case_bool_decide; simpl; eauto.
Qed.

Lemma settles_handlers (l : list nat) : ∀ s,
  handlersOnly s →
  world (run (Settle <$> l) s) = world s
  ∧ handlersOnly (run (Settle <$> l) s).
Proof.
  induction l as [|n l IH]; intros s H; [done|].
  simpl. destruct (settle_handlers n s H) as [Hw Hh].
  destruct (IH _ Hh) as [Hw' Hh']. split; [|done]. by rewrite <- Hw.
Qed.

Lemma arrive_handlers i s : handlersOnly s → handlersOnly (arrive i s).
Proof.
  unfold handlersOnly, arrive. intros H.
  destruct (locked i); cbn [withPartyLock_enter world arrivals log tasks];
    destruct (interactionCreate i (world s)) as [r w'];
    cbn [tasks]; apply Forall_app; (split; [done|]);
    apply Forall_singleton; simpl; eauto.
Qed.

Lemma interactions_cons i l w :
  snd (interactions (i :: l) w)
  = snd (interactions l (snd (interactionCreate i w))).
Proof.
  simpl. destruct (interactionCreate i w) as [r w1]. simpl.
  by destruct (interactions l w1).
Qed.

(** Whatever the order in which the platform calls settle, the state goes
    through what the handlers make of it one after the other in the order of
    arrival: every handler does its checks and writes before its first
    await.  The lock plays no part in it. *)
Lemma handlers_run_in_arrival_order (l : list Action) : ∀ s,
  handlersOnly s → noFire l →
  world (run l s) = snd (interactions (arrived l) (world s)).
Proof.
  induction l as [|a l IH]; intros s Hs Hl; [done|].
  apply Forall_cons in Hl as [Ha Hl].
  destruct a as [i|partyId|n]; cbn [run foldl step] .
  - change (foldl (λ s a, step a s) (arrive i s) l) with (run l (arrive i s)).
    rewrite IH; [|by apply arrive_handlers|done].
    destruct (arrive_runs_at_once i s) as [-> _].
    change (arrived (Arrive i :: l)) with (i :: arrived l).
    by rewrite interactions_cons.
  - by destruct (Ha partyId).
  - change (foldl (λ s a, step a s) (settle n s) l) with (run l (settle n s)).
    destruct (settle_handlers n s Hs) as [Hw Hh].
    rewrite IH by done. by rewrite Hw.
Qed.

(** Two claims of one free slot: the first is confirmed, and the second,
    whenever it arrives after it, finds the slot taken.  The check and the
    write of pick_ are one synchronous piece. *)
Lemma two_claims_one_winner (w : World) (partyId a b : jsstring) (idx : Z)
  (party : Party) (slot : PartySlot) (settled : list nat) :
  activeParties w !! partyId = Some party →
  slotAt party idx = Some slot →
  user slot = None →
  let s := run (Arrive (Pick partyId a idx) :: (Settle <$> settled)) (boot w) in
  fst (interactionCreate (Pick partyId a idx) w) = RoleConfirmed
  ∧ fst (interactionCreate (Pick partyId b idx) (world s)) = SlotJustTaken.
Proof.
  intros Hp Hs Hu s.
  assert (Hpick : pick_ partyId a idx w
                  = (RoleConfirmed, saveData (mutate partyId (assignSlot (Z.to_nat idx) (Some a) party) w))).
  { unfold pick_. rewrite Hp, Hs. unfold vacant. by rewrite Hu. }
  split; [simpl; by rewrite Hpick|].
  assert (Hw : world s = saveData (mutate partyId (assignSlot (Z.to_nat idx) (Some a) party) w)).
  { unfold s. simpl.
    destruct (settles_handlers settled (arrive (Pick partyId a idx) (boot w))) as [-> _].
    - apply arrive_handlers. apply Forall_nil_2. 
    - destruct (arrive_runs_at_once (Pick partyId a idx) (boot w)) as [-> _].
      simpl. by rewrite Hpick. }
  rewrite Hw. simpl. unfold pick_. rewrite saveData_parties. simpl.
  rewrite lookup_insert_eq.
  destruct (slotAt_lookup _ _ _ Hs) as [H0 Hlk].
  unfold slotAt. rewrite bool_decide_eq_true_2 by done. simpl.
  by rewrite list_lookup_alter_eq, Hlk.
Qed.


End EventLoopFacts.

(** C1. Two members choose slot 0 of one party, 2001 first.  The handler of
    the second choice starts while the first is still inside
    [withPartyLock] for that party, awaiting the platform, and it returns
    before the first does: operations on one party do not complete in the
    order they were submitted.  The lock entry is still there when both have
    returned.  And [lockParty] does not go through [withPartyLock]: its
    timer fires, its guard passes, and while it awaits the platform a member
    claims slot 0, which is saved and confirmed; [lockParty] then removes
    the party. *)
Theorem lock_does_not_serialize :
  let A := Pick Sample.P Sample.m1 0 in
  let B := Pick Sample.P Sample.m2 0 in
  let s2 := EventLoop.run [EventLoop.Arrive A; EventLoop.Arrive B]
              (EventLoop.boot Sample.w1) in
  let s := EventLoop.run
             [ EventLoop.Settle 1; EventLoop.Settle 0; EventLoop.Settle 0;
               EventLoop.Settle 0; EventLoop.Settle 0 ] s2 in
  let t1 := EventLoop.run [EventLoop.Fire Sample.P; EventLoop.Arrive A]
              (EventLoop.boot Sample.w1) in
  let t := EventLoop.run
             [ EventLoop.Settle 0; EventLoop.Settle 0; EventLoop.Settle 0;
               EventLoop.Settle 1; EventLoop.Settle 1; EventLoop.Settle 1;
               EventLoop.Settle 1 ] t1 in
  (EventLoop.locked A = true ∧ EventLoop.locked B = true
   ∧ EventLoop.inFlight 0 s2 = true ∧ EventLoop.inFlight 1 s2 = true
   ∧ EventLoop.log s
     = [ EventLoop.Began 0; EventLoop.Began 1;
         EventLoop.Ended 1 (Some SlotJustTaken);
         EventLoop.Ended 0 (Some RoleConfirmed) ]
   ∧ EventLoop.tasks s = []
   ∧ is_Some (EventLoop.partyLocks s !! Sample.P))
  ∧ (EventLoop.inFlight 0 t1 = true
     ∧ rosterOf Sample.P (EventLoop.world t1)
       = Some [ Some Sample.m1; None; None; None; None; None; None; None ]
     ∧ disk (EventLoop.world t1) = disk (saveData (EventLoop.world t1))
     ∧ EventLoop.log t
       = [ EventLoop.Began 0; EventLoop.Began 1; EventLoop.Ended 0 None;
           EventLoop.Ended 1 (Some RoleConfirmed) ]
     ∧ activeParties (EventLoop.world t) !! Sample.P = None).
Proof.
  split.
  - repeat split; try (vm_compute; reflexivity). vm_compute. eauto.
  - repeat split; vm_compute; reflexivity.
Qed.

(** * More of the code *)

(** ** What every branch checks first *)

Ltac unfold_handlers :=
  unfold interactionCreate, button_, handleLeaveAction, handleJoinAction,
    handleDisbandAction, handleSwitchAction, handlePingAction,
    handleExternalAction, handleKickAction, handlePromoteAction,
    pick_, switchpick_, externalrole_, kickpick_, promotepick_, externalign_.

(** The answer of a handler whose synchronous part has decided on [r]. *)
Lemma handled_after env (i : Interaction) (w : World) party r w' :
  activeParties w !! partyOf i = Some party →
  interactionCreate i w = (r, w') →
  handled env i w
  = (if sentAfterEdit r && editRejects env party then Thrown else r, w').
Proof.
  intros Hp E. unfold handled. rewrite E, Hp. by case_match.
Qed.

(** The edit of the party message changes the answer and nothing else. *)
Lemma handled_state env (i : Interaction) (w : World) :
  snd (handled env i w) = snd (interactionCreate i w).
Proof.
  unfold handled. destruct (interactionCreate i w) as [r w'].
  by repeat case_match.
Qed.

(** An answer that is sent before any edit is the answer. *)
Lemma handled_before env (i : Interaction) (w : World) :
  sentAfterEdit (fst (interactionCreate i w)) = false →
  handled env i w = interactionCreate i w.
Proof.
  unfold handled. destruct (interactionCreate i w) as [r w']. simpl.
  intros ->. by case_match.
Qed.

Lemma not_found_reply (i : Interaction) (w : World) :
  activeParties w !! partyOf i = None →
  interactionCreate i w = (NoSuchParty, w).
Proof.
  intros H.
  destruct i as [a pid uid | | | | | |]; simpl in *; unfold_handlers;
    by rewrite H.
Qed.

Lemma leader_only_reply (i : Interaction) (w : World) (party : Party) :
  activeParties w !! partyOf i = Some party →
  privileged i = true →
  userOf i ≠ leader party →
  interactionCreate i w = (OnlyLeader, w).
Proof.
  intros Hp Hpr Hne.
  destruct i as [a pid uid | | | | | |]; simpl in *; try discriminate;
    unfold_handlers; rewrite Hp; try destruct a; try discriminate;
    by rewrite bool_decide_eq_false_2.
Qed.

(** X6. Every interaction on a party id that the registry does not hold is
    answered with 'This party no longer exists.' (or '... is locked or no
    longer exists.'), a NotFound failure, and the state stays as it was:
    each branch looks the party up before anything else. *)
Theorem unknown_party_not_found (i : Interaction) (w : World) :
  activeParties w !! partyOf i = None →
  interactionCreate i w = (NoSuchParty, w)
  ∧ failure NoSuchParty = Some NotFound.
Proof. intros H. split; [by apply not_found_reply|done]. Qed.

(** X7. Ping, reserve, kick, promote and disband, the menus they open and
    the name modal are refused as not coming from the leader ('Only the
    party leader can ...', 'Only the leader can ...') for every other user,
    and the state stays as it was. *)
Theorem only_the_leader (i : Interaction) (w : World) (party : Party) :
  activeParties w !! partyOf i = Some party →
  privileged i = true →
  userOf i ≠ leader party →
  interactionCreate i w = (OnlyLeader, w)
  ∧ failure OnlyLeader = Some NotLeader.
Proof.
  intros Hp Hpr Hne. split; [by apply (leader_only_reply i w party)|done].
Qed.

(** X8. The buttons that open a menu or ping, and the reserve menu that
    opens the name modal, write nothing: registry, file and timers stay as
    they were, whatever the answer is. *)
Theorem menus_leave_state (i : Interaction) (w : World) :
  showsOnly i = true → snd (interactionCreate i w) = w.
Proof.
  destruct i as [a pid uid | | | | | |]; simpl; try discriminate;
    intros Hs; unfold_handlers; try destruct a; try discriminate;
    repeat case_match; done.
Qed.

(** ** What an interaction can change *)

Lemma reshaped_refl p : reshaped p p.
Proof. by repeat split. Qed.

Lemma reshaped_trans p q r : reshaped p q → reshaped q r → reshaped p r.
Proof.
  intros (?&?&?&?&?) (?&?&?&?&?). repeat split; congruence.
Qed.

Lemma reshaped_assignSlot i u p : reshaped p (assignSlot i u p).
Proof.
  repeat split. simpl. apply list_eq. intros j.
  rewrite !list_lookup_fmap, list_lookup_alter.
  case_decide; [subst|done]. by destruct (slots p !! j).
Qed.

Lemma reshaped_cleared f p :
  (∀ s, role (f s) = role s) → reshaped p (withSlots (f <$> slots p) p).
Proof.
  intros Hf. repeat split. simpl. rewrite <- list_fmap_compose.
  apply list_fmap_ext. intros j s _. apply Hf.
Qed.

(** What an interaction can do to the state. *)
Lemma interaction_effect (i : Interaction) (w : World) :
  let w' := snd (interactionCreate i w) in
  w' = w
  ∨ w' = evict (partyOf i) w
  ∨ ∃ p q, activeParties w !! partyOf i = Some p ∧ reshaped p q
           ∧ (w' = saveData (mutate (partyOf i) q w)
              ∨ (w' = mutate (partyOf i) q w
                 ∧ fst (interactionCreate i w) = Thrown)).
Proof.
  destruct i as [a pid uid | pid uid v | pid uid v | pid uid v | pid uid v
                | pid uid v | pid idx uid input]; cbn [partyOf].
  - unfold_handlers. destruct (activeParties w !! pid) as [p|] eqn:Hp;
      [|by left].
    destruct a; try (repeat case_match; by left).
    + right. right. exists p, (withSlots
        ((λ slot, if heldBy uid slot then setUser None slot else slot)
           <$> slots p) p).
      split; [done|]. split; [|by left].
      apply reshaped_cleared. intros s. by case_match.
    + case_match; [by left|]. right. by left.
  - unfold_handlers. destruct (activeParties w !! pid) as [p|] eqn:Hp;
      [|by left].
    repeat case_match; try by left.
    right. right. eexists p, _. split; [done|].
    split; [apply reshaped_assignSlot|by left].
  - unfold_handlers. destruct (activeParties w !! pid) as [p|] eqn:Hp;
      [|by left].
    destruct (findIndex _ _) as [old|]; [|by left].
    destruct (slotAt _ v); right; right.
    + eexists p, _. split; [done|]. split; [|by left].
      eapply reshaped_trans; apply reshaped_assignSlot.
    + eexists p, _. split; [done|]. split; [apply reshaped_assignSlot|].
      by right.
  - unfold_handlers. repeat case_match; by left.
  - unfold_handlers. destruct (activeParties w !! pid) as [p|] eqn:Hp;
      [|by left].
    repeat case_match; try by left.
    all: right; right; eexists p, _; split; [done|];
      split; [apply reshaped_assignSlot|by left].
  - unfold_handlers. destruct (activeParties w !! pid) as [p|] eqn:Hp;
      [|by left].
    repeat case_match; try by left.
    right. right. eexists p, _. split; [done|]. split; [|by left].
    by repeat split.
  - unfold_handlers. destruct (activeParties w !! pid) as [p|] eqn:Hp;
      [|by left].
    destruct (negb (bool_decide (uid = leader p))); [by left|].
    destruct (slotAt p idx) as [s|]; [|by left].
    destruct (negb (vacant s)); [by left|].
    destruct (falsy (trim input)); [by left|].
    right. right. eexists p, _. split; [done|].
    split; [apply reshaped_assignSlot|by left].
Qed.

(** No interaction on a party adds a party or changes the shape of one: a
    party found in the registry afterwards was there before under the same
    id, with the same roles in the same order, the same number of slots,
    type, size, creation time and message id. *)
Lemma interaction_shape_kept (i : Interaction) (w : World) (partyId : jsstring)
  (q : Party) :
  activeParties (snd (interactionCreate i w)) !! partyId = Some q →
  ∃ p, activeParties w !! partyId = Some p
       ∧ role <$> slots q = role <$> slots p
       ∧ length (slots q) = length (slots p)
       ∧ type q = type p ∧ maxSize q = maxSize p
       ∧ createdAt q = createdAt p ∧ messageId q = messageId p.
Proof.
  assert (Hr : ∀ p q, reshaped p q →
            role <$> slots q = role <$> slots p
            ∧ length (slots q) = length (slots p)
            ∧ type q = type p ∧ maxSize q = maxSize p
            ∧ createdAt q = createdAt p ∧ messageId q = messageId p).
  { intros p0 q0 (H1&H2&H3&H4&H5). repeat split; try done.
    by rewrite <- (length_fmap role (slots q0)), H1, length_fmap. }
  destruct (interaction_effect i w) as [-> | [-> | (p & q' & Hp & Hq & Hw)]].
  - intros H. exists q. split; [done|]. apply Hr, reshaped_refl.
  - unfold evict. rewrite saveData_parties. simpl.
    rewrite lookup_delete. case_decide; [done|].
    intros H'. exists q. split; [done|]. apply Hr, reshaped_refl.
  - assert (activeParties (snd (interactionCreate i w))
            = <[partyOf i := q']> (activeParties w)) as ->.
    { destruct Hw as [-> | [-> _]]; [by rewrite saveData_parties|done]. }
    rewrite lookup_insert. case_decide.
    + intros [= <-]. subst. exists p. split; [done|]. by apply Hr.
    + intros H'. exists q. split; [done|]. apply Hr, reshaped_refl.
Qed.

Lemma saveData_inStep w : fs_writable w = true → inStep (saveData w).
Proof.
  intros H. unfold inStep. rewrite saveData_parties. by apply saveData_disk.
Qed.

(** Every write of a handler to a party of the registry is followed by
    [saveData], but for the switch that throws. *)
Lemma interaction_in_step (i : Interaction) (w : World) :
  fs_writable w = true →
  inStep w →
  fst (interactionCreate i w) ≠ Thrown →
  inStep (snd (interactionCreate i w)).
Proof.
  intros Hfs Hin Ht.
  destruct (interaction_effect i w) as [-> | [-> | (p & q' & Hp & Hq & Hw)]].
  - done.
  - by apply saveData_inStep.
  - destruct Hw as [-> | [_ ?]]; [by apply saveData_inStep|done].
Qed.

(** ** From a menu to the pick *)

Lemma slotAt_of_nat p (i : nat) : slotAt p (Z.of_nat i) = slots p !! i.
Proof.
  unfold slotAt. rewrite bool_decide_eq_true_2 by lia. by rewrite Nat2Z.id.
Qed.

Lemma slotIndices_elem keep p v :
  v ∈ slotIndices keep p ↔ ∃ s, slotAt p v = Some s ∧ keep s = true.
Proof.
  unfold slotIndices. rewrite list_elem_of_fmap. split.
  - intros ([i s] & -> & [Hk Hin]%list_elem_of_filter).
    apply elem_of_lookup_imap in Hin as (j & x & [= -> ->] & Hj).
    exists x. simpl. by rewrite slotAt_of_nat.
  - intros (s & Hs & Hk). destruct (slotAt_lookup _ _ _ Hs) as [H0 Hl].
    exists (Z.to_nat v, s). simpl. split; [lia|].
    apply list_elem_of_filter. split; [done|].
    apply elem_of_lookup_imap. eauto.
Qed.

Lemma slotIndices_sorted_from keep (l : list PartySlot) : ∀ k : nat,
  let L := (λ e : nat * PartySlot, Z.of_nat (fst e))
             <$> filter (λ e, keep (snd e) = true)
                   (imap (λ i s, ((k + i)%nat, s)) l) in
  StronglySorted Z.lt L ∧ Forall (λ z, Z.of_nat k <= z) L.
Proof.
  induction l as [|x l IH]; intros k; simpl; [split; constructor|].
  assert (E : imap ((λ i s, ((k + i)%nat, s)) ∘ S) l
              = imap (λ i s, ((S k + i)%nat, s)) l).
  { apply imap_ext. intros i y _. simpl. f_equal. lia. }
  rewrite E. destruct (IH (S k)) as [Hs Hf]. simpl in Hs, Hf.
  assert (Hf' : Forall (λ z, Z.of_nat k <= z)
            ((λ e : nat * PartySlot, Z.of_nat (fst e))
               <$> filter (λ e, keep (snd e) = true)
                     (imap (λ i s, (S (k + i), s)) l))).
  { eapply Forall_impl; [exact Hf|]. intros z Hz. simpl in Hz. lia. }
  rewrite filter_cons. case_decide; simpl; [|done].
  split.
  - constructor; [done|]. eapply Forall_impl; [exact Hf|].
    intros z Hz. simpl in *. lia.
  - constructor; [lia|done].
Qed.

Lemma slotIndices_sorted keep p : StronglySorted Z.lt (slotIndices keep p).
Proof. apply (slotIndices_sorted_from keep (slots p) 0). Qed.

Lemma assignSlot_slots i u p j s :
  slots p !! j = Some s →
  slots (assignSlot i u p) !! j
  = Some (if decide (i = j) then {| role := role s; user := u |} else s).
Proof.
  intros Hj. simpl. rewrite list_lookup_alter. case_decide; subst.
  - by rewrite Hj.
  - done.
Qed.

(** X11. The join menu offers exactly the vacant slots, in ascending order,
    and only to a user who holds no slot; picking any offered slot at once
    gives that slot and no other to the user and leaves the other slots and
    the leader as they were.  The pick is answered 'Role confirmed.',
    unless the edit of the party message rejects: then the answer is 'An
    error occurred ...', and the slot is the user's all the same. *)
Theorem join_then_pick (w : World) (partyId userId : jsstring)
  (party : Party) (options : list Z) :
  activeParties w !! partyId = Some party →
  button_ join partyId userId w = (ChooseRole options, w) →
  (∀ v, v ∈ options ↔ ∃ s, slotAt party v = Some s ∧ user s = None)
  ∧ StronglySorted Z.lt options
  ∧ ∀ v env, v ∈ options →
      ∃ q w',
        handled env (Pick partyId userId v) w
        = (if editRejects env party then Thrown else RoleConfirmed, w')
        ∧ activeParties w' = <[partyId := q]> (activeParties w)
        ∧ leader q = leader party
        ∧ (∀ j s, slots party !! j = Some s →
             slots q !! j
             = Some (if decide (Z.to_nat v = j)
                     then {| role := role s; user := Some userId |}
                     else s))
        ∧ ∀ j s, slots q !! j = Some s → user s = Some userId →
                 j = Z.to_nat v.
Proof.
  intros Hp Hj. unfold button_, handleJoinAction in Hj. rewrite Hp in Hj.
  destruct (existsb (heldBy userId) (slots party)) eqn:Hh; [done|].
  destruct (slotIndices vacant party) as [|v0 rest] eqn:Ho; [done|].
  injection Hj as <-. rewrite <- Ho.
  assert (Hel : ∀ v, v ∈ slotIndices vacant party
                     ↔ ∃ s, slotAt party v = Some s ∧ user s = None).
  { intros v. rewrite slotIndices_elem. unfold vacant.
    split; intros (s & Hs & Hv); exists s; (split; [done|]);
      by destruct (user s). }
  split; [done|]. split; [apply slotIndices_sorted|].
  intros v env (s & Hs & Hu)%Hel.
  assert (E : interactionCreate (Pick partyId userId v) w
              = (RoleConfirmed,
                 saveData (mutate partyId
                             (assignSlot (Z.to_nat v) (Some userId) party)
                             w))).
  { cbn [interactionCreate]. unfold pick_. rewrite Hp, Hs. unfold vacant.
    by rewrite Hu. }
  eexists _, _.
  split; [exact (handled_after env
                    (Pick partyId userId v) w party _ _ Hp E)|].
  rewrite saveData_parties. simpl.
  split; [done|]. split; [done|]. split.
  - intros j t Ht. by apply assignSlot_slots.
  - intros j t Ht Htu.
    destruct (decide (Z.to_nat v = j)) as [|Hne]; [done|]. exfalso.
    change (slots (assignSlot (Z.to_nat v) (Some userId) party) !! j = Some t)
      in Ht.
    assert (slots party !! j = Some t) as Hpj.
    { simpl in Ht. by rewrite list_lookup_alter_ne in Ht. }
    assert (existsb (heldBy userId) (slots party) = true); [|congruence].
    apply existsb_exists. exists t. split.
    + apply list_elem_of_In, list_elem_of_lookup. eauto.
    + unfold heldBy. by apply bool_decide_eq_true.
Qed.

(** X12. The kick menu is shown to the leader only and offers exactly the
    occupied slots; kicking the occupant of a slot clears that slot and no
    other, for members and external players alike.  The answer is
    'Removed ...', unless the edit of the party message rejects: then it is
    'An error occurred ...', and the slot is cleared all the same. *)
Theorem kick_then_pick (w : World) (partyId userId : jsstring)
  (party : Party) (options : list Z) :
  activeParties w !! partyId = Some party →
  button_ kick partyId userId w = (ChooseKicked options, w) →
  userId = leader party
  ∧ (∀ v, v ∈ options ↔ ∃ s u, slotAt party v = Some s ∧ user s = Some u)
  ∧ ∀ v s c u env, slotAt party v = Some s → user s = Some (c :: u) →
      ∃ q w',
        handled env (KickPick partyId userId v) w
        = (if editRejects env party then Thrown else Removed (c :: u), w')
        ∧ activeParties w' = <[partyId := q]> (activeParties w)
        ∧ leader q = leader party
        ∧ ∀ j t, slots party !! j = Some t →
            slots q !! j
            = Some (if decide (Z.to_nat v = j)
                    then {| role := role t; user := None |} else t).
Proof.
  intros Hp Hk. unfold button_, handleKickAction in Hk. rewrite Hp in Hk.
  destruct (bool_decide (userId = leader party)) eqn:Hl; [|done].
  apply bool_decide_eq_true in Hl. simpl in Hk.
  destruct (slotIndices _ party) as [|v0 rest] eqn:Ho; [done|].
  injection Hk as <-. rewrite <- Ho. split; [done|]. split.
  - intros v. rewrite slotIndices_elem. unfold vacant.
    split.
    + intros (s & Hs & Hv). exists s. destruct (user s) as [u|]; [|done].
      by exists u.
    + intros (s & u & Hs & Hu). exists s. by rewrite Hu.
  - intros v s c u env Hs Hu.
    assert (E : interactionCreate (KickPick partyId userId v) w
                = (Removed (c :: u),
                   saveData (mutate partyId
                               (assignSlot (Z.to_nat v) None party) w))).
    { cbn [interactionCreate]. unfold kickpick_. rewrite Hp, Hs, Hu.
      by rewrite bool_decide_eq_true_2 by done. }
    eexists _, _.
    split; [exact (handled_after env
                    (KickPick partyId userId v) w party _ _ Hp E)|].
    rewrite saveData_parties. simpl.
    split; [done|]. split; [done|].
    intros j t Ht. by apply assignSlot_slots.
Qed.

Lemma find_findIndex keep l :
  is_Some (find keep l) → is_Some (findIndex keep l).
Proof.
  induction l as [|x l IH]; simpl; [by intros [? ?]|].
  destruct (keep x); [by eexists|]. intros H. destruct (IH H) as [k ->].
  by eexists.
Qed.

Lemma slotAt_assignSlot p i u v s :
  slotAt p v = Some s →
  slotAt (assignSlot i u p) v
  = Some (if decide (i = Z.to_nat v) then {| role := role s; user := u |}
          else s).
Proof.
  intros [H0 Hl]%slotAt_lookup. unfold slotAt.
  rewrite bool_decide_eq_true_2 by done. by apply assignSlot_slots.
Qed.

(** X13. The switch menu offers exactly the slots that are vacant or the
    user's own; picking any offered slot at once puts the user in it and
    clears the first slot the user held (unless that is the picked one),
    and no slot held by somebody else changes.  The answer is 'Role
    switched!', unless the edit of the party message rejects: then it is
    'An error occurred ...', and the switch is made all the same. *)
Theorem switch_then_pick (w : World) (partyId userId : jsstring)
  (party : Party) (options : list Z) :
  activeParties w !! partyId = Some party →
  button_ switch partyId userId w = (ChooseNewRole options, w) →
  (∀ v, v ∈ options
        ↔ ∃ s, slotAt party v = Some s
               ∧ (user s = None ∨ user s = Some userId))
  ∧ ∀ v env, v ∈ options →
      ∃ old q w',
        findIndex (heldBy userId) (slots party) = Some old
        ∧ handled env (SwitchPick partyId userId v) w
          = (if editRejects env party then Thrown else RoleSwitched, w')
        ∧ activeParties w' = <[partyId := q]> (activeParties w)
        ∧ leader q = leader party
        ∧ (∀ j s, slots party !! j = Some s →
             slots q !! j
             = Some (if decide (Z.to_nat v = j)
                     then {| role := role s; user := Some userId |}
                     else if decide (old = j)
                          then {| role := role s; user := None |}
                          else s))
        ∧ ∀ j s u, slots party !! j = Some s → user s = Some u →
                   u ≠ userId → slots q !! j = Some s.
Proof.
  intros Hp Hs. unfold button_, handleSwitchAction in Hs. rewrite Hp in Hs.
  destruct (find (heldBy userId) (slots party)) as [own|] eqn:Hf; [|done].
  injection Hs as <-.
  assert (Hel : ∀ v, v ∈ slotIndices (λ s, vacant s || heldBy userId s) party
                     ↔ ∃ s, slotAt party v = Some s
                            ∧ (user s = None ∨ user s = Some userId)).
  { intros v. rewrite slotIndices_elem. unfold vacant, heldBy.
    split; intros (s & Hv & Hk); exists s; (split; [done|]).
    - destruct (user s) as [u|] eqn:Hu; [|by left]. right.
      simpl in Hk. by apply bool_decide_eq_true in Hk.
    - destruct Hk as [-> | ->]; [done|]. simpl.
      by apply bool_decide_eq_true. }
  split; [done|].
  intros v env (s & Hv & Hk)%Hel.
  destruct (find_findIndex (heldBy userId) (slots party)) as [old Ho];
    [by rewrite Hf|].
  destruct (findIndex_Some _ _ _ Ho) as (so & Hso & Hho).
  apply bool_decide_eq_true in Hho.
  assert (Hall : ∀ j t, slots party !! j = Some t →
            slots (assignSlot (Z.to_nat v) (Some userId)
                     (assignSlot old None party)) !! j
            = Some (if decide (Z.to_nat v = j)
                    then {| role := role t; user := Some userId |}
                    else if decide (old = j)
                         then {| role := role t; user := None |}
                         else t)).
  { intros j t Ht.
    rewrite (assignSlot_slots _ _ _ j
               (if decide (old = j) then {| role := role t; user := None |}
                else t)) by by apply assignSlot_slots.
    repeat case_decide; done. }
  exists old. eexists _, _. split; [done|].
  split.
  { apply (handled_after env (SwitchPick partyId userId v) w party
             RoleSwitched _ Hp).
    by apply (switchpick_swaps w partyId userId v party old s). }
  rewrite saveData_parties. simpl. split; [done|]. split; [done|].
  split; [exact Hall|].
  intros j t u Ht Hu Hne. rewrite (Hall j t Ht).
  destruct (slotAt_lookup _ _ _ Hv) as [_ Hvl].
  case_decide as E1.
  - subst j. rewrite Hvl in Ht. injection Ht as ->.
    destruct Hk as [Hk|Hk]; congruence.
  - case_decide as E2; [|done]. subst j. congruence.
Qed.

Lemma replaceFirst_unfold p s :
  JSText.replaceFirst p s
  = if startsWith s p then drop (length p) s
    else match s with
         | [] => []
         | c :: s' => c :: JSText.replaceFirst p s'
         end.
Proof. by destruct s. Qed.

Lemma replaceFirst_prefix p s : JSText.replaceFirst p (p ++ s) = s.
Proof.
  rewrite replaceFirst_unfold, startsWith_prefix. by rewrite drop_app_length.
Qed.

Lemma formatUser_external n :
  formatUser (Some (str "IGN:" ++ n)) = str "**" ++ n ++ str "** (External)".
Proof.
  unfold formatUser.
  destruct (str "IGN:" ++ n) as [|c r] eqn:E; [done|].
  rewrite <- E, startsWith_prefix. by rewrite replaceFirst_prefix.
Qed.

(** X14. Reserving a slot for an external player: the leader's menu offers
    vacant slots; choosing one opens the name modal for that slot;
    submitting a name that is not blank stores IGN: and the trimmed name in
    that slot and no other, and [formatUser] shows the slot as the name in
    bold followed by (External), the IGN: prefix taken off.  The answer is
    'Reserved slot for ...', unless the edit of the party message rejects:
    then it is 'An error occurred ...', and the name is stored all the
    same. *)
Theorem reserve_flow (w : World) (partyId userId input : jsstring)
  (party : Party) (options : list Z) (v : Z) (env : LockEnv) :
  activeParties w !! partyId = Some party →
  button_ external partyId userId w = (ChooseReserved options, w) →
  v ∈ options →
  trim input ≠ [] →
  handled env (ExternalRole partyId userId v) w = (AskIgn v, w)
  ∧ ∃ q w',
      handled env (ExternalIgn partyId v userId input) w
      = (if editRejects env party then Thrown else Reserved (trim input), w')
      ∧ activeParties w' = <[partyId := q]> (activeParties w)
      ∧ (∀ j s, slots party !! j = Some s →
           slots q !! j
           = Some (if decide (Z.to_nat v = j)
                   then {| role := role s;
                           user := Some (str "IGN:" ++ trim input) |}
                   else s))
      ∧ ∃ s, slotAt q v = Some s
             ∧ formatUser (user s)
               = str "**" ++ trim input ++ str "** (External)".
Proof.
  intros Hp Hb Hv Hn. unfold button_, handleExternalAction in Hb.
  rewrite Hp in Hb.
  destruct (bool_decide (userId = leader party)) eqn:Hl; [|done].
  simpl in Hb.
  destruct (slotIndices vacant party) as [|v0 rest] eqn:Ho; [done|].
  injection Hb as <-. rewrite <- Ho in Hv.
  apply slotIndices_elem in Hv as (s & Hs & Hvac).
  assert (Hf : falsy (trim input) = false) by by destruct (trim input).
  assert (E1 : interactionCreate (ExternalRole partyId userId v) w
               = (AskIgn v, w)).
  { cbn [interactionCreate]. unfold externalrole_.
    by rewrite Hp, Hl, Hs, Hvac. }
  assert (E2 : interactionCreate (ExternalIgn partyId v userId input) w
               = (Reserved (trim input),
                  saveData (mutate partyId
                              (assignSlot (Z.to_nat v)
                                 (Some (str "IGN:" ++ trim input)) party)
                              w))).
  { cbn [interactionCreate]. unfold externalign_.
    rewrite Hp, Hl, Hs, Hvac. cbn [negb]. by rewrite Hf. }
  split; [exact (handled_after env
                    (ExternalRole partyId userId v) w party _ _ Hp E1)|].
  eexists _, _.
  split; [exact (handled_after env
                    (ExternalIgn partyId v userId input) w party _ _ Hp E2)|].
  rewrite saveData_parties.
  cbn [mutate withParties activeParties]. split; [done|]. split.
  - intros j t Ht. by apply assignSlot_slots.
  - eexists. split.
    + by apply slotAt_assignSlot.
    + rewrite decide_True by done. cbn [user]. apply formatUser_external.
Qed.

(** X15. Disbanding by the leader removes the party and saves.  The answer
    is 'Party disbanded.', unless the edit of the party message rejects:
    then it is 'An error occurred ...', and the party is removed all the
    same.  The lock timer is not cancelled, but when it fires [lockParty]
    finds no party and does nothing, and every later interaction on the
    party is answered with 'This party no longer exists.' *)
Theorem disband_ends_party (w : World) (partyId : jsstring) (party : Party)
  (env : LockEnv) :
  activeParties w !! partyId = Some party →
  ∃ w',
    handled env (Button disband partyId (leader party)) w
    = (if editRejects env party then Thrown else Disbanded, w')
    ∧ activeParties w' = delete partyId (activeParties w)
    ∧ timers w' = timers w
    ∧ (fs_writable w = true → inStep w')
    ∧ (∀ i env', partyOf i = partyId → handled env' i w' = (NoSuchParty, w'))
    ∧ ∀ env', lockParty partyId env' w' = w'.
Proof.
  intros Hp.
  assert (E : interactionCreate (Button disband partyId (leader party)) w
              = (Disbanded, evict partyId w)).
  { cbn [interactionCreate]. unfold button_, handleDisbandAction.
    rewrite Hp. by rewrite bool_decide_eq_true_2 by done. }
  eexists. split; [exact (handled_after env
                    (Button disband partyId (leader party)) w party _ _ Hp E)|].
  assert (Hd : activeParties (evict partyId w) !! partyId = None).
  { rewrite evict_parties. apply lookup_delete_eq. }
  split; [apply evict_parties|].
  split; [unfold evict; by rewrite saveData_timers|].
  split. { intros Hfs. by apply saveData_inStep. }
  split.
  - intros i env' <-. rewrite handled_before.
    + by apply not_found_reply.
    + by rewrite not_found_reply.
  - intros env'. unfold lockParty, lockable. by rewrite Hd.
Qed.

(** X16. Promotion hands the leadership over: afterwards the former leader
    is refused every leader-only interaction, the new leader's disband
    removes the party, and the roster is as it was.  The promotion is
    answered 'Promoted ...' and the disband 'Party disbanded.', unless the
    edit of the party message rejects: then the answer is 'An error
    occurred ...', and the leader is changed, or the party removed, all the
    same. *)
Theorem promotion_hands_over (w : World) (partyId newLeaderId : jsstring)
  (party : Party) (env : LockEnv) :
  activeParties w !! partyId = Some party →
  startsWith newLeaderId (str "IGN:") = false →
  newLeaderId ≠ leader party →
  ∃ w',
    handled env (PromotePick partyId (leader party) newLeaderId) w
    = (if editRejects env party then Thrown else Promoted newLeaderId, w')
    ∧ rosterOf partyId w' = rosterOf partyId w
    ∧ (∀ i env', partyOf i = partyId → privileged i = true →
                 userOf i = leader party →
                 handled env' i w' = (OnlyLeader, w'))
    ∧ ∀ env',
        fst (handled env' (Button disband partyId newLeaderId) w')
        = (if editRejects env' party then Thrown else Disbanded)
        ∧ activeParties
            (snd (handled env' (Button disband partyId newLeaderId) w'))
          !! partyId = None.
Proof.
  intros Hp Hs Hne.
  assert (E : interactionCreate
                (PromotePick partyId (leader party) newLeaderId) w
              = (Promoted newLeaderId,
                 saveData (mutate partyId (withLeader newLeaderId party) w))).
  { cbn [interactionCreate]. unfold promotepick_. rewrite Hp, Hs.
    by rewrite bool_decide_eq_true_2 by done. }
  eexists. split; [exact (handled_after env
                    (PromotePick partyId (leader party) newLeaderId) w party _ _ Hp E)|].
  assert (Hq : activeParties
                 (saveData (mutate partyId (withLeader newLeaderId party) w))
               !! partyId = Some (withLeader newLeaderId party)).
  { rewrite saveData_parties. apply lookup_insert_eq. }
  split. { unfold rosterOf. by rewrite Hq, Hp. }
  split.
  - intros i env' <- Hpr Hu.
    assert (Ho : interactionCreate i
                   (saveData
                      (mutate (partyOf i) (withLeader newLeaderId party) w))
                 = (OnlyLeader,
                    saveData
                      (mutate (partyOf i) (withLeader newLeaderId party) w))).
    { apply (leader_only_reply _ _ _ Hq Hpr). rewrite Hu. simpl.
      congruence. }
    rewrite handled_before; [done|]. by rewrite Ho.
  - intros env'.
    assert (Ed : interactionCreate (Button disband partyId newLeaderId)
                   (saveData
                      (mutate partyId (withLeader newLeaderId party) w))
                 = (Disbanded,
                    evict partyId
                      (saveData
                         (mutate partyId (withLeader newLeaderId party) w)))).
    { cbn [interactionCreate]. unfold button_, handleDisbandAction.
      rewrite Hq. simpl. by rewrite bool_decide_eq_true_2. }
    rewrite (handled_after env' (Button disband partyId newLeaderId) _ _ _ _
               Hq Ed). cbn [fst snd].
    split; [done|]. rewrite evict_parties. apply lookup_delete_eq.
Qed.

(** ** Creating a party *)

Lemma RUN_CONFIGS_sizes t :
  t ∈ handleFormParty →
  ∃ c, RUN_CONFIGS t = Some c ∧ size c = Z.of_nat (length (roles c)).
Proof.
  unfold handleFormParty. intros H.
  apply list_elem_of_fmap in H as ([k c] & -> & H).
  exists c.
  assert (F : Forall (λ e, RUN_CONFIGS e.1 = Some e.2
                           ∧ size e.2 = Z.of_nat (length (roles e.2)))
                RUN_CONFIGS_table).
  { unfold RUN_CONFIGS_table. repeat constructor. }
  rewrite Forall_forall in F. apply (F _ H).
Qed.

Lemma vacant_indices_fresh (l : list jsstring) : ∀ k : nat,
  (λ e : nat * PartySlot, Z.of_nat e.1)
    <$> filter (λ e, vacant e.2 = true)
          (imap (λ i s, ((k + i)%nat, s))
             ((λ r, {| role := r; user := None |}) <$> l))
  = Z.of_nat <$> seq k (length l).
Proof.
  induction l as [|x l IH]; intros k; [done|].
  cbn [fmap list_fmap length seq]. rewrite imap_cons, filter_cons.
  rewrite decide_True by done. cbn [fmap list_fmap fst]. f_equal.
  - f_equal. lia.
  - rewrite <- IH. do 2 f_equal. apply imap_ext. intros i y _. simpl.
    f_equal. lia.
Qed.

(** X17. Every run type that the /formparty menu offers has a configuration
    whose size is its number of roles.  Selecting it, when the message can
    be posted, creates the party under party_<uuid>: the selecting user
    leads it, the slots carry the roles of the configuration in order and
    are all vacant, [maxSize] is the number of slots, the message id is the
    posted one, the lock timer is armed for the timeout less the time the
    posting took, and the file holds the registry with the new party. *)
Theorem selected_run_is_posted (w : World) (type_ userId uuid sent : jsstring)
  (latency : Z) :
  type_ ∈ handleFormParty →
  ∃ c p w',
    RUN_CONFIGS type_ = Some c
    ∧ handleRunSelection type_ userId uuid (Posted sent latency) w
      = (PartyPosted, w')
    ∧ activeParties w' = <[str "party_" ++ uuid := p]> (activeParties w)
    ∧ type p = type_ ∧ leader p = userId ∧ createdAt p = clock w
    ∧ messageId p = Some sent
    ∧ slots p = (λ r, {| role := r; user := None |}) <$> roles c
    ∧ sized p
    ∧ slotIndices vacant p = Z.of_nat <$> seq 0 (length (roles c))
    ∧ timers w' = timers w ++ [(str "party_" ++ uuid, Z.max 0 (lockTimeout - latency))]
    ∧ (fs_writable w = true → inStep w').
Proof.
  intros (c & Hc & Hsz)%RUN_CONFIGS_sizes.
  unfold handleRunSelection. rewrite Hc. cbv zeta.
  exists c. eexists _, _. split; [done|]. split; [done|].
  cbn [setupLockTimer activeParties]. rewrite saveData_parties.
  cbn [mutate withParties activeParties tick].
  split; [by rewrite insert_insert_eq|].
  cbn [withMessageId newParty type leader createdAt messageId slots].
  do 5 (split; [done|]).
  split. { unfold sized. cbn. by rewrite length_fmap. }
  split.
  { exact (vacant_indices_fresh (roles c) 0%nat). }
  split.
  { unfold setupLockTimer. cbn [timers]. rewrite saveData_timers, saveData_clock. cbn.
    do 3 f_equal. lia. }
  intros Hfs. unfold inStep, setupLockTimer. cbn [disk activeParties].
  by apply saveData_inStep.
Qed.

(** X18. The leader's ping mentions exactly the Discord members who hold a
    slot, never an external player, answers 'No Discord users to ping.'
    when there is none, and writes nothing. *)
Theorem ping_mentions_members (w : World) (partyId : jsstring)
  (party : Party) :
  activeParties w !! partyId = Some party →
  ∃ mentions,
    button_ ping partyId (leader party) w
    = (match mentions with [] => NoOneToPing | _ => PartyPing mentions end, w)
    ∧ (∀ m, m ∈ mentions
            ↔ ∃ s, s ∈ slots party ∧ user s = Some m
                   ∧ startsWith m (str "IGN:") = false).
Proof.
  intros Hp. unfold button_, handlePingAction. rewrite Hp.
  rewrite bool_decide_eq_true_2 by done. cbn [negb].
  exists (omap user (filter (λ s, discordUser s = true) (slots party))).
  split; [by case_match|].
  intros m. rewrite list_elem_of_omap. unfold discordUser. split.
  - intros (s & [Hd Hin]%list_elem_of_filter & Hu). exists s.
    rewrite Hu in Hd. repeat split; [done..|].
    by apply negb_true_iff.
  - intros (s & Hin & Hu & Hs). exists s. split; [|done].
    apply list_elem_of_filter. by rewrite Hu, Hs.
Qed.

(** ** A data file that cannot be written *)

Lemma interaction_reads_registry (i : Interaction) (w1 w2 : World) :
  activeParties w1 = activeParties w2 →
  fst (interactionCreate i w1) = fst (interactionCreate i w2)
  ∧ activeParties (snd (interactionCreate i w1))
    = activeParties (snd (interactionCreate i w2)).
Proof.
  intros H.
  destruct i as [a pid uid | | | | | |]; unfold_handlers; rewrite <- H;
    try destruct a; repeat case_match;
    cbn [fst snd]; unfold evict; rewrite ?saveData_parties;
    cbn [mutate withParties activeParties]; by rewrite ?H.
Qed.

(** X19. A data file that cannot be written changes no answer and no
    registry: [saveData] catches the error, the handler goes on as it does
    with a file that can be written, and the file stays as it was. *)
Theorem failing_disk_changes_no_answer (i : Interaction) (w : World) :
  fst (interactionCreate i (readOnlyDisk w)) = fst (interactionCreate i w)
  ∧ activeParties (snd (interactionCreate i (readOnlyDisk w)))
    = activeParties (snd (interactionCreate i w))
  ∧ disk (snd (interactionCreate i (readOnlyDisk w))) = disk w.
Proof.
  destruct (interaction_reads_registry i (readOnlyDisk w) w eq_refl)
    as [H1 H2].
  split; [done|]. split; [done|].
  destruct (interaction_effect i (readOnlyDisk w))
    as [-> | [-> | (p & q & _ & _ & [-> | [-> _]])]]; done.
Qed.


(** ** Numbers and strings of the customIds *)

Lemma digit_cases (c : N) :
  isDigit c →
  (c = 48 ∨ c = 49 ∨ c = 50 ∨ c = 51 ∨ c = 52 ∨ c = 53 ∨ c = 54
   ∨ c = 55 ∨ c = 56 ∨ c = 57)%N.
Proof. unfold isDigit. lia. Qed.

Lemma digit_of_Z n : 0 <= n < 10 → isDigit (Z.to_N (48 + n)).
Proof. unfold isDigit. lia. Qed.

Lemma digitValue_digit n :
  0 <= n < 10 → digitValue (Z.to_N (48 + n)) = Some n.
Proof.
  intros H. unfold digitValue.
  assert ((48 <=? Z.to_N (48 + n))%N && (Z.to_N (48 + n) <=? 57)%N = true)
    as ->.
  { apply andb_true_intro. split; apply N.leb_le; lia. }
  f_equal. lia.
Qed.

Lemma decimal_digits fuel n :
  0 <= n → Forall isDigit (decimal fuel n).
Proof.
  revert n. induction fuel as [|fuel IH]; intros n Hn; simpl; [constructor|].
  destruct (n <? 10) eqn:E.
  - apply Z.ltb_lt in E. constructor; [apply digit_of_Z; lia|constructor].
  - apply Forall_app. split.
    + apply IH. apply Z.div_pos; lia.
    + constructor; [|constructor]. apply digit_of_Z.
      apply Z.mod_pos_bound. lia.
Qed.

Lemma decimal_nonempty fuel n : decimal (S fuel) n ≠ [].
Proof.
  simpl. destruct (n <? 10); [done|]. by destruct (decimal fuel (n / 10)).
Qed.

Lemma digitsPrefix_decimal fuel : ∀ n acc rest,
  0 <= n < 2 ^ Z.of_nat fuel → fuel ≠ O →
  digitsPrefix 10 acc (decimal fuel n ++ rest)
  = digitsPrefix 10
      (Some (10 ^ Z.of_nat (length (decimal fuel n)) * default 0 acc + n))
      rest.
Proof.
  induction fuel as [|fuel IH]; intros n acc rest Hn Hf; [done|].
  cbn [decimal]. destruct (n <? 10) eqn:E.
  - apply Z.ltb_lt in E. cbn [app digitsPrefix length].
    rewrite digitValue_digit by lia.
    assert ((n <? 10) = true) as -> by by apply Z.ltb_lt.
    do 2 f_equal.
  - apply Z.ltb_ge in E. rewrite <- app_assoc.
    assert (Hd : 0 <= n / 10 < 2 ^ Z.of_nat fuel).
    { rewrite Nat2Z.inj_succ, Z.pow_succ_r in Hn by lia.
      split; [apply Z.div_pos; lia|].
      apply Z.div_lt_upper_bound; lia. }
    rewrite IH; [|done|intros ->; simpl in Hd; lia]. cbn [app digitsPrefix].
    assert (Hm := Z.mod_pos_bound n 10 ltac:(lia)).
    rewrite digitValue_digit by done.
    assert ((n mod 10 <? 10) = true) as -> by (apply Z.ltb_lt; lia).
    rewrite length_app. cbn [length default].
    rewrite Nat2Z.inj_add, Z.pow_add_r by lia.
    do 2 f_equal. change (10 ^ Z.of_nat 1) with 10.
    pose proof (Z.div_mod n 10 ltac:(lia)). unfold id. lia.
Qed.

Lemma log2_fuel n : 0 <= n → n < 2 ^ Z.of_nat (S (Z.to_nat (Z.log2 n))).
Proof.
  intros Hn. rewrite Nat2Z.inj_succ, Z2Nat.id by apply Z.log2_nonneg.
  destruct (decide (n = 0)) as [->|]; [done|].
  apply Z.log2_spec. lia.
Qed.

(** [parseInt] of a string that starts with a digit and holds only
    digits. *)
Lemma parseInt_digits s :
  s ≠ [] → Forall isDigit s → parseInt s = digitsPrefix 10 None s.
Proof.
  destruct s as [|c s]; [done|]. intros _ H.
  apply Forall_cons in H as [Hc Hs]. apply digit_cases in Hc.
  assert (E : (λ v, 1 * v) <$> digitsPrefix 10 None (c :: s)
              = digitsPrefix 10 None (c :: s)).
  { destruct (digitsPrefix 10 None (c :: s)) as [v|]; simpl; [|done].
    f_equal. lia. }
  rewrite <- E. clear E.
  assert (Hne : c ≠ 48%N → parseInt (c :: s)
                = (λ v, 1 * v) <$> digitsPrefix 10 None (c :: s)).
  { intros H48.     destruct Hc as [->|[->|[->|[->|[->|[->|[->|[->|[->| ->]]]]]]]]];
      done. }
  destruct (decide (c = 48%N)) as [->|]; [|by apply Hne].
  destruct s as [|d s]; [done|].
  apply Forall_cons in Hs as [Hd Hs]. apply digit_cases in Hd.
  destruct Hd as [->|[->|[->|[->|[->|[->|[->|[->|[->| ->]]]]]]]]]; done.
Qed.

(** [parseInt] reads back every integer that [toString] wrote. *)
Lemma parseInt_toString (n : Z) : parseInt (toString n) = Some n.
Proof.
  unfold toString. destruct (n <? 0) eqn:E.
  - apply Z.ltb_lt in E.
    assert (H0 : 0 <= - n) by lia.
    assert (Hd := decimal_digits (S (Z.to_nat (Z.log2 (- n)))) (- n) H0).
    assert (Hn := decimal_nonempty (Z.to_nat (Z.log2 (- n))) (- n)).
    assert (Hv := digitsPrefix_decimal (S (Z.to_nat (Z.log2 (- n)))) (- n)
                    None [] (conj H0 (log2_fuel (- n) H0))
                    (Nat.neq_succ_0 _)).
    rewrite app_nil_r in Hv. cbn [digitsPrefix default] in Hv.
    destruct (decimal (S (Z.to_nat (Z.log2 (- n)))) (- n)) as [|c s] eqn:Es;
      [done|].
    apply Forall_cons in Hd as [Hc Hs]. apply digit_cases in Hc.
    assert (parseInt (45%N :: c :: s)
            = (λ v, -1 * v) <$> digitsPrefix 10 None (c :: s)) as ->.
    { destruct (decide (c = 48%N)) as [->|H48].
      - destruct s as [|d s]; [done|].
        apply Forall_cons in Hs as [Hd' Hs]. apply digit_cases in Hd'.
        destruct Hd' as [->|[->|[->|[->|[->|[->|[->|[->|[->| ->]]]]]]]]];
          done.
      -         destruct Hc as [->|[->|[->|[->|[->|[->|[->|[->|[->| ->]]]]]]]]];
          done. }
    rewrite Hv. simpl. f_equal. lia.
  - apply Z.ltb_ge in E.
    rewrite parseInt_digits;
      [|apply decimal_nonempty|by apply decimal_digits].
    rewrite <- (app_nil_r (decimal _ n)).
    rewrite digitsPrefix_decimal; [|split; [done|by apply log2_fuel]|done].
    simpl. f_equal. lia.
Qed.

Lemma slotValue_toString v : slotValue (toString v) = v.
Proof. unfold slotValue. by rewrite parseInt_toString. Qed.


Lemma clash_startsWith p q s :
  clash p q = true → startsWith (p ++ s) q = false.
Proof.
  revert q. induction p as [|c p IH]; intros [|d q]; simpl; try done.
  rewrite (N.eqb_sym d c).
  destruct (c =? d)%N; simpl; [|done]. apply IH.
Qed.

Lemma clash_neq p q s : clash p q = true → p ++ s ≠ q.
Proof.
  revert q. induction p as [|c p IH]; intros [|d q]; simpl; try done.
  intros H [= -> Hq]. rewrite N.eqb_refl in H. simpl in H.
  by apply (IH q).
Qed.

Lemma split_nonempty sep s : JSText.split sep s ≠ [].
Proof.
  destruct s as [|c s]; simpl; [done|].
  destruct (c =? sep)%N; [done|]. by destruct (JSText.split sep s).
Qed.

Lemma split_join sep s : JSText.join sep (JSText.split sep s) = s.
Proof.
  induction s as [|c s IH]; [done|]. cbn [JSText.split].
  destruct (c =? sep)%N eqn:E.
  - apply N.eqb_eq in E as ->.
    destruct (JSText.split sep s) as [|x l] eqn:Es;
      [by destruct (split_nonempty sep s)|].
    change (JSText.join sep ([] :: x :: l))
      with ([] ++ sep :: JSText.join sep (x :: l)).
    by rewrite IH.
  - destruct (JSText.split sep s) as [|x l] eqn:Es;
      [by destruct (split_nonempty sep s)|].
    rewrite <- IH. by destruct l.
Qed.

Lemma split_plain sep p :
  Forall (λ c, c ≠ sep) p → JSText.split sep p = [p].
Proof.
  induction 1 as [|c p Hc _ IH]; [done|]. cbn [JSText.split].
  rewrite (proj2 (N.eqb_neq c sep) Hc). by rewrite IH.
Qed.

Lemma split_app_sep sep p s :
  Forall (λ c, c ≠ sep) p →
  JSText.split sep (p ++ sep :: s) = p :: JSText.split sep s.
Proof.
  induction 1 as [|c p Hc _ IH]; cbn [app JSText.split].
  - by rewrite N.eqb_refl.
  - rewrite (proj2 (N.eqb_neq c sep) Hc). by rewrite IH.
Qed.

Lemma split_snoc sep s d :
  Forall (λ c, c ≠ sep) d →
  JSText.split sep (s ++ sep :: d) = JSText.split sep s ++ [d].
Proof.
  intros Hd. induction s as [|c s IH]; cbn [app JSText.split].
  - rewrite N.eqb_refl. by rewrite split_plain.
  - rewrite IH. destruct (c =? sep)%N; [done|].
    destruct (JSText.split sep s) as [|x l] eqn:Es;
      [by destruct (split_nonempty sep s)|done].
Qed.

Lemma actionName_plain a : Forall (λ c, c ≠ 95%N) (actionName a).
Proof. destruct a; by apply (bool_decide_unpack _); vm_compute. Qed.

Lemma buttonAction_actionName a : buttonAction (actionName a) = Some a.
Proof. by destruct a. Qed.

Lemma toString_plain v : Forall (λ c, c ≠ 95%N) (toString v).
Proof.
  assert (H : ∀ l, Forall isDigit l → Forall (λ c, c ≠ 95%N) l).
  { intros l Hl. eapply Forall_impl; [exact Hl|]. unfold isDigit. lia. }
  unfold toString. destruct (v <? 0) eqn:E.
  - apply Z.ltb_lt in E. constructor; [done|].
    apply H, decimal_digits. lia.
  - apply Z.ltb_ge in E. by apply H, decimal_digits.
Qed.

(** X20. Each of the eight buttons that [createPartyButtons] puts under a
    party message is routed by [interactionCreate] to the handler of its
    action with the party id it was made for, whatever the party id is
    (underscores in it included: [split] and [join] are inverse). *)
Theorem buttons_route (partyId userId value input : jsstring) :
  route <$> ((λ id, {| component := ButtonComponent; customId := id;
                       value0 := value; user_id := userId;
                       ign_input := input |})
               <$> createPartyButtons partyId)
  = (λ a, ToParty (Button a partyId userId))
      <$> [join; leave; switch; ping; external; kick; promote; disband].
Proof.
  unfold createPartyButtons. rewrite <- !list_fmap_compose.
  apply list_fmap_ext. intros _ a _. unfold compose, route.
  cbn [component customId user_id].
  change (str "_" ++ partyId) with (95%N :: partyId).
  rewrite split_app_sep by apply actionName_plain.
  by rewrite buttonAction_actionName, split_join.
Qed.

Ltac route_menu :=
  unfold route; cbn [component customId user_id value0];
  rewrite bool_decide_eq_false_2 by (by apply clash_neq);
  rewrite ?clash_startsWith by done;
  rewrite startsWith_prefix, replaceFirst_prefix.

(** X21. A choice made in a menu that a handler showed is routed to the
    branch of that menu, with the party id of the menu and the value that
    was offered: the customId prefixes do not shadow one another, and
    [parseInt] reads back the slot index that [toString] wrote. *)
Theorem menus_route (r : Reply) (partyId id userId value input : jsstring) :
  componentId r partyId = Some id →
  value ∈ optionValues r →
  let x := {| component := StringSelectMenu; customId := id;
              value0 := value; user_id := userId; ign_input := input |} in
  match r with
  | ChooseRole options =>
      ∃ v, v ∈ options ∧ route x = ToParty (Pick partyId userId v)
  | ChooseNewRole options =>
      ∃ v, v ∈ options ∧ route x = ToParty (SwitchPick partyId userId v)
  | ChooseReserved options =>
      ∃ v, v ∈ options ∧ route x = ToParty (ExternalRole partyId userId v)
  | ChooseKicked options =>
      ∃ v, v ∈ options ∧ route x = ToParty (KickPick partyId userId v)
  | ChooseLeader options =>
      value ∈ options ∧ route x = ToParty (PromotePick partyId userId value)
  | _ => False
  end.
Proof.
  intros Hid Hv.
  destruct r; cbn [componentId optionValues] in Hid, Hv; try discriminate;
    try (by apply elem_of_nil in Hv); apply (inj Some) in Hid; subst id;
    cbv zeta;
    try (apply list_elem_of_fmap in Hv as (v & -> & Hv); exists v;
         split; [done|]).
  - route_menu. by rewrite slotValue_toString.
  - route_menu. by rewrite slotValue_toString.
  - route_menu. by rewrite slotValue_toString.
  - route_menu. by rewrite slotValue_toString.
  - split; [done|]. by route_menu.
Qed.

(** X22. The name modal that externalrole_ opens for a slot of a party
    comes back to externalign_ with that party id and that slot:
    [slice(1, -1)] and [join] put the party id together again, underscores
    included, and [parseInt] reads the index after the last underscore. *)
Theorem modal_routes (partyId id userId value input : jsstring) (roleIdx : Z) :
  componentId (AskIgn roleIdx) partyId = Some id →
  route {| component := ModalSubmit; customId := id; value0 := value;
           user_id := userId; ign_input := input |}
  = ToParty (ExternalIgn partyId roleIdx userId input).
Proof.
  intros Hid. cbn [componentId] in Hid. apply (inj Some) in Hid. subst id.
  unfold route. cbn [component customId user_id ign_input].
  rewrite startsWith_prefix.
  change (str "externalign_" ++ partyId ++ str "_" ++ toString roleIdx)
    with (str "externalign" ++ 95%N :: (partyId ++ 95%N :: toString roleIdx)).
  rewrite split_app_sep by (by apply (bool_decide_unpack _); vm_compute).
  rewrite split_snoc by apply toString_plain.
  assert (JSText.sliceInner
            (str "externalign" :: JSText.split 95 partyId ++ [toString roleIdx])
          = JSText.split 95 partyId) as ->.
  { unfold JSText.sliceInner. cbn [length]. rewrite length_app. cbn [length].
    replace (S (length (JSText.split 95 partyId) + 1) - 1)%nat
      with (S (length (JSText.split 95 partyId))) by lia.
    cbn [take]. rewrite take_app_length. done. }
  rewrite split_join.
  change (str "externalign" :: JSText.split 95 partyId ++ [toString roleIdx])
    with ((str "externalign" :: JSText.split 95 partyId) ++ [toString roleIdx]).
  rewrite last_snoc.
  change (default [] (Some (toString roleIdx))) with (toString roleIdx).
  by rewrite slotValue_toString.
Qed.

(** ** The embed *)

Lemma filter_all_length {A} (P : A → Prop) `{∀ x, Decision (P x)}
  (l : list A) :
  length (filter P l) = length l ↔ Forall P l.
Proof.
  induction l as [|x l IH]; [by split; [constructor|]|].
  rewrite filter_cons. case_decide as Hx; simpl.
  - rewrite Forall_cons. split.
    + intros [= E]. split; [done|]. by apply IH.
    + intros [_ Hl]. f_equal. by apply IH.
  - split.
    + intros E. pose proof (length_filter P l). lia.
    + by intros [? _]%Forall_cons.
Qed.

Lemma slotIndices_nil keep p :
  slotIndices keep p = [] ↔ Forall (λ s, keep s = false) (slots p).
Proof.
  split.
  - intros E. apply Forall_forall. intros s Hs.
    apply list_elem_of_lookup in Hs as [i Hi].
    destruct (keep s) eqn:Hk; [|done].
    assert (Z.of_nat i ∈ slotIndices keep p) as Hin.
    { apply slotIndices_elem. exists s. by rewrite slotAt_of_nat. }
    rewrite E in Hin. by apply elem_of_nil in Hin.
  - intros Hf. destruct (slotIndices keep p) as [|v l] eqn:E; [done|].
    assert (v ∈ slotIndices keep p) as Hin by (rewrite E; left).
    apply slotIndices_elem in Hin as (s & [_ Hs]%slotAt_lookup & Hk).
    rewrite Forall_forall in Hf.
    rewrite Hf in Hk; [done|]. apply list_elem_of_lookup. eauto.
Qed.

(** X23. For a party whose [maxSize] is its number of slots, the embed has
    the danger colour exactly when the join button answers 'Party is full!'
    to a user without a slot: [filledCount === maxSize] and the empty list
    of vacant slots say the same. *)
Theorem embed_full_when_join_refused (w : World) (partyId userId : jsstring)
  (party : Party) :
  activeParties w !! partyId = Some party →
  sized party →
  (∀ s, s ∈ slots party → user s ≠ Some userId) →
  color (createPartyEmbed party) = COLORS_danger
  ↔ button_ join partyId userId w = (PartyIsFull, w).
Proof.
  intros Hp Hsz Hno.
  assert (Hh : existsb (heldBy userId) (slots party) = false).
  { apply not_true_is_false. intros (s & Hin & Hs)%existsb_exists.
    apply bool_decide_eq_true in Hs. apply (Hno s); [|done].
    by apply list_elem_of_In. }
  unfold button_, handleJoinAction. rewrite Hp, Hh.
  assert (Hfull : isFull party = true
                  ↔ slotIndices vacant party = []).
  { unfold isFull, filledCount. rewrite bool_decide_eq_true, Hsz.
    rewrite slotIndices_nil, Nat2Z.inj_iff. apply filter_all_length. }
  cbn [createPartyEmbed color]. split.
  - intros Hc. destruct (isFull party); [|done].
    by rewrite (proj1 Hfull eq_refl).
  - intros Hj. destruct (slotIndices vacant party) eqn:E; [|done].
    by rewrite (proj2 Hfull eq_refl).
Qed.

(** ** Two picks of one slot, and the entries of [partyLocks] *)

Section LockEntries.
Import EventLoop.

(** X5. Two picks of one free slot: the first to arrive gets the slot, and
    the other, at whatever later point it arrives while platform calls of
    the first settle, is answered 'That slot was just taken.' and changes
    nothing.  The first is answered 'Role confirmed.', unless the edit of
    the party message rejects: then it is answered 'An error occurred ...'
    and holds the slot all the same. *)
Theorem two_claims_one_slot (w : World) (partyId a b : jsstring) (idx : Z)
  (party : Party) (slot : PartySlot) (settled : list nat)
  (env env' : LockEnv) :
  activeParties w !! partyId = Some party →
  slotAt party idx = Some slot →
  user slot = None →
  let s := run (Arrive (Pick partyId a idx) :: (Settle <$> settled)) (boot w) in
  fst (handled env (Pick partyId a idx) w)
  = (if editRejects env party then Thrown else RoleConfirmed)
  ∧ world s = snd (handled env (Pick partyId a idx) w)
  ∧ (∃ p, activeParties (world s) !! partyId = Some p
          ∧ slotAt p idx = Some {| role := role slot; user := Some a |})
  ∧ handled env' (Pick partyId b idx) (world s) = (SlotJustTaken, world s).
Proof.
  intros Hp Hs Hu s.
  set (w1 := saveData (mutate partyId
                         (assignSlot (Z.to_nat idx) (Some a) party) w)).
  assert (Hpick : interactionCreate (Pick partyId a idx) w
                  = (RoleConfirmed, w1)).
  { cbn [interactionCreate]. unfold pick_. rewrite Hp, Hs. unfold vacant.
    by rewrite Hu. }
  assert (Hw : world s = w1).
  { unfold s. simpl.
    destruct (settles_handlers settled (arrive (Pick partyId a idx) (boot w)))
      as [-> _].
    - apply arrive_handlers. apply Forall_nil_2.
    - destruct (arrive_runs_at_once (Pick partyId a idx) (boot w)) as [-> _].
      change (world (boot w)) with w. by rewrite Hpick. }
  destruct (slotAt_lookup _ _ _ Hs) as [H0 Hlk].
  assert (Hq : activeParties w1 !! partyId
               = Some (assignSlot (Z.to_nat idx) (Some a) party)).
  { unfold w1. rewrite saveData_parties. apply lookup_insert_eq. }
  assert (Hslot : slotAt (assignSlot (Z.to_nat idx) (Some a) party) idx
                  = Some {| role := role slot; user := Some a |}).
  { unfold slotAt. rewrite bool_decide_eq_true_2 by done. simpl.
    by rewrite list_lookup_alter_eq, Hlk. }
  rewrite (handled_after env (Pick partyId a idx) w party _ _ Hp Hpick).
  rewrite Hw. cbn [fst snd].
  split; [done|]. split; [done|]. split; [eauto|].
  assert (Hb : interactionCreate (Pick partyId b idx) w1
               = (SlotJustTaken, w1)).
  { cbn [interactionCreate]. unfold pick_. by rewrite Hq, Hslot. }
  rewrite handled_before; [done|]. by rewrite Hb.
Qed.

Lemma find_tid_elem n (l : list Task) t :
  find (λ t, bool_decide (tid t = n)) l = Some t → t ∈ l ∧ tid t = n.
Proof.
  intros [Hin Ht]%find_some. split; [by apply list_elem_of_In|].
  by apply bool_decide_eq_true in Ht.
Qed.

Lemma step_chainsOnly (a : Action) (s : Sys) :
  chainsOnly s →
  chainsOnly (step a s)
  ∧ ∀ k, is_Some (partyLocks s !! k) → is_Some (partyLocks (step a s) !! k).
Proof.
  intros [Hl Ht]. destruct a as [i|partyId|n]; cbn [step].
  - unfold arrive. destruct (locked i) eqn:Hi.
    + cbn [withPartyLock_enter world].
      destruct (interactionCreate i (world s)) as [answer w'].
      split; [split|]; cbn.
      * intros k p. rewrite lookup_insert. case_decide; [|apply Hl].
        intros [= <-]. eauto.
      * apply Forall_app. split; [done|]. constructor; [|constructor].
        cbn. intros ? ? ? [= _ _ <-]. eauto.
      * intros k Hk. rewrite lookup_insert. case_decide; [by eexists|done].
    + destruct (interactionCreate i (world s)) as [answer w'].
      split; [split|]; cbn; [done| |done].
      apply Forall_app. split; [done|]. constructor; [|constructor].
      cbn. intros ? ? ? [=].
  - unfold fire. destruct (disarm _ _); [|by split].
    case_match; (split; [split|]); cbn; try done.
    apply Forall_app. split; [done|]. constructor; [|constructor]. done.
  - unfold settle.
    destruct (find _ (tasks s)) as [t|] eqn:Hf; [|by split].
    apply find_tid_elem in Hf as [Hin Htid].
    rewrite Forall_forall in Ht. pose proof (Ht t Hin) as Hbody.
    assert (Hfin : chainsOnly (finish t s)
              ∧ ∀ k, is_Some (partyLocks s !! k)
                     → is_Some (partyLocks (finish t s) !! k)).
    { unfold finish. destruct (body t) as [i r [c|] | pid] eqn:Eb.
      - destruct (Hbody i r c eq_refl) as [m ->].
        cbn [withPartyLock_exit world partyLocks promises released tasks
               arrivals log].
        rewrite bool_decide_eq_false_2.
        2:{ intros Hc. by destruct (Hl _ _ Hc) as (x & y & ?). }
        split; [split|]; cbn; [done| |done].
        apply Forall_forall. intros t' [_ Hin']%list_elem_of_filter.
        by apply Ht.
      - split; [split|]; cbn; [done| |done].
        apply Forall_forall. intros t' [_ Hin']%list_elem_of_filter.
        by apply Ht.
      - split; [split|]; cbn; [done| |done].
        apply Forall_forall. intros t' [_ Hin']%list_elem_of_filter.
        by apply Ht. }
    destruct (calls t) as [|[|k]]; [done..|].
    split; [split|]; cbn; [done| |done].
    apply Forall_forall. intros t' (t0 & -> & Hin0)%list_elem_of_fmap.
    case_bool_decide; cbn; [apply Hbody|by apply Ht].
Qed.

Lemma run_chainsOnly (l : list Action) : ∀ s,
  chainsOnly s →
  chainsOnly (run l s)
  ∧ ∀ k, is_Some (partyLocks s !! k) → is_Some (partyLocks (run l s) !! k).
Proof.
  induction l as [|a l IH]; intros s Hs; [by split|].
  destruct (step_chainsOnly a s Hs) as [H1 H2].
  destruct (IH (step a s) H1) as [H3 H4].
  split; [done|]. intros k Hk. apply H4, H2, Hk.
Qed.

Lemma arrive_adds_entry (i : Interaction) (s : Sys) :
  locked i = true → is_Some (partyLocks (arrive i s) !! partyOf i).
Proof.
  intros Hi. unfold arrive. rewrite Hi. cbn [withPartyLock_enter world].
  destruct (interactionCreate i (world s)) as [answer w'].
  cbn. rewrite lookup_insert_eq. by eexists.
Qed.

Lemma boot_chainsOnly w : chainsOnly (boot w).
Proof. split; [intros k p; cbn; by rewrite lookup_empty|constructor]. Qed.

(** X24. [withPartyLock] never removes an entry of [partyLocks]: after any
    schedule of arrivals, settled calls and timers, the map still holds a
    chained promise for every party on which a locked interaction arrived,
    also when all its handlers have returned.  The comparison at line 230
    is between the chain in the map and the promise of the call, which are
    never the same object. *)
Theorem lock_entries_pile_up (l : list Action) (w : World)
  (i : Interaction) :
  Arrive i ∈ l →
  locked i = true →
  ∃ previous current,
    partyLocks (run l (boot w)) !! partyOf i = Some (Chained previous current).
Proof.
  intros Hin Hi.
  assert (G : ∀ l s, chainsOnly s → Arrive i ∈ l →
            is_Some (partyLocks (run l s) !! partyOf i)).
  { clear l Hin. induction l as [|a l IH]; intros s Hs Hin.
    - by apply elem_of_nil in Hin.
    - destruct (step_chainsOnly a s Hs) as [H1 _].
      apply elem_of_cons in Hin as [<- | Hin].
      + apply (run_chainsOnly l _ H1). by apply arrive_adds_entry.
      + by apply (IH (step a s)). }
  destruct (G l (boot w) (boot_chainsOnly w) Hin) as [p Hp].
  destruct (run_chainsOnly l _ (boot_chainsOnly w)) as [[Hc _] _].
  destruct (Hc _ _ Hp) as (a & b & ->). eauto.
Qed.

End LockEntries.

(** X25. The promote menu is shown to the leader only and offers exactly
    the Discord members who hold a slot; picking any of them at once makes
    that member the leader, who still holds a slot.  The answer is
    'Promoted ...', unless the edit of the party message rejects: then it
    is 'An error occurred ...', and the leader is changed all the same. *)
Theorem promote_then_pick (w : World) (partyId userId : jsstring)
  (party : Party) (options : list jsstring) :
  activeParties w !! partyId = Some party →
  button_ promote partyId userId w = (ChooseLeader options, w) →
  userId = leader party
  ∧ (∀ m, m ∈ options ↔ memberOccupant m party)
  ∧ ∀ m env, m ∈ options →
      ∃ w',
        handled env (PromotePick partyId userId m) w
        = (if editRejects env party then Thrown else Promoted m, w')
        ∧ activeParties w' = <[partyId := withLeader m party]> (activeParties w)
        ∧ memberOccupant m (withLeader m party).
Proof.
  intros Hp Hb. unfold button_, handlePromoteAction in Hb. rewrite Hp in Hb.
  destruct (bool_decide (userId = leader party)) eqn:Hl; [|done].
  apply bool_decide_eq_true in Hl. cbn [negb] in Hb.
  destruct (omap user _) as [|m0 rest] eqn:Ho; [done|].
  apply (inj (λ r, (r, w))) in Hb. injection Hb as <-. rewrite <- Ho.
  assert (Hel : ∀ m, m ∈ omap user (filter (λ s, discordUser s = true)
                                       (slots party))
                     ↔ memberOccupant m party).
  { intros m. rewrite list_elem_of_omap. unfold discordUser, memberOccupant.
    split.
    - intros (s & [Hd Hin]%list_elem_of_filter & Hu). exists s.
      rewrite Hu in Hd. repeat split; [done..|]. by apply negb_true_iff.
    - intros (s & Hin & Hu & Hs). exists s. split; [|done].
      apply list_elem_of_filter. by rewrite Hu, Hs. }
  split; [done|]. split; [done|].
  intros m env Hm. apply Hel in Hm.
  destruct Hm as (s & Hin & Hu & Hs).
  assert (E : interactionCreate (PromotePick partyId userId m) w
              = (Promoted m,
                 saveData (mutate partyId (withLeader m party) w))).
  { cbn [interactionCreate]. unfold promotepick_. rewrite Hp, Hs.
    by rewrite bool_decide_eq_true_2 by done. }
  eexists. split; [exact (handled_after env
                    (PromotePick partyId userId m) w party _ _ Hp E)|].
  rewrite saveData_parties. split; [done|].
  by exists s.
Qed.

Lemma created_parties type_ userId uuid env w partyId q :
  activeParties (snd (handleRunSelection type_ userId uuid env w)) !! partyId
  = Some q →
  activeParties w !! partyId = Some q
  ∨ ∃ c, slots q = (λ r, {| role := r; user := None |}) <$> roles c.
Proof.
  unfold handleRunSelection. destruct (RUN_CONFIGS type_) as [c|]; [|by left].
  cbv zeta. destruct env as [| |sent latency]; cbn [snd].
  1,2: cbn [mutate withParties activeParties]; rewrite lookup_insert;
       case_decide; [intros [= <-]; right; by exists c|by left].
  cbn [setupLockTimer activeParties]. rewrite saveData_parties.
  cbn [mutate withParties activeParties tick]. rewrite insert_insert_eq.
  rewrite lookup_insert.
  case_decide; [intros [= <-]; right; by exists c|by left].
Qed.

Lemma vacant_roster_lookup (l : list jsstring) i s :
  ((λ r, {| role := r; user := None |}) <$> l) !! i = Some s → user s = None.
Proof.
  rewrite list_lookup_fmap. destruct (l !! i); [|done]. by intros [= <-].
Qed.

Lemma created_unique type_ userId uuid env w :
  worldUnique w →
  worldUnique (snd (handleRunSelection type_ userId uuid env w)).
Proof.
  intros Hw pid q [Hq | [c Hc]]%created_parties; [by apply (Hw pid)|].
  intros id i j s t _ Hi _ Hs _. rewrite Hc in Hi.
  apply vacant_roster_lookup in Hi. congruence.
Qed.

Lemma created_trimmed type_ userId uuid env w :
  worldTrimmed w →
  worldTrimmed (snd (handleRunSelection type_ userId uuid env w)).
Proof.
  intros Hw pid q [Hq | [c Hc]]%created_parties; [by apply (Hw pid)|].
  intros s n [i Hi]%list_elem_of_lookup Hs. rewrite Hc in Hi.
  apply vacant_roster_lookup in Hi. congruence.
Qed.

(** X26. Creating a party keeps the members of every party in at most one
    slot each and the external names trimmed, whatever the platform does:
    a new party has no occupants. *)
Theorem creation_keeps_invariants (type_ userId uuid : jsstring)
  (env : PostEnv) (w : World) :
  worldUnique w → worldTrimmed w →
  worldUnique (snd (handleRunSelection type_ userId uuid env w))
  ∧ worldTrimmed (snd (handleRunSelection type_ userId uuid env w)).
Proof. intros. split; [by apply created_unique|by apply created_trimmed]. Qed.

(** The party that a run selection puts into the registry. *)
Lemma created_party type_ userId uuid env w partyId p' :
  activeParties (snd (handleRunSelection type_ userId uuid env w)) !! partyId
  = Some p' →
  activeParties w !! partyId = Some p'
  ∨ ∃ c, RUN_CONFIGS type_ = Some c
         ∧ partyId = str "party_" ++ uuid
         ∧ p' = match env with
                | Posted sent _ =>
                    withMessageId sent (newParty type_ userId c (clock w))
                | _ => newParty type_ userId c (clock w)
                end.
Proof.
  unfold handleRunSelection. destruct (RUN_CONFIGS type_) as [c|]; [|by left].
  cbv zeta. destruct env as [| |sent latency]; cbn [snd].
  1,2: cbn [mutate withParties activeParties]; rewrite lookup_insert;
       case_decide; [intros [= <-]; right; by exists c|by left].
  cbn [setupLockTimer activeParties]. rewrite saveData_parties.
  cbn [mutate withParties activeParties tick]. rewrite insert_insert_eq.
  rewrite lookup_insert.
  case_decide; [intros [= <-]; right; by exists c|by left].
Qed.

(** X9. What a request can do to the parties of the registry.  An
    interaction on a party adds no party and changes the shape of none: a
    party found in the registry afterwards was there before under the same
    id, with the same roles in the same order, the same number of slots,
    type, size, creation time and message id; only the users of the slots
    and the leader change.  The one party that is not of that kind is the
    one a run selection has put under party_<uuid>: it has the selected
    type, the selecting user as leader, the size and the roles of the
    configuration, all slots vacant, the current time as creation time,
    and the id of the posted message if the message was posted. *)
Theorem roster_shape_kept (q : Request) (w : World) (partyId : jsstring)
  (p' : Party) :
  activeParties (snd (onInteraction q w)) !! partyId = Some p' →
  (∃ p, activeParties w !! partyId = Some p
        ∧ role <$> slots p' = role <$> slots p
        ∧ length (slots p') = length (slots p)
        ∧ type p' = type p ∧ maxSize p' = maxSize p
        ∧ createdAt p' = createdAt p ∧ messageId p' = messageId p)
  ∨ (∃ type_ userId uuid env c,
       q = SelectRun type_ userId uuid env
       ∧ RUN_CONFIGS type_ = Some c
       ∧ partyId = str "party_" ++ uuid
       ∧ type p' = type_ ∧ leader p' = userId ∧ maxSize p' = size c
       ∧ slots p' = (λ r, {| role := r; user := None |}) <$> roles c
       ∧ createdAt p' = clock w
       ∧ messageId p' = match env with
                        | Posted sent _ => Some sent
                        | _ => None
                        end).
Proof.
  destruct q as [type_ userId uuid env | i env]; cbn [onInteraction].
  - intros [Hq | (c & Hc & -> & ->)]%created_party.
    + left. exists p'. by repeat split.
    + right. exists type_, userId, uuid, env, c.
      destruct env; by repeat split.
  - rewrite handled_state. intros H. left.
    by apply (interaction_shape_kept i).
Qed.

(** X10. When the data file can be written and holds the registry, it
    holds the registry again after every request that is not answered with
    one of the two notices of an unexpected failure ('Failed to access the
    party channel.', 'An error occurred ...'), and also after an
    interaction on a party that is answered with the second notice only
    because the edit of the party message rejected.  A run selection that
    stops at the channel or at the send, and the switch that throws, have
    written to the registry and not saved. *)
Theorem file_stays_in_step (w : World) :
  fs_writable w = true →
  inStep w →
  (∀ q, failure (fst (onInteraction q w)) ≠ Some Unexpected →
        inStep (snd (onInteraction q w)))
  ∧ (∀ i env, fst (interactionCreate i w) ≠ Thrown →
              inStep (snd (handled env i w))).
Proof.
  intros Hfs Hin.
  assert (Hparty : ∀ i env, fst (interactionCreate i w) ≠ Thrown →
                            inStep (snd (handled env i w))).
  { intros i env Ht. rewrite handled_state.
    by apply interaction_in_step. }
  split; [|exact Hparty].
  intros [type_ userId uuid env | i env]; cbn [onInteraction].
  - unfold handleRunSelection.
    destruct (RUN_CONFIGS type_) as [c|]; [|done]. cbv zeta.
    destruct env as [| |sent latency]; cbn [fst snd failure]; [done..|].
    intros _. unfold inStep, setupLockTimer. cbn [disk activeParties].
    by apply saveData_inStep.
  - intros Hf. apply Hparty. intros Ht. apply Hf.
    unfold handled. destruct (interactionCreate i w) as [r w'].
    simpl in Ht. subst r. by repeat case_match.
Qed.

Lemma w0_unique : worldUnique Sample.w0.
Proof.
  intros pid p. unfold Sample.w0. cbn [activeParties].
  by rewrite lookup_empty.
Qed.

Lemma w0_trimmed : worldTrimmed Sample.w0.
Proof.
  intros pid p. unfold Sample.w0. cbn [activeParties].
  by rewrite lookup_empty.
Qed.

Lemma w1_unique : worldUnique Sample.w1.
Proof. apply created_unique, w0_unique. Qed.

Lemma w1_trimmed : worldTrimmed Sample.w1.
Proof. apply created_trimmed, w0_trimmed. Qed.

Lemma w2_party : activeParties Sample.w2 !! Sample.P = Some Sample.party2.
Proof. vm_compute. reflexivity. Qed.

Lemma party1_vacant s : s ∈ slots Sample.party1 → user s = None.
Proof.
  intros [i Hi]%list_elem_of_lookup. by apply vacant_roster_lookup in Hi.
Qed.

(** ** The properties above on the sample party *)

Lemma unknown_party_not_found_witness :
  interactionCreate (Button join (str "party_0000") Sample.m1) Sample.w1
  = (NoSuchParty, Sample.w1)
  ∧ failure NoSuchParty = Some NotFound.
Proof.
  apply (unknown_party_not_found
           (Button join (str "party_0000") Sample.m1) Sample.w1).
  vm_compute. reflexivity.
Defined.

Lemma only_the_leader_witness :
  interactionCreate (KickPick Sample.P Sample.m2 2) Sample.w2
  = (OnlyLeader, Sample.w2)
  ∧ failure OnlyLeader = Some NotLeader.
Proof.
  apply (only_the_leader (KickPick Sample.P Sample.m2 2) Sample.w2
           Sample.party2).
  - vm_compute. reflexivity.
  - reflexivity.
  - vm_compute. discriminate.
Defined.

Lemma menus_leave_state_witness :
  snd (interactionCreate (Button kick Sample.P Sample.lead) Sample.w2)
  = Sample.w2.
Proof.
  apply (menus_leave_state (Button kick Sample.P Sample.lead) Sample.w2).
  reflexivity.
Defined.

Lemma roster_shape_kept_witness :
  (∃ p, activeParties Sample.w1 !! Sample.P = Some p
        ∧ role <$> slots Sample.party2 = role <$> slots p
        ∧ length (slots Sample.party2) = length (slots p)
        ∧ type Sample.party2 = type p ∧ maxSize Sample.party2 = maxSize p
        ∧ createdAt Sample.party2 = createdAt p
        ∧ messageId Sample.party2 = messageId p)
  ∨ (∃ type_ userId uuid env c,
       OnParty (Pick Sample.P Sample.m2 2) EditFails
       = SelectRun type_ userId uuid env
       ∧ RUN_CONFIGS type_ = Some c
       ∧ Sample.P = str "party_" ++ uuid
       ∧ type Sample.party2 = type_ ∧ leader Sample.party2 = userId
       ∧ maxSize Sample.party2 = size c
       ∧ slots Sample.party2
         = (λ r, {| role := r; user := None |}) <$> roles c
       ∧ createdAt Sample.party2 = clock Sample.w1
       ∧ messageId Sample.party2 = match env with
                                   | Posted sent _ => Some sent
                                   | _ => None
                                   end).
Proof.
  apply (roster_shape_kept (OnParty (Pick Sample.P Sample.m2 2) EditFails)
           Sample.w1 Sample.P Sample.party2).
  vm_compute. reflexivity.
Defined.

Lemma file_stays_in_step_witness :
  inStep (snd (handled EditFails (Pick Sample.P Sample.m2 2) Sample.w1)).
Proof.
  apply (file_stays_in_step Sample.w1).
  - reflexivity.
  - vm_compute. reflexivity.
  - vm_compute. discriminate.
Defined.

Lemma selected_run_is_posted_witness :
  ∃ w', handleRunSelection (str "UWSC") Sample.m1 (str "a3e0")
          (Posted (str "9002") 180) Sample.w1 = (PartyPosted, w').
Proof.
  destruct (selected_run_is_posted Sample.w1 (str "UWSC") Sample.m1
              (str "a3e0") (str "9002") 180) as (c & p & w' & _ & H & _).
  - by apply (bool_decide_unpack _); vm_compute.
  - exists w'. exact H.
Defined.

Lemma creation_keeps_invariants_witness :
  worldUnique (snd (handleRunSelection (str "UWSC") Sample.m1 (str "a3e0")
                      (Posted (str "9002") 180) Sample.w1))
  ∧ worldTrimmed (snd (handleRunSelection (str "UWSC") Sample.m1 (str "a3e0")
                         (Posted (str "9002") 180) Sample.w1)).
Proof.
  apply creation_keeps_invariants; [exact w1_unique|exact w1_trimmed].
Defined.

Lemma join_then_pick_witness :
  StronglySorted Z.lt (slotIndices vacant Sample.party1).
Proof.
  apply (join_then_pick Sample.w1 Sample.P Sample.m1 Sample.party1
           (slotIndices vacant Sample.party1)).
  - vm_compute. reflexivity.
  - vm_compute. reflexivity.
Defined.

Lemma switch_then_pick_witness :
  3 ∈ [0; 1; 2; 3; 4; 5; 6; 7]
  ↔ ∃ s, slotAt Sample.party2 3 = Some s
         ∧ (user s = None ∨ user s = Some Sample.m2).
Proof.
  apply (switch_then_pick Sample.w2 Sample.P Sample.m2 Sample.party2
           [0; 1; 2; 3; 4; 5; 6; 7]).
  - vm_compute. reflexivity.
  - vm_compute. reflexivity.
Defined.

Lemma kick_then_pick_witness :
  2 ∈ [2] ↔ ∃ s u, slotAt Sample.party2 2 = Some s ∧ user s = Some u.
Proof.
  apply (kick_then_pick Sample.w2 Sample.P Sample.lead Sample.party2 [2]).
  - vm_compute. reflexivity.
  - vm_compute. reflexivity.
Defined.

Lemma reserve_flow_witness :
  handled EditFails (ExternalRole Sample.P Sample.lead 0) Sample.w2
  = (AskIgn 0, Sample.w2).
Proof.
  apply (reserve_flow Sample.w2 Sample.P Sample.lead (str " Bob ")
           Sample.party2 [0; 1; 3; 4; 5; 6; 7] 0 EditFails).
  - vm_compute. reflexivity.
  - vm_compute. reflexivity.
  - left.
  - vm_compute. discriminate.
Defined.

Lemma promote_then_pick_witness :
  Sample.m2 ∈ [Sample.m2] ↔ memberOccupant Sample.m2 Sample.party2.
Proof.
  apply (promote_then_pick Sample.w2 Sample.P Sample.lead Sample.party2
           [Sample.m2]).
  - vm_compute. reflexivity.
  - vm_compute. reflexivity.
Defined.

Lemma promotion_hands_over_witness :
  ∃ w', handled EditFails
          (PromotePick Sample.P (leader Sample.party2) Sample.m2) Sample.w2
        = (if editRejects EditFails Sample.party2 then Thrown
           else Promoted Sample.m2, w')
        ∧ rosterOf Sample.P w' = rosterOf Sample.P Sample.w2.
Proof.
  destruct (promotion_hands_over Sample.w2 Sample.P Sample.m2 Sample.party2
              EditFails)
    as (w' & H1 & H2 & _).
  - vm_compute. reflexivity.
  - vm_compute. reflexivity.
  - vm_compute. discriminate.
  - exists w'. split; [exact H1|exact H2].
Defined.

Lemma disband_ends_party_witness :
  ∃ w', handled EditFails (Button disband Sample.P (leader Sample.party2))
          Sample.w2
        = (if editRejects EditFails Sample.party2 then Thrown
           else Disbanded, w')
        ∧ activeParties w' = delete Sample.P (activeParties Sample.w2).
Proof.
  destruct (disband_ends_party Sample.w2 Sample.P Sample.party2 EditFails)
    as (w' & H1 & H2 & _).
  - vm_compute. reflexivity.
  - exists w'. split; [exact H1|exact H2].
Defined.

Lemma ping_mentions_members_witness :
  ∃ mentions,
    button_ ping Sample.P (leader Sample.party2) Sample.w2
    = (match mentions with [] => NoOneToPing | _ => PartyPing mentions end,
       Sample.w2).
Proof.
  destruct (ping_mentions_members Sample.w2 Sample.P Sample.party2)
    as (ms & H & _).
  - vm_compute. reflexivity.
  - exists ms. exact H.
Defined.

Lemma menus_route_witness :
  ∃ v, v ∈ [0; 1; 3]
       ∧ route {| component := StringSelectMenu;
                  customId := str "pick_party_6f1c";
                  value0 := str "3"; user_id := Sample.m1;
                  ign_input := [] |}
         = ToParty (Pick Sample.P Sample.m1 v).
Proof.
  apply (menus_route (ChooseRole [0; 1; 3]) Sample.P (str "pick_party_6f1c")
           Sample.m1 (str "3") []).
  - vm_compute. reflexivity.
  - by apply (bool_decide_unpack _); vm_compute.
Defined.

Lemma modal_routes_witness :
  route {| component := ModalSubmit;
           customId := str "externalign_party_6f1c_3";
           value0 := []; user_id := Sample.lead;
           ign_input := str " Bob " |}
  = ToParty (ExternalIgn Sample.P 3 Sample.lead (str " Bob ")).
Proof.
  apply (modal_routes Sample.P (str "externalign_party_6f1c_3") Sample.lead
           [] (str " Bob ") 3).
  vm_compute. reflexivity.
Defined.

Lemma embed_full_when_join_refused_witness :
  color (createPartyEmbed Sample.party1) = COLORS_danger
  ↔ button_ join Sample.P Sample.m1 Sample.w1 = (PartyIsFull, Sample.w1).
Proof.
  apply (embed_full_when_join_refused Sample.w1 Sample.P Sample.m1
           Sample.party1).
  - vm_compute. reflexivity.
  - vm_compute. reflexivity.
  - intros s Hs. rewrite (party1_vacant s Hs). discriminate.
Defined.

Lemma lock_entries_pile_up_witness :
  ∃ previous current,
    EventLoop.partyLocks
      (EventLoop.run [EventLoop.Arrive (Pick Sample.P Sample.m1 0);
                      EventLoop.Settle 0; EventLoop.Settle 0;
                      EventLoop.Settle 0; EventLoop.Settle 0]
         (EventLoop.boot Sample.w1))
    !! Sample.P
    = Some (EventLoop.Chained previous current).
Proof.
  apply (lock_entries_pile_up
           [EventLoop.Arrive (Pick Sample.P Sample.m1 0);
            EventLoop.Settle 0; EventLoop.Settle 0;
            EventLoop.Settle 0; EventLoop.Settle 0]
           Sample.w1 (Pick Sample.P Sample.m1 0)).
  - left.
  - reflexivity.
Defined.

Lemma uniqueness_preserved_witness :
  worldUnique (snd (interactionCreate (Pick Sample.P Sample.m1 0) Sample.w1)).
Proof.
  apply (uniqueness_preserved (Pick Sample.P Sample.m1 0) Sample.w1).
  - exact w1_unique.
  - intros partyId u v p [= <- <- <-] Hp (s & Hs & Hu).
    rewrite w1_party in Hp. injection Hp as <-.
    rewrite (party1_vacant s Hs) in Hu. discriminate.
Defined.

Lemma externals_stay_trimmed_witness :
  worldTrimmed
    (snd (interactionCreate
            (ExternalIgn Sample.P 0 Sample.lead (str " Bob ")) Sample.w1)).
Proof.
  apply (externals_stay_trimmed
           (ExternalIgn Sample.P 0 Sample.lead (str " Bob ")) Sample.w1).
  - exact w1_trimmed.
  - vm_compute. reflexivity.
Defined.

Lemma thrown_leaves_state_witness :
  snd (interactionCreate (Pick Sample.P Sample.m1 99) Sample.w1) = Sample.w1.
Proof.
  apply (thrown_leaves_state (Pick Sample.P Sample.m1 99) Sample.w1).
  - vm_compute. reflexivity.
  - discriminate.
Defined.

Lemma two_claims_one_slot_witness :
  handled EditFails (Pick Sample.P Sample.m2 0)
    (EventLoop.world
       (EventLoop.run
          (EventLoop.Arrive (Pick Sample.P Sample.m1 0)
             :: (EventLoop.Settle <$> [0%nat; 0%nat]))
          (EventLoop.boot Sample.w1)))
  = (SlotJustTaken,
     EventLoop.world
       (EventLoop.run
          (EventLoop.Arrive (Pick Sample.P Sample.m1 0)
             :: (EventLoop.Settle <$> [0%nat; 0%nat]))
          (EventLoop.boot Sample.w1))).
Proof.
  apply (two_claims_one_slot Sample.w1 Sample.P Sample.m1 Sample.m2 0
           Sample.party1 {| role := str "Tank"; user := None |}
           [0%nat; 0%nat] EditFails EditFails).
  - vm_compute. reflexivity.
  - vm_compute. reflexivity.
  - reflexivity.
Defined.
